(** * torch/profiler/_utils.py: queue-depth and idle-time analysis

    A shallow embedding of [EventMetrics], [Interval], [EventKey] and
    [BasicEvaluation] of [torch/profiler/_utils.py], and the properties of
    the analysis that are proved about it.

    Conventions of the embedding:
    - Python [int] is [Z]; list indices are [nat].
    - The dictionary [self.metrics] keeps its insertion order (it is iterated
      by [rank_events] and by [__init__]), so it is an association list whose
      keys are compared the way [EventKey.__eq__] compares them: by
      [event.id].
    - [Interval] objects are mutable and shared between a list and its sorted
      copy; where the code mutates them ([EventKey.intervals_overlap]) they
      live in a store and lists hold their addresses.
    - [assert] is a result in the error type; the loops are total. *)

Set Warnings "-register-all".
From Stdlib Require Import ZArith List Lia Bool String Ascii.
From Stdlib Require Import Floats.SpecFloat.
From Equations Require Import Equations.
From stdpp Require Import base list gmap.

Import ListNotations.
Local Open Scope Z_scope.

(** ** Data model *)

(** [_ProfilerEvent]: the host events of [experimental_event_tree()]. The
    analysis reads [id], [name()], [start_time_ns], [end_time_ns],
    [duration_time_ns] and [children]. *)
Inductive Event : Type := mkEvent {
  id : Z;
  name : string;
  start_time_ns : Z;
  end_time_ns : Z;
  duration_time_ns : Z;
  children : list Event
}.

(** A host event of a well-formed trace: its duration is the length of its
    time span, and the span is not reversed. *)
Definition well_timed (e : Event) : Prop :=
  duration_time_ns e = end_time_ns e - start_time_ns e /\
  start_time_ns e <= end_time_ns e.

Record EventMetrics : Type := mkEventMetrics {
  m_duration_time_ns : Z;
  self_time_ns : Z;
  idle_time_ns : Z;
  queue_depth : Z
}.

(** The dataclass defaults: every field is [0] unless given. *)
Definition EventMetrics_default : EventMetrics := mkEventMetrics 0 0 0 0.

Definition set_duration_time_ns (v : Z) (m : EventMetrics) : EventMetrics :=
  mkEventMetrics v (self_time_ns m) (idle_time_ns m) (queue_depth m).
Definition set_idle_time_ns (v : Z) (m : EventMetrics) : EventMetrics :=
  mkEventMetrics (m_duration_time_ns m) (self_time_ns m) v (queue_depth m).
Definition set_queue_depth (v : Z) (m : EventMetrics) : EventMetrics :=
  mkEventMetrics (m_duration_time_ns m) (self_time_ns m) (idle_time_ns m) v.

Record Interval : Type := mkInterval {
  start : Z;
  end_ : Z;
  i_queue_depth : Z
}.

(** [Interval(a, b)]: the queue depth defaults to [0]. *)
Definition Interval2 (a b : Z) : Interval := mkInterval a b 0.

Definition set_end (v : Z) (i : Interval) : Interval :=
  mkInterval (start i) v (i_queue_depth i).

#[global] Instance Interval_inhabited : Inhabited Interval :=
  populate (mkInterval 0 0 0).

(** [EventKey]: a wrapper whose [__eq__] and [__hash__] look at [event.id]
    only. *)
Record EventKey : Type := mkEventKey { event : Event }.

Definition EventKey_eqb (a b : EventKey) : bool :=
  id (event a) =? id (event b).

(** ** The metrics dictionary *)

Module Dict.

Definition t : Type := list (EventKey * EventMetrics).

Definition keys (d : t) : list EventKey := map fst d.

Fixpoint get (d : t) (k : EventKey) : option EventMetrics :=
  match d with
  | [] => None
  | (k', v) :: d' => if EventKey_eqb k' k then Some v else get d' k
  end.

Definition contains (d : t) (k : EventKey) : bool :=
  match get d k with Some _ => true | None => false end.

(** [d[k] = v]: an existing entry keeps its key object and its place, a
    new one goes last. *)
Fixpoint set (d : t) (k : EventKey) (v : EventMetrics) : t :=
  match d with
  | [] => [(k, v)]
  | (k', v') :: d' =>
      if EventKey_eqb k' k then (k', v) :: d' else (k', v') :: set d' k v
  end.

(** [d[k].field = ...]: the record stored under [k] is changed in place.
    The keys the analysis looks up were all inserted before, so the
    [KeyError] of an absent key is left out. *)
Fixpoint update (d : t) (k : EventKey) (f : EventMetrics -> EventMetrics) : t :=
  match d with
  | [] => []
  | (k', v') :: d' =>
      if EventKey_eqb k' k then (k', f v') :: d' else (k', v') :: update d' k f
  end.

End Dict.

(** ** Errors *)

Inductive result (A : Type) : Type :=
| Ok (a : A)
| AssertionError (msg : string).
Arguments Ok {A} a.
Arguments AssertionError {A} msg.

(** ** [BasicEvaluation.compute_self_time] *)

Fixpoint event_size (e : Event) : nat :=
  S (list_sum (map event_size (children e))).

Definition forest_size (l : list Event) : nat := list_sum (map event_size l).

(** [self_time = curr_event.duration_time_ns], from which the
    [for child_event] loop subtracts the durations of the direct children
    one by one. *)
Definition self_time_of (e : Event) : Z :=
  fold_left (fun st c => st - duration_time_ns c) (children e) (duration_time_ns e).

(** The size of the stack decreases at every turn of the loop. *)
Lemma forest_size_app l1 l2 :
  forest_size (l1 ++ l2) = (forest_size l1 + forest_size l2)%nat.
Proof. unfold forest_size. now rewrite map_app, list_sum_app. Qed.

Lemma forest_size_rev l : forest_size (rev l) = forest_size l.
Proof.
  induction l as [|x l IH]; [reflexivity|]. simpl rev.
  rewrite forest_size_app, IH. unfold forest_size. simpl. lia.
Qed.

(** The [while stack:] loop. The deque is a list whose head is the right end
    of the deque: [stack.pop()] takes the head, and appending the children
    in order leaves the last child on top. *)
Equations? self_time_loop (stack : list Event) (metrics : Dict.t)
  : result Dict.t by wf (forest_size stack) lt :=
self_time_loop [] metrics := Ok metrics;
self_time_loop (curr_event :: stack) metrics :=
  let self_time := self_time_of curr_event in
  let stack := rev (children curr_event) ++ stack in
  if Dict.contains metrics (mkEventKey curr_event)
  then AssertionError "Duplicate id"
  else
    let metrics :=
      Dict.set metrics (mkEventKey curr_event)
        (mkEventMetrics 0 self_time 0 0) in
    let metrics :=
      Dict.update metrics (mkEventKey curr_event)
        (set_duration_time_ns (duration_time_ns curr_event)) in
    self_time_loop stack metrics.
Proof.
  subst stack. rewrite forest_size_app, forest_size_rev.
  unfold forest_size at 3. destruct curr_event; simpl.
  unfold forest_size. lia.
Qed.

(** [deque(tree)]: the last root is on top of the stack. *)
Definition compute_self_time (event_tree : list Event) : result Dict.t :=
  self_time_loop (rev event_tree) [].

(** ** [sorted(seq, key=...)]

    Python's sort is stable: elements with equal keys keep their order. The
    keys of the analysis are integers. *)
Section Sorted.
Context {A : Type} (key : A -> Z).

Fixpoint insert_by (x : A) (l : list A) : list A :=
  match l with
  | [] => [x]
  | y :: l' => if key x <=? key y then x :: l else y :: insert_by x l'
  end.

Definition sorted (l : list A) : list A := fold_right insert_by [] l.

(** Keys in nondecreasing order. *)
Fixpoint nondecreasing (l : list A) : Prop :=
  match l with
  | x :: ((y :: _) as l') => key x <= key y /\ nondecreasing l'
  | _ => True
  end.
End Sorted.

(** ** [EventKey.intervals_overlap]

    [sorted(intervals, ...)] makes a new list of the same [Interval] objects,
    and [interval.end = ...] writes to the object. The objects live in a
    store (a list, the address of an object being its position), and an
    interval list holds addresses. *)
Definition store : Type := list Interval.
Definition loc : Type := nat.

Definition deref (h : store) (l : loc) : Interval := h !!! l.

(** [if i + 1 < len(intervals) and interval.end > intervals[i + 1].start:
    interval.end = intervals[i + 1].start], [rest] being what follows
    [interval] in the sorted list. *)
Definition clip (h : store) (interval : loc) (rest : list loc) : store :=
  match rest with
  | next :: _ =>
      if end_ (deref h interval) >? start (deref h next)
      then <[interval := set_end (start (deref h next)) (deref h interval)]> h
      else h
  | [] => h
  end.

(** The overlap of the event's span with one interval, added to
    [overlap_time]. *)
Definition add_overlap (e : Event) (interval : Interval) (overlap_time : Z) : Z :=
  let overlap_start := Z.max (start_time_ns e) (start interval) in
  let overlap_end := Z.min (end_time_ns e) (end_ interval) in
  if overlap_start <? overlap_end
  then overlap_time + (overlap_end - overlap_start)
  else overlap_time.

(** The [for i, interval in enumerate(intervals)] loop over the sorted
    list. *)
Fixpoint overlap_loop (e : Event) (h : store) (intervals : list loc)
    (overlap_time : Z) : Z * store :=
  match intervals with
  | [] => (overlap_time, h)
  | interval :: rest =>
      let h := clip h interval rest in
      overlap_loop e h rest (add_overlap e (deref h interval) overlap_time)
  end.

(** Returns the overlap time and the store the call leaves behind. *)
Definition intervals_overlap (self : EventKey) (h : store) (intervals : list loc)
  : Z * store :=
  let intervals := sorted (fun l => start (deref h l)) intervals in
  overlap_loop (event self) h intervals 0.

(** ** Device events *)

(** [torch.profiler.DeviceType]; the analysis only asks whether it is
    [CUDA]. *)
Inductive DeviceType : Type := CPU | CUDA | OtherDevice.

Definition DeviceType_eqb (a b : DeviceType) : bool :=
  match a, b with
  | CPU, CPU | CUDA, CUDA | OtherDevice, OtherDevice => true
  | _, _ => false
  end.

(** [_KinetoEvent], as [kineto_results.events()] returns them. [oid] is the
    identity of the Python object: [kernel_mapping] is a dictionary whose
    keys are the event objects themselves. *)
Record KinetoEvent : Type := mkKinetoEvent {
  oid : nat;
  k_name : string;
  device_type : DeviceType;
  start_us : Z;
  duration_us : Z;
  linked_correlation_id : Z
}.

(** What the profiler hands over: the host event forest and the flat list of
    device-side events, before they are given their object identities. *)
Record profile : Type := mkProfile {
  experimental_event_tree : list Event;
  events : list (string * DeviceType * Z * Z * Z)
}.

(** The objects of [events()]: the identity of an object is its position in
    the list, so different objects have different identities. *)
Definition kineto_events (prof : profile) : list KinetoEvent :=
  imap (fun i '(n, d, s, du, c) => mkKinetoEvent i n d s du c) (events prof).

(** [str.lower()] on the ASCII letters. *)
Definition lower_ascii (c : ascii) : ascii :=
  let n := nat_of_ascii c in
  if ((65 <=? n) && (n <=? 90))%nat then ascii_of_nat (n + 32) else c.

Fixpoint lower (s : string) : string :=
  match s with
  | EmptyString => EmptyString
  | String c s' => String (lower_ascii c) (lower s')
  end.

(** [sub in s] *)
Definition str_in (sub s : string) : bool :=
  match index 0 sub s with Some _ => true | None => false end.

Definition is_cuda_launch_kernel (e : KinetoEvent) : bool :=
  String.eqb (k_name e) "cudaLaunchKernel".

Definition is_cuda_kernel (e : KinetoEvent) : bool :=
  DeviceType_eqb (device_type e) CUDA && negb (str_in "mem" (lower (k_name e))).

(** ** [index_of_first_match] and [argmax] *)

Fixpoint first_match_from {A} (predicate : A -> bool) (l : list A) (i : nat)
  : option nat :=
  match l with
  | [] => None
  | x :: l' => if predicate x then Some i else first_match_from predicate l' (S i)
  end.

(** [for i in range(start, end): if predicate(seq[i]): return i] *)
Definition index_of_first_match {A} (seq : list A) (predicate : A -> bool)
    (start : nat) (end_ : option nat) : option nat :=
  let end_ :=
    match end_ with
    | None => length seq
    | Some n => if (length seq <=? n)%nat then length seq else n
    end in
  first_match_from predicate (drop start (take end_ seq)) start.

(** [max(seq)] for a non-empty list: the first of the largest elements. *)
Definition py_max (x : Z) (l : list Z) : Z :=
  fold_left (fun m y => if m <? y then y else m) l x.

(** [seq.index(v)] for a value that occurs in [seq]. *)
Fixpoint py_index (v : Z) (l : list Z) : nat :=
  match l with
  | [] => 0
  | x :: l' => if x =? v then 0 else S (py_index v l')
  end.

(** [argmax(seq, start=start, end=end)] with the default [key];
    [seq[start:end]] with [end=None] goes to the end of the list. *)
Definition argmax (seq : list Z) (start : nat) (end_ : option nat) : option nat :=
  let seq :=
    match end_ with
    | Some n => drop start (take n seq)
    | None => drop start seq
    end in
  match seq with
  | [] => None
  | x :: l => Some (py_index (py_max x l) seq + start)%nat
  end.

(** ** [BasicEvaluation.compute_queue_depth] *)

(** The correlation mapping loop: [kernel_mapping] and
    [last_mapped_kernel]. An unmatched launch is mapped to [None]. *)
Fixpoint map_kernels (cuda_launch_events cuda_kernel_events : list KinetoEvent)
    (kernel_mapping : gmap nat (option nat)) (last_mapped_kernel : nat)
  : gmap nat (option nat) :=
  match cuda_launch_events with
  | [] => kernel_mapping
  | cuda_launch_event :: rest =>
      let index :=
        index_of_first_match cuda_kernel_events
          (fun x => linked_correlation_id x =? linked_correlation_id cuda_launch_event)
          last_mapped_kernel None in
      let kernel_mapping := <[oid cuda_launch_event := index]> kernel_mapping in
      let last_mapped_kernel :=
        match index with Some i => i | None => last_mapped_kernel end in
      map_kernels rest cuda_kernel_events kernel_mapping last_mapped_kernel
  end.

(** The events of the merged timeline: [hasattr(event, "start_us")] holds
    for the device events, [hasattr(event, "start_time_ns")] for the host
    events, so the last [raise] of [new_old_event_comparator] is not
    reached. *)
Inductive AnyEvent : Type :=
| Kineto (e : KinetoEvent)
| Profiler (e : Event).

Definition new_old_event_comparator (event : AnyEvent) : Z :=
  match event with
  | Kineto e => start_us e * 1000
  | Profiler e => start_time_ns e
  end.

(** [while current_kernel_index < len(cuda_kernel_events) and
    cuda_kernel_events[current_kernel_index].start_us() * 1000 <= start_time],
    [rest] being the kernels from [current_kernel_index] on. *)
Fixpoint advance (rest : list KinetoEvent) (current_kernel_index : nat)
    (start_time : Z) : nat :=
  match rest with
  | k :: rest' =>
      if start_us k * 1000 <=? start_time
      then advance rest' (S current_kernel_index) start_time
      else current_kernel_index
  | [] => current_kernel_index
  end.

Record sweep : Type := mkSweep {
  current_kernel_index : nat;
  spawned_kernel_index : Z;
  sw_queue_depth_list : list Interval;
  sw_metrics : Dict.t
}.

(** One turn of [for event in all_events]. *)
Definition sweep_step (cuda_kernel_events : list KinetoEvent)
    (kernel_mapping : gmap nat (option nat)) (st : sweep) (event : AnyEvent) : sweep :=
  let '(start_time, end_time, spawned_kernel_index) :=
    match event with
    | Kineto e =>
        (start_us e * 1000, (start_us e + duration_us e) * 1000,
         match kernel_mapping !! oid e with
         | Some (Some i) => Z.of_nat i
         | _ => spawned_kernel_index st
         end)
    | Profiler e => (start_time_ns e, end_time_ns e, spawned_kernel_index st)
    end in
  let current_kernel_index :=
    advance (drop (current_kernel_index st) cuda_kernel_events)
      (current_kernel_index st) start_time in
  let current_queue_depth :=
    spawned_kernel_index - Z.of_nat current_kernel_index + 1 in
  match event with
  | Kineto _ =>
      mkSweep current_kernel_index spawned_kernel_index
        (sw_queue_depth_list st ++ [mkInterval start_time end_time current_queue_depth])
        (sw_metrics st)
  | Profiler e =>
      mkSweep current_kernel_index spawned_kernel_index
        (sw_queue_depth_list st)
        (Dict.update (sw_metrics st) (mkEventKey e) (set_queue_depth current_queue_depth))
  end.

Definition cuda_launch_events (prof : profile) : list KinetoEvent :=
  sorted start_us (List.filter is_cuda_launch_kernel (kineto_events prof)).

Definition cuda_kernel_events (prof : profile) : list KinetoEvent :=
  sorted start_us (List.filter is_cuda_kernel (kineto_events prof)).

Definition kernel_mapping (prof : profile) : gmap nat (option nat) :=
  map_kernels (cuda_launch_events prof) (cuda_kernel_events prof) ∅ 0.

(** Returns [queue_depth_list] and the metrics with their [queue_depth]
    set; [events] is [self.events]. *)
Definition compute_queue_depth (prof : profile) (events : list Event)
    (metrics : Dict.t) : list Interval * Dict.t :=
  let all_events :=
    map Kineto (cuda_launch_events prof) ++ map Kineto (cuda_kernel_events prof)
    ++ map Profiler events in
  let all_events := sorted new_old_event_comparator all_events in
  let st :=
    fold_left (sweep_step (cuda_kernel_events prof) (kernel_mapping prof))
      all_events (mkSweep 0 (-1) [] metrics) in
  (sw_queue_depth_list st, sw_metrics st).

(** ** [BasicEvaluation.compute_idle_time] *)

(** [for data_point in self.queue_depth_list]: the idle intervals between a
    depth of zero and the next positive depth. *)
Fixpoint idle_scan (queue_depth_list : list Interval) (idle : bool)
    (idle_start : Z) (idle_intervals : list Interval) : list Interval :=
  match queue_depth_list with
  | [] => idle_intervals
  | data_point :: rest =>
      let '(idle_start, idle) :=
        if (i_queue_depth data_point =? 0) && negb idle
        then (end_ data_point, true) else (idle_start, idle) in
      let '(idle_intervals, idle) :=
        if (i_queue_depth data_point >? 0) && idle
        then (idle_intervals ++ [Interval2 idle_start (start data_point)], false)
        else (idle_intervals, idle) in
      idle_scan rest idle idle_start idle_intervals
  end.

(** [if self.queue_depth_list and self.events: idle_intervals += [...]] *)
Definition boundary_intervals (queue_depth_list : list Interval)
    (events : list Event) : list Interval :=
  match queue_depth_list, events with
  | q0 :: _, e0 :: _ =>
      [Interval2 (start_time_ns e0) (start q0);
       Interval2 (end_ (List.last queue_depth_list q0))
                 (end_time_ns (List.last events e0))]
  | _, _ => []
  end.

(** The list [idle_intervals] when the loop over the events starts. *)
Definition idle_intervals (queue_depth_list : list Interval)
    (events : list Event) : list Interval :=
  idle_scan queue_depth_list false 0 (boundary_intervals queue_depth_list events).

(** [for event in event_list]: every call of [intervals_overlap] gets the
    same list of the same objects, so what one call clips the next one
    sees. *)
Fixpoint idle_loop (event_list : list Event) (h : store) (intervals : list loc)
    (metrics : Dict.t) : Dict.t * store :=
  match event_list with
  | [] => (metrics, h)
  | event :: rest =>
      let '(overlap, h) := intervals_overlap (mkEventKey event) h intervals in
      idle_loop rest h intervals
        (Dict.update metrics (mkEventKey event) (set_idle_time_ns overlap))
  end.

Definition compute_idle_time (queue_depth_list : list Interval)
    (events : list Event) (metrics : Dict.t) : Dict.t :=
  let h := idle_intervals queue_depth_list events in
  let event_list := map event (Dict.keys metrics) in
  fst (idle_loop event_list h (seq 0 (length h)) metrics).

(** ** [BasicEvaluation] *)

Record BasicEvaluation : Type := mkBasicEvaluation {
  be_profile : profile;
  metrics : Dict.t;
  event_keys : list EventKey;
  be_events : list Event;
  cuda_events : list KinetoEvent;
  queue_depth_list : list Interval
}.

(** [BasicEvaluation.__init__] *)
Definition BasicEvaluation_init (prof : profile) : result BasicEvaluation :=
  match compute_self_time (experimental_event_tree prof) with
  | AssertionError msg => AssertionError msg
  | Ok metrics =>
      let event_keys :=
        sorted (fun x => start_time_ns (event x)) (Dict.keys metrics) in
      let events := map event event_keys in
      let cuda_events :=
        sorted start_us (cuda_launch_events prof ++ cuda_kernel_events prof) in
      let '(queue_depth_list, metrics) := compute_queue_depth prof events metrics in
      let metrics := compute_idle_time queue_depth_list events metrics in
      Ok (mkBasicEvaluation prof metrics event_keys events cuda_events queue_depth_list)
  end.

(** ** [torch.float32] tensors

    [rank_events] turns the self and idle times into [torch.float32] tensors
    and computes their standard scores. The numbers are IEEE 754 binary32
    (24 bits of precision, maximal exponent 128), the arithmetic is that of
    [SpecFloat]; a 1-D tensor is a list. *)
Module F32.

Definition prec : Z := 24.
Definition emax : Z := 128.

Definition t : Type := spec_float.

Definition zero : t := S754_zero false.
Definition nan : t := S754_nan.

(** [torch.tensor(int, dtype=torch.float32)]: the nearest binary32 number. *)
Definition of_Z (z : Z) : t := binary_normalize prec emax z 0 false.

Definition add : t -> t -> t := SFadd prec emax.
Definition sub : t -> t -> t := SFsub prec emax.
Definition mul : t -> t -> t := SFmul prec emax.
Definition div : t -> t -> t := SFdiv prec emax.
Definition sqrt : t -> t := SFsqrt prec emax.
Definition ltb : t -> t -> bool := SFltb.

Definition is_nan (x : t) : bool :=
  match x with S754_nan => true | _ => false end.

Definition tensor (l : list Z) : list t := map of_Z l.

Definition sum (x : list t) : t := fold_left add x zero.

(** Modelled from the spec: [torch.mean], which is outside
    [torch/profiler/_utils.py]. "subtract mean": the sum of the elements
    divided by their number. *)
Definition mean (x : list t) : t := div (sum x) (of_Z (Z.of_nat (length x))).

(** Modelled from the spec: [torch.std], which is outside
    [torch/profiler/_utils.py]. "divide by standard deviation": the square
    root of the sum of the squared deviations from the mean over [n - 1]
    (the sample standard deviation, which is what [torch.std] computes when
    it is called with the tensor alone). *)
Definition std (x : list t) : t :=
  let m := mean x in
  let sq := map (fun v => mul (sub v m) (sub v m)) x in
  sqrt (div (sum sq) (of_Z (Z.of_nat (length x) - 1))).

(** [(x - torch.mean(x)) / torch.std(x)], element by element. *)
Definition normalized (x : list t) : list t :=
  map (fun v => div (sub v (mean x)) (std x)) x.

(** [a + b] for two tensors of one length. *)
Definition add_tensors (a b : list t) : list t :=
  map (fun p => add (fst p) (snd p)) (combine a b).

End F32.

(** ** [BasicEvaluation.rank_events] *)

Definition qd_values_of (queue_depth_list : list Interval) : list Z :=
  map i_queue_depth queue_depth_list.

(** The inner [for j in range(i + 1, len(qd_values))], [js] being the values
    of [j] still to come. It ends at the first window that passes the
    threshold and gives the interval that is appended and the value the
    code then assigns to [i]. *)
Fixpoint find_window (queue_depth_list : list Interval) (qd_values : list Z)
    (i : nat) (js : list nat) : option (Interval * nat) :=
  match js with
  | [] => None
  | j :: js' =>
      if qd_values !!! j <=? 1 then
        match argmax qd_values (i + 1) (Some j) with
        | None => find_window queue_depth_list qd_values i js'
        | Some peak_idx =>
            if qd_values !!! peak_idx - qd_values !!! i >? 3
            then Some (Interval2 (start (queue_depth_list !!! peak_idx))
                                 (start (queue_depth_list !!! i)), j)
            else find_window queue_depth_list qd_values i js'
        end
      else find_window queue_depth_list qd_values i js'
  end.

(** The body of [for i in range(len(qd_values) - 1)]: the decrease intervals
    after this turn and the value of the variable [i] when the turn ends. *)
Definition scan_turn (queue_depth_list : list Interval) (qd_values : list Z)
    (decrease_interval : list Interval) (i : nat) : list Interval * nat :=
  if qd_values !!! i <=? 1 then
    match find_window queue_depth_list qd_values i
            (seq (i + 1) (length qd_values - (i + 1))) with
    | Some (interval, j) => (decrease_interval ++ [interval], j)
    | None => (decrease_interval, i)
    end
  else (decrease_interval, i).

(** [for i in range(...)] takes the next value of the range at every turn,
    whatever the body assigned to [i]. *)
Definition decrease_interval_of (queue_depth_list : list Interval) : list Interval :=
  let queue_depth_list := rev queue_depth_list in
  let qd_values := qd_values_of queue_depth_list in
  fold_left
    (fun decrease_interval i =>
       fst (scan_turn queue_depth_list qd_values decrease_interval i))
    (seq 0 (length qd_values - 1)) [].

(** The scan as the specification words it, to compare with the one above:
    "Overlapping/nested windows are skipped once consumed (the scan index
    jumps past a matched window)". A turn whose index lies before the end of
    the window matched last is skipped. *)
Definition decrease_interval_skipping (queue_depth_list : list Interval)
  : list Interval :=
  let queue_depth_list := rev queue_depth_list in
  let qd_values := qd_values_of queue_depth_list in
  fst (fold_left
         (fun '(decrease_interval, next) i =>
            if (i <? next)%nat then (decrease_interval, next)
            else scan_turn queue_depth_list qd_values decrease_interval i)
         (seq 0 (length qd_values - 1)) ([], 0%nat)).

(** [[event for event in self.metrics.keys()
      if event.intervals_overlap(decrease_interval)]]: the calls share the
    interval objects. *)
Fixpoint filter_overlapping (keys : list EventKey) (h : store)
    (intervals : list loc) : list EventKey * store :=
  match keys with
  | [] => ([], h)
  | k :: rest =>
      let '(overlap, h) := intervals_overlap k h intervals in
      let '(kept, h) := filter_overlapping rest h intervals in
      (if overlap =? 0 then kept else k :: kept, h)
  end.

(** [event_list] after the filter: the events that survive. *)
Definition survivors (be : BasicEvaluation) : list EventKey :=
  let h := decrease_interval_of (queue_depth_list be) in
  fst (filter_overlapping (Dict.keys (metrics be)) h (seq 0 (length h))).

Definition metric_of (be : BasicEvaluation) (k : EventKey) : EventMetrics :=
  match Dict.get (metrics be) k with Some r => r | None => EventMetrics_default end.

Definition heuristic_score_list (be : BasicEvaluation) (event_list : list EventKey)
  : list F32.t :=
  let self_time := F32.tensor (map (fun k => self_time_ns (metric_of be k)) event_list) in
  let idle_time := F32.tensor (map (fun k => idle_time_ns (metric_of be k)) event_list) in
  let normalized_gain := F32.normalized idle_time in
  let normalized_self := F32.normalized self_time in
  F32.add_tensors normalized_gain normalized_self.

(** [sorted(..., key=lambda x: x[0], reverse=True)]: the list is reversed,
    sorted in ascending order with [<] on the keys, equal keys keeping their
    order, and reversed again. *)
Fixpoint insert_lt {A} (lt : A -> A -> bool) (x : A) (l : list A) : list A :=
  match l with
  | [] => [x]
  | y :: l' => if lt y x then y :: insert_lt lt x l' else x :: l
  end.

Definition sort_lt {A} (lt : A -> A -> bool) (l : list A) : list A :=
  fold_right (insert_lt lt) [] l.

Definition sorted_reverse {A} (lt : A -> A -> bool) (l : list A) : list A :=
  rev (sort_lt lt (rev l)).

(** The survivors in the order of their scores, best first. *)
Definition ranked (be : BasicEvaluation) : list EventKey :=
  let event_list := survivors be in
  map snd
    (sorted_reverse (fun a b => F32.ltb (fst a) (fst b))
       (combine (heuristic_score_list be event_list) event_list)).

(** [seq[:n]] *)
Definition slice_to {A} (l : list A) (n : Z) : list A :=
  if n <? 0
  then take (Z.to_nat (Z.max 0 (Z.of_nat (length l) + n))) l
  else take (Z.to_nat n) l.

Definition rank_events (be : BasicEvaluation) (length : Z) : list EventKey :=
  match survivors be with
  | [] => []
  | _ :: _ => slice_to (ranked be) length
  end.

(** ** [BasicEvaluation.get_optimizable_events] *)

(** The pieces of the string [output]. The block of an event (its name, its
    source code location and its percentage of idle time) is kept as the
    event it reports. *)
Inductive chunk : Type :=
| Text (s : string)
| EventBlock (k : EventKey).

(** The newline character. *)
Definition nl : string := String (ascii_of_nat 10) EmptyString.

Record optimizable : Type := mkOptimizable {
  returned : list EventKey;
  output : list chunk;
  printed : option (list chunk)
}.

Definition get_optimizable_events (be : BasicEvaluation) (length : Z)
    (print_enable : bool) : optimizable :=
  let event_list := rank_events be length in
  let output := [] in
  if (List.length event_list =? 0)%nat then
    let output := output ++ [Text ("No events to optimize" ++ nl)] in
    mkOptimizable [] output None
  else
    let output := output ++ [Text ("Optimizable events:" ++ nl)] in
    let output := output ++ map EventBlock event_list in
    mkOptimizable event_list output (if print_enable then Some output else None).

(** ** Example traces *)

Definition ev (i s e : Z) (cs : list Event) : Event :=
  mkEvent i "op" s e (e - s) cs.

Definition launch (s c : Z) : string * DeviceType * Z * Z * Z :=
  ("cudaLaunchKernel"%string, CPU, s, 1, c).

Definition kernel (s c : Z) : string * DeviceType * Z * Z * Z :=
  ("volta_sgemm"%string, CUDA, s, 2, c).

(** Five launches, then the five kernels they launched, under three host
    events. *)
Definition burst_profile : profile :=
  mkProfile
    [ev 1 0 20000 [ev 2 3000 9000 []]; ev 3 20000 21000 []]
    [launch 0 1; launch 1 2; launch 2 3; launch 3 4; launch 4 5;
     kernel 10 1; kernel 11 2; kernel 12 3; kernel 13 4; kernel 14 5].

(** The same device events under two nested host events that end before the
    last kernel does: no idle time is attributed to either. *)
Definition equal_idle_profile : profile :=
  mkProfile
    [ev 1 0 20000 [ev 2 3000 9000 []]]
    [launch 0 1; launch 1 2; launch 2 3; launch 3 4; launch 4 5;
     kernel 10 1; kernel 11 2; kernel 12 3; kernel 13 4; kernel 14 5].

(** Device events and no host event. *)
Definition device_only_profile : profile :=
  mkProfile [] [launch 0 1; kernel 10 1].

(** Two launches with one correlation identifier. *)
Definition shared_correlation_profile : profile :=
  mkProfile [] [launch 0 7; launch 1 7; kernel 5 7].

(** Host events that end before the first launch. *)
Definition warmup_profile : profile :=
  mkProfile
    [ev 1 0 100000 [ev 2 1000 2000 []]]
    [launch 5 1; kernel 10 1].

(** The evaluation of a profile whose identifiers are distinct. *)
Definition evaluation (prof : profile) : BasicEvaluation :=
  match BasicEvaluation_init prof with
  | Ok be => be
  | AssertionError _ => mkBasicEvaluation prof [] [] [] [] []
  end.

(** ** Vocabulary of the properties *)

(** The events of a forest, every descendant included. *)
Fixpoint nodes (e : Event) : list Event :=
  e :: flat_map nodes (children e).

Definition forest_nodes (l : list Event) : list Event := flat_map nodes l.

Definition sum_Z (l : list Z) : Z := fold_right Z.add 0 l.

(** The duration recorded for an event in the metrics ([0] when the event
    has no record). *)
Definition recorded_duration (metrics : Dict.t) (e : Event) : Z :=
  match Dict.get metrics (mkEventKey e) with
  | Some r => m_duration_time_ns r
  | None => 0
  end.

(** The record [compute_self_time] makes for an event. *)
Definition entry (e : Event) : EventKey * EventMetrics :=
  (mkEventKey e, mkEventMetrics (duration_time_ns e) (self_time_of e) 0 0).

Definition key_ids (d : Dict.t) : list Z := map (fun k => id (event k)) (Dict.keys d).

(** A list of intervals sorted by start in which no interval's end exceeds
    the start of the next one. *)
Fixpoint sorted_clipped (h : store) (intervals : list loc) : Prop :=
  match intervals with
  | l :: ((l' :: _) as rest) =>
      start (deref h l) <= start (deref h l') /\
      end_ (deref h l) <= start (deref h l') /\
      sorted_clipped h rest
  | _ => True
  end.

(** Every address of the list is an object of the store. *)
Definition allocated (h : store) (intervals : list loc) : Prop :=
  Forall (fun l => (l < length h)%nat) intervals.

(** What holds of an entry before the idle times are written. *)
Definition fresh_entry (kr : EventKey * EventMetrics) : Prop :=
  m_duration_time_ns (snd kr) = duration_time_ns (event (fst kr)) /\
  idle_time_ns (snd kr) = 0.

(** What holds of an entry after them. *)
Definition bounded_entry (kr : EventKey * EventMetrics) : Prop :=
  m_duration_time_ns (snd kr) = duration_time_ns (event (fst kr)) /\
  (well_timed (event (fst kr)) -> idle_time_ns (snd kr) <= m_duration_time_ns (snd kr)).

(** A zero of either sign, or NaN. *)
Definition zero_or_nan (x : F32.t) : bool :=
  match x with
  | S754_zero _ | S754_nan => true
  | _ => false
  end.

(** The tensors [rank_events] makes of the survivors. *)
Definition idle_times (be : BasicEvaluation) : list Z :=
  map (fun k => idle_time_ns (metric_of be k)) (survivors be).

Definition self_times (be : BasicEvaluation) : list Z :=
  map (fun k => self_time_ns (metric_of be k)) (survivors be).

(** The index the correlation loop computes for each launch, in the order of
    the launches. *)
Fixpoint mapping_trace (cuda_launch_events cuda_kernel_events : list KinetoEvent)
    (last_mapped_kernel : nat) : list (option nat) :=
  match cuda_launch_events with
  | [] => []
  | cuda_launch_event :: rest =>
      let index :=
        index_of_first_match cuda_kernel_events
          (fun x => linked_correlation_id x =? linked_correlation_id cuda_launch_event)
          last_mapped_kernel None in
      index :: mapping_trace rest cuda_kernel_events
                 (match index with Some i => i | None => last_mapped_kernel end)
  end.

(** The length of the part of the event's span that lies in [[s, t)]. *)
Definition span_overlap (e : Event) (s t : Z) : Z :=
  Z.max 0 (Z.min (end_time_ns e) t - Z.max (start_time_ns e) s).

(** The overlap of the event's span with a list of intervals in start order,
    each cut at the start of the next one. *)
Fixpoint clipped_overlap (e : Event) (l : list Interval) : Z :=
  match l with
  | [] => 0
  | i :: rest =>
      span_overlap e (start i)
        (match rest with
         | i' :: _ => Z.min (end_ i) (start i')
         | [] => end_ i
         end)
      + clipped_overlap e rest
  end.

(** What the later stages leave of a record of [compute_self_time]. *)
Definition settled_entry (kr : EventKey * EventMetrics) : Prop :=
  m_duration_time_ns (snd kr) = duration_time_ns (event (fst kr)) /\
  self_time_ns (snd kr) = self_time_of (event (fst kr)) /\
  0 <= idle_time_ns (snd kr).

(** [hasattr(event, "start_us")] *)
Definition is_kineto (event : AnyEvent) : bool :=
  match event with Kineto _ => true | Profiler _ => false end.

(** The span of a device event in nanoseconds, and the span of an
    interval. *)
Definition device_span (e : KinetoEvent) : Z * Z :=
  (start_us e * 1000, (start_us e + duration_us e) * 1000).

Definition interval_span (i : Interval) : Z * Z := (start i, end_ i).

(** Every element is at most the elements after it. *)
Fixpoint ordered {A} (key : A -> Z) (l : list A) : Prop :=
  match l with
  | [] => True
  | x :: l' => Forall (fun y => key x <= key y) l' /\ ordered key l'
  end.

(** What holds of an entry when nothing ran on the device. *)
Definition quiet_entry (kr : EventKey * EventMetrics) : Prop :=
  queue_depth (snd kr) = 0 /\ idle_time_ns (snd kr) = 0.

(** The sweep keeps the cursor and the spawned index within the kernel list,
    so a depth lies between minus the number [n] of kernels and [n]. *)
Definition depth_within (n : Z) (depth : Z) : Prop := - n <= depth <= n.

(** An interval made by the scan of [compute_idle_time]: from the end of a
    data point of depth zero to the start of a later data point of positive
    depth. *)
Definition idle_gap (queue_depth_list : list Interval) (i : Interval) : Prop :=
  exists l1 p l2 q l3,
    queue_depth_list = l1 ++ p :: l2 ++ q :: l3 /\
    i_queue_depth p = 0 /\ 0 < i_queue_depth q /\
    i = Interval2 (end_ p) (start q).

(** The entry of an event that a loop has gone through has, in the field
    the loop writes, what [value] gives for its event. *)
Definition written (field : EventMetrics -> Z) (value : Event -> Z)
    (done : list Event) (kr : EventKey * EventMetrics) : Prop :=
  In (id (event (fst kr))) (map id done) ->
  field (snd kr) = value (event (fst kr)).

(** A drain of the queue, as the scan of [rank_events] finds it: a data
    point [p] of the timeline followed by a data point [q] of depth at most
    1 whose depth is lower by more than 3, [p] having the largest depth
    between [q] and an earlier data point [r] of depth at most 1. The
    interval runs from the start of [p] to the start of [q]. *)
Definition drain (queue_depth_list : list Interval) (i : Interval) : Prop :=
  exists l0 r l1 p l2 q l3,
    queue_depth_list = l0 ++ r :: l1 ++ p :: l2 ++ q :: l3 /\
    i_queue_depth r <= 1 /\ i_queue_depth q <= 1 /\
    Forall (fun x => i_queue_depth x <= i_queue_depth p) (l1 ++ l2) /\
    3 < i_queue_depth p - i_queue_depth q /\
    i = Interval2 (start p) (start q).

(** The number of kernels that have started by the time [t]. *)
Definition started (cuda_kernel_events : list KinetoEvent) (t : Z) : nat :=
  length (List.filter (fun k => start_us k * 1000 <=? t) cuda_kernel_events).

(** The depths of the data points of the device events, without the
    cursor: the index of the kernel spawned last, minus the number of
    kernels that have started, plus one. *)
Fixpoint depth_trace (cuda_kernel_events : list KinetoEvent)
    (kernel_mapping : gmap nat (option nat)) (devices : list KinetoEvent)
    (spawned_kernel_index : Z) : list Z :=
  match devices with
  | [] => []
  | d :: rest =>
      let spawned_kernel_index :=
        match kernel_mapping !! oid d with
        | Some (Some i) => Z.of_nat i
        | _ => spawned_kernel_index
        end in
      (spawned_kernel_index
       - Z.of_nat (started cuda_kernel_events (start_us d * 1000)) + 1)
      :: depth_trace cuda_kernel_events kernel_mapping rest spawned_kernel_index
  end.

(** The device events and the host events of a merged timeline. *)
Definition kinetos (events : list AnyEvent) : list KinetoEvent :=
  flat_map (fun ev => match ev with Kineto d => [d] | Profiler _ => [] end) events.

Definition hosts (events : list AnyEvent) : list Event :=
  flat_map (fun ev => match ev with Kineto _ => [] | Profiler e => [e] end) events.

(** No device event comes after a host event that starts at the same time
    or later. *)
Fixpoint hosts_last (events : list AnyEvent) : Prop :=
  match events with
  | [] => True
  | ev :: rest =>
      match ev with
      | Profiler e =>
          Forall (fun ev' => is_kineto ev' = true ->
                             start_time_ns e < new_old_event_comparator ev') rest
      | Kineto _ => True
      end /\ hosts_last rest
  end.

(** The index of the kernel spawned last when the device events of the list
    have gone by. *)
Definition spawned_by (kernel_mapping : gmap nat (option nat))
    (devices : list KinetoEvent) (spawned_kernel_index : Z) : Z :=
  fold_left
    (fun spawned d =>
       match kernel_mapping !! oid d with
       | Some (Some i) => Z.of_nat i
       | _ => spawned
       end)
    devices spawned_kernel_index.

(** The queue depth at the time [t]: the index of the kernel spawned last by
    the device events that start no later than [t], minus the number of
    kernels that have started, plus one. *)
Definition depth_at (cuda_kernel_events : list KinetoEvent)
    (kernel_mapping : gmap nat (option nat)) (devices : list KinetoEvent)
    (t : Z) : Z :=
  spawned_by kernel_mapping
    (List.filter (fun d => start_us d * 1000 <=? t) devices) (-1)
  - Z.of_nat (started cuda_kernel_events t) + 1.

(** The cursor [last_mapped_kernel] when the launches of the list have gone
    by: the index of the kernel matched last, [0] when no launch was
    matched. *)
Definition last_matched (kernel_mapping : gmap nat (option nat))
    (launches : list KinetoEvent) : nat :=
  fold_left
    (fun cursor l =>
       match kernel_mapping !! oid l with
       | Some (Some k) => k
       | _ => cursor
       end)
    launches 0%nat.

(** * Properties *)

(** ** Facts about the dictionary *)

Lemma EventKey_eqb_spec a b :
  reflect (id (event a) = id (event b)) (EventKey_eqb a b).
Proof. unfold EventKey_eqb. apply Z.eqb_spec. Qed.

(** Case analysis on every key comparison of the goal. *)
Ltac key_cases :=
  repeat match goal with
         | |- context [EventKey_eqb ?a ?b] => destruct (EventKey_eqb_spec a b)
         end;
  try reflexivity; try congruence.

Lemma Dict_get_set d k v q :
  Dict.get (Dict.set d k v) q =
  if EventKey_eqb k q then Some v else Dict.get d q.
Proof.
  induction d as [|[k' v'] d IH]; simpl; [reflexivity|].
  destruct (EventKey_eqb_spec k' k) as [E|E]; simpl; [|rewrite IH]; key_cases.
Qed.

Lemma Dict_get_update d k f q :
  Dict.get (Dict.update d k f) q =
  if EventKey_eqb k q then option_map f (Dict.get d q) else Dict.get d q.
Proof.
  induction d as [|[k' v'] d IH]; simpl; [now destruct (EventKey_eqb k q)|].
  destruct (EventKey_eqb_spec k' k) as [E|E]; simpl; [|rewrite IH]; key_cases.
Qed.

Lemma Dict_keys_update d k f : Dict.keys (Dict.update d k f) = Dict.keys d.
Proof.
  unfold Dict.keys.
  induction d as [|[k' v'] d IH]; simpl; [reflexivity|].
  destruct (EventKey_eqb k' k); simpl; congruence.
Qed.

Lemma Dict_set_fresh d k v : Dict.get d k = None -> Dict.set d k v = d ++ [(k, v)].
Proof.
  induction d as [|[k' v'] d IH]; simpl; [reflexivity|].
  destruct (EventKey_eqb k' k); [discriminate|]. intros H. now rewrite IH.
Qed.

Lemma Dict_update_fresh d k v f :
  Dict.get d k = None -> Dict.update (d ++ [(k, v)]) k f = d ++ [(k, f v)].
Proof.
  induction d as [|[k' v'] d IH]; simpl.
  - intros _. unfold EventKey_eqb. now rewrite Z.eqb_refl.
  - destruct (EventKey_eqb k' k); [discriminate|]. intros H. now rewrite IH.
Qed.

Lemma Dict_get_None_ids d k :
  ~ In (id (event k)) (key_ids d) -> Dict.get d k = None.
Proof.
  unfold key_ids, Dict.keys.
  induction d as [|[k' v'] d IH]; simpl; [reflexivity|]. intros H.
  destruct (EventKey_eqb_spec k' k) as [E|E]; [tauto|]. apply IH. tauto.
Qed.

(** In a dictionary with pairwise different key identifiers an entry is
    what a lookup of its key finds. *)
Lemma Dict_get_In d k r :
  NoDup (key_ids d) -> In (k, r) d -> Dict.get d k = Some r.
Proof.
  unfold key_ids, Dict.keys.
  induction d as [|[k' v'] d IH]; simpl; [contradiction|].
  rewrite NoDup_cons, list_elem_of_In. intros [Hk Hd] [[= -> ->]|Hin].
  - unfold EventKey_eqb. now rewrite Z.eqb_refl.
  - destruct (EventKey_eqb_spec k' k) as [E|E]; [|now apply IH].
    exfalso. apply Hk. rewrite E.
    apply in_map_iff. exists k. split; [reflexivity|].
    apply in_map_iff. now exists (k, r).
Qed.

Lemma key_ids_entries order : key_ids (map entry order) = map id order.
Proof.
  unfold key_ids, Dict.keys. rewrite !map_map. reflexivity.
Qed.

(** ** Facts about [sorted] *)

Section SortedFacts.
Context {A : Type} (key : A -> Z).

Lemma insert_by_perm x l : Permutation (insert_by key x l) (x :: l).
Proof.
  induction l as [|y l IH]; simpl; [reflexivity|].
  destruct (key x <=? key y); [reflexivity|].
  rewrite IH. apply perm_swap.
Qed.

Lemma sorted_perm l : Permutation (sorted key l) l.
Proof.
  induction l as [|x l IH]; simpl; [reflexivity|].
  now rewrite insert_by_perm, IH.
Qed.

Lemma insert_by_nondecreasing x l :
  nondecreasing key l -> nondecreasing key (insert_by key x l).
Proof.
  induction l as [|y l IH]; simpl; [trivial|]. intros Hl.
  destruct (Z.leb_spec (key x) (key y)) as [Hxy|Hxy].
  - simpl. auto.
  - destruct l as [|z l]; simpl in *.
    + split; [lia|trivial].
    + destruct Hl as [Hyz Hl]. specialize (IH Hl).
      destruct (Z.leb_spec (key x) (key z)); simpl in *.
      * split; [lia|]. split; [lia|assumption].
      * split; [lia|assumption].
Qed.

Lemma sorted_nondecreasing l : nondecreasing key (sorted key l).
Proof.
  induction l as [|x l IH]; simpl; [trivial|].
  now apply insert_by_nondecreasing.
Qed.

(** Sorting a list that is in order already returns it. *)
Lemma sorted_id l : nondecreasing key l -> sorted key l = l.
Proof.
  induction l as [|x l IH]; simpl; [reflexivity|]. intros Hl.
  destruct l as [|y l]; [reflexivity|]. destruct Hl as [Hxy Hl].
  rewrite (IH Hl). simpl.
  destruct (Z.leb_spec (key x) (key y)); [reflexivity|lia].
Qed.

End SortedFacts.

Lemma sorted_ext {A} (key1 key2 : A -> Z) (l : list A) :
  (forall x, In x l -> key1 x = key2 x) -> sorted key1 l = sorted key2 l.
Proof.
  induction l as [|x l IH]; simpl; [reflexivity|]. intros H.
  rewrite IH by auto.
  assert (Hl : forall y, In y (sorted key2 l) -> key1 y = key2 y).
  { intros y Hy. apply H. right. eapply Permutation_in; [apply sorted_perm|exact Hy]. }
  assert (Hx : key1 x = key2 x) by auto.
  revert Hl. generalize (sorted key2 l). clear -Hx.
  intros s. induction s as [|y s IHs]; simpl; [reflexivity|]. intros Hl.
  rewrite Hx, (Hl y) by auto. rewrite IHs by auto. reflexivity.
Qed.

(** ** Self time *)

Lemma self_time_of_sum e :
  self_time_of e = duration_time_ns e - sum_Z (map duration_time_ns (children e)).
Proof.
  unfold self_time_of. generalize (duration_time_ns e).
  induction (children e) as [|c cs IH]; intros d; simpl; [lia|].
  rewrite IH. lia.
Qed.

Lemma forest_nodes_rev_perm l : Permutation (forest_nodes (rev l)) (forest_nodes l).
Proof.
  unfold forest_nodes. apply Permutation_flat_map. symmetry. apply Permutation_rev.
Qed.

Lemma child_in_forest_nodes e c l :
  In e (forest_nodes l) -> In c (children e) -> In c (forest_nodes l).
Proof.
  enough (H : forall n e c, (event_size e <= n)%nat ->
            forall x, In x (nodes e) -> In c (children x) -> In c (nodes e)).
  { unfold forest_nodes. rewrite !in_flat_map. intros [r [Hr He]] Hc.
    exists r. split; [assumption|]. now apply (H (event_size r) r c (le_n _) e). }
  clear. intros n. induction n as [|n IH]; intros e c Hn x Hx Hc.
  - destruct e; simpl in Hn; lia.
  - destruct e as [i nm s t d cs]. simpl in *.
    destruct Hx as [<-|Hx].
    + simpl in Hc. right. apply in_flat_map. exists c. split; [assumption|].
      destruct c; simpl; auto.
    + right. apply in_flat_map in Hx as [r [Hr Hx]].
      apply in_flat_map. exists r. split; [assumption|].
      apply (IH r c) with (x := x); [|exact Hx|exact Hc].
      assert (event_size r <= list_sum (map event_size cs))%nat; [|lia].
      clear -Hr. induction cs as [|a cs IHcs]; [contradiction|].
      simpl. destruct Hr as [->|Hr]; [lia|]. specialize (IHcs Hr). lia.
Qed.

(** The loop succeeds on a stack whose events have pairwise different
    identifiers, none of them recorded yet: it appends the record of every
    event of the stack to the dictionary, in the order of the traversal. *)
Lemma self_time_loop_shape (n : nat) :
  forall stack metrics,
    (forest_size stack <= n)%nat ->
    NoDup (map id (forest_nodes stack)) ->
    (forall e, In e (forest_nodes stack) -> ~ In (id e) (key_ids metrics)) ->
    exists order,
      Permutation order (forest_nodes stack) /\
      self_time_loop stack metrics = Ok (metrics ++ map entry order).
Proof.
  induction n as [|n IH]; intros stack metrics Hn Hnd Hfresh.
  - destruct stack as [|[i nm s t d cs] stack];
      [|unfold forest_size in Hn; simpl in Hn; lia].
    exists []. simp self_time_loop. rewrite app_nil_r. split; reflexivity.
  - destruct stack as [|curr stack].
    { exists []. simp self_time_loop. rewrite app_nil_r. split; reflexivity. }
    simp self_time_loop. cbv zeta.
    assert (Hcurr : Dict.get metrics (mkEventKey curr) = None).
    { apply Dict_get_None_ids, Hfresh. simpl. rewrite in_app_iff. left.
      destruct curr; simpl; auto. }
    unfold Dict.contains. rewrite Hcurr.
    rewrite (Dict_set_fresh _ _ _ Hcurr), (Dict_update_fresh _ _ _ _ Hcurr).
    change (_ ++ [_]) with (metrics ++ [entry curr]).
    assert (Hperm : Permutation (forest_nodes (curr :: stack))
                      (curr :: forest_nodes (rev (children curr) ++ stack))).
    { unfold forest_nodes at 1. simpl flat_map.
      destruct curr as [i nm s t d cs]; simpl.
      constructor. unfold forest_nodes. rewrite flat_map_app.
      apply Permutation_app_tail. symmetry. apply forest_nodes_rev_perm. }
    assert (Hnd' : NoDup (map id (curr :: forest_nodes (rev (children curr) ++ stack)))).
    { rewrite <- (Permutation_map id Hperm). exact Hnd. }
    simpl in Hnd'. apply NoDup_cons in Hnd' as [Hnotin Hnd'].
    rewrite list_elem_of_In in Hnotin.
    destruct (IH (rev (children curr) ++ stack) (metrics ++ [entry curr]))
      as (order & Horder & Hrun).
    + rewrite forest_size_app, forest_size_rev.
      unfold forest_size in *. destruct curr; simpl in *. lia.
    + exact Hnd'.
    + intros e He. unfold key_ids, Dict.keys. rewrite !map_app, in_app_iff.
      intros [Hin|[Hin|[]]].
      * apply (Hfresh e); [|exact Hin].
        eapply Permutation_in; [symmetry; exact Hperm|]. now right.
      * simpl in Hin. apply Hnotin. rewrite Hin. now apply in_map.
    + exists (curr :: order). split.
      * rewrite Hperm. now constructor.
      * rewrite Hrun. simpl. now rewrite <- app_assoc.
Qed.

(** [compute_self_time] on a forest with pairwise different identifiers:
    the records of its events, in the order of the traversal. *)
Lemma compute_self_time_shape event_tree :
  NoDup (map id (forest_nodes event_tree)) ->
  exists order,
    Permutation order (forest_nodes event_tree) /\
    compute_self_time event_tree = Ok (map entry order).
Proof.
  intros Hnd. unfold compute_self_time.
  destruct (self_time_loop_shape (forest_size (rev event_tree)) (rev event_tree) [])
    as (order & Horder & Hrun).
  - lia.
  - now rewrite (Permutation_map id (forest_nodes_rev_perm event_tree)).
  - intros e _ [].
  - exists order. split; [|exact Hrun].
    rewrite Horder. apply forest_nodes_rev_perm.
Qed.

(** C1. When the identifiers of the host events are pairwise different (the
    duplicate-id assertion does not fire), [compute_self_time] returns a
    metrics dictionary in which every event of the forest, descendants
    included, has a record with [self_time_ns] the event's duration minus
    the sum of the durations of its direct children and [duration_time_ns]
    the event's duration; so the self time plus the durations recorded for
    the direct children is the recorded duration. *)
Theorem compute_self_time_conservation (event_tree : list Event) :
  NoDup (map id (forest_nodes event_tree)) ->
  exists metrics,
    compute_self_time event_tree = Ok metrics /\
    forall e, In e (forest_nodes event_tree) ->
      exists r,
        Dict.get metrics (mkEventKey e) = Some r /\
        self_time_ns r =
          duration_time_ns e - sum_Z (map duration_time_ns (children e)) /\
        m_duration_time_ns r = duration_time_ns e /\
        self_time_ns r + sum_Z (map (recorded_duration metrics) (children e))
          = m_duration_time_ns r.
Proof.
  intros Hnd.
  destruct (compute_self_time_shape event_tree Hnd) as (order & Horder & Hrun).
  exists (map entry order). split; [exact Hrun|]. intros e He.
  assert (Hin : forall x, In x (forest_nodes event_tree) ->
            Dict.get (map entry order) (mkEventKey x) = Some (snd (entry x))).
  { intros x Hx. apply Dict_get_In.
    - rewrite key_ids_entries, (Permutation_map id Horder). exact Hnd.
    - apply (in_map entry). eapply Permutation_in; [symmetry; exact Horder|exact Hx]. }
  eexists. split; [now apply Hin|]. simpl.
  rewrite self_time_of_sum. repeat split.
  assert (Hch : map (recorded_duration (map entry order)) (children e)
                = map duration_time_ns (children e)).
  { apply map_ext_in. intros c Hc. unfold recorded_duration.
    rewrite (Hin c); [reflexivity|]. eapply child_in_forest_nodes; eassumption. }
  rewrite Hch. lia.
Qed.

Lemma compute_self_time_conservation_witness :
  exists metrics,
    compute_self_time [ev 1 0 100 [ev 2 0 30 []; ev 3 40 90 [ev 4 50 60 []]]] = Ok metrics /\
    forall e, In e (forest_nodes [ev 1 0 100 [ev 2 0 30 []; ev 3 40 90 [ev 4 50 60 []]]]) ->
      exists r,
        Dict.get metrics (mkEventKey e) = Some r /\
        self_time_ns r =
          duration_time_ns e - sum_Z (map duration_time_ns (children e)) /\
        m_duration_time_ns r = duration_time_ns e /\
        self_time_ns r + sum_Z (map (recorded_duration metrics) (children e))
          = m_duration_time_ns r.
Proof.
  apply compute_self_time_conservation.
  vm_compute. repeat constructor; rewrite list_elem_of_In; simpl; intuition discriminate.
Defined.

(** ** The clipping pass *)

Lemma deref_insert (h : store) (l l' : loc) (x : Interval) :
  deref (<[l := x]> h) l' =
  if decide (l = l' /\ (l < length h)%nat) then x else deref h l'.
Proof. unfold deref. apply list_lookup_total_insert. Qed.

Lemma clip_length h l rest : length (clip h l rest) = length h.
Proof.
  unfold clip. destruct rest as [|next rest]; [reflexivity|].
  destruct (_ >? _); [apply length_insert|reflexivity].
Qed.

(** Clipping writes to [end] only, and only downwards. *)
Lemma clip_fields h l rest l' :
  start (deref (clip h l rest) l') = start (deref h l') /\
  i_queue_depth (deref (clip h l rest) l') = i_queue_depth (deref h l') /\
  end_ (deref (clip h l rest) l') <= end_ (deref h l').
Proof.
  unfold clip. destruct rest as [|next rest]; [lia|].
  destruct (Z.gtb_spec (end_ (deref h l)) (start (deref h next))) as [Hgt|Hle]; [|lia].
  rewrite deref_insert. case_decide as Hd; [|lia].
  destruct Hd as [<- _]. simpl. lia.
Qed.

Lemma clip_other h l rest l' : l' <> l -> clip h l rest !! l' = h !! l'.
Proof.
  intros Hne. unfold clip. destruct rest as [|next rest]; [reflexivity|].
  destruct (_ >? _); [|reflexivity]. apply list_lookup_insert_ne. congruence.
Qed.

Lemma clip_clipped h l next rest :
  (l < length h)%nat ->
  end_ (deref (clip h l (next :: rest)) l) <= start (deref h next).
Proof.
  intros Hl. unfold clip.
  destruct (Z.gtb_spec (end_ (deref h l)) (start (deref h next))) as [Hgt|Hle]; [|lia].
  rewrite deref_insert. case_decide as Hd; [simpl; lia|].
  exfalso. apply Hd. split; [reflexivity|assumption].
Qed.

Lemma clip_noop h l rest : sorted_clipped h (l :: rest) -> clip h l rest = h.
Proof.
  unfold clip. destruct rest as [|next rest]; [reflexivity|].
  intros (_ & Hle & _).
  destruct (Z.gtb_spec (end_ (deref h l)) (start (deref h next))); [lia|reflexivity].
Qed.

Lemma overlap_loop_length e intervals :
  forall h acc, length (snd (overlap_loop e h intervals acc)) = length h.
Proof.
  induction intervals as [|l rest IH]; intros h acc; simpl; [reflexivity|].
  now rewrite IH, clip_length.
Qed.

Lemma overlap_loop_fields e intervals :
  forall h acc l',
    start (deref (snd (overlap_loop e h intervals acc)) l') = start (deref h l') /\
    i_queue_depth (deref (snd (overlap_loop e h intervals acc)) l')
      = i_queue_depth (deref h l') /\
    end_ (deref (snd (overlap_loop e h intervals acc)) l') <= end_ (deref h l').
Proof.
  induction intervals as [|l rest IH]; intros h acc l'; simpl; [lia|].
  specialize (IH (clip h l rest) (add_overlap e (deref (clip h l rest) l) acc) l').
  pose proof (clip_fields h l rest l'). lia.
Qed.

Lemma overlap_loop_other e intervals :
  forall h acc l',
    ~ In l' intervals -> snd (overlap_loop e h intervals acc) !! l' = h !! l'.
Proof.
  induction intervals as [|l rest IH]; intros h acc l' Hnot; simpl; [reflexivity|].
  rewrite IH by (intros H; apply Hnot; now right).
  apply clip_other. intros ->. apply Hnot. now left.
Qed.

(** On a list that is sorted and clipped the pass writes nothing. *)
Lemma overlap_loop_noop e intervals :
  forall h acc, sorted_clipped h intervals ->
    snd (overlap_loop e h intervals acc) = h.
Proof.
  induction intervals as [|l rest IH]; intros h acc Hsc; simpl; [reflexivity|].
  rewrite (clip_noop _ _ _ Hsc). apply IH.
  destruct rest as [|l' rest]; [exact I|]. apply Hsc.
Qed.

Lemma sorted_clipped_nondecreasing h intervals :
  sorted_clipped h intervals ->
  nondecreasing (fun l => start (deref h l)) intervals.
Proof.
  induction intervals as [|l rest IH]; [trivial|].
  destruct rest as [|l' rest]; [trivial|].
  intros (H1 & _ & H3). split; [exact H1|]. now apply IH.
Qed.

Lemma nondecreasing_starts (h h' : store) intervals :
  (forall l, start (deref h' l) = start (deref h l)) ->
  nondecreasing (fun l => start (deref h l)) intervals ->
  nondecreasing (fun l => start (deref h' l)) intervals.
Proof.
  intros Hst. induction intervals as [|l rest IH]; [trivial|].
  destruct rest as [|l' rest]; [trivial|].
  intros [H1 H2]. split; [rewrite !Hst; exact H1|]. now apply IH.
Qed.

(** The pass leaves the list it walked clipped. *)
Lemma overlap_loop_clips e intervals :
  forall h acc,
    allocated h intervals ->
    nondecreasing (fun l => start (deref h l)) intervals ->
    sorted_clipped (snd (overlap_loop e h intervals acc)) intervals.
Proof.
  induction intervals as [|l rest IH]; intros h acc Hal Hnd; [exact I|].
  destruct rest as [|l' rest]; [exact I|].
  change (sorted_clipped ?h (l :: l' :: rest))
    with (start (deref h l) <= start (deref h l') /\
          end_ (deref h l) <= start (deref h l') /\
          sorted_clipped h (l' :: rest)).
  set (h1 := clip h l (l' :: rest)).
  set (acc1 := add_overlap e (deref h1 l) acc).
  change (overlap_loop e h (l :: l' :: rest) acc)
    with (overlap_loop e h1 (l' :: rest) acc1).
  inversion Hal as [|? ? Hl Hal']; subst.
  destruct Hnd as [Hll' Hnd].
  assert (Hst1 : forall x, start (deref h1 x) = start (deref h x)).
  { intros x. apply clip_fields. }
  pose proof (overlap_loop_fields e (l' :: rest) h1 acc1) as Hf.
  split; [|split].
  - rewrite (proj1 (Hf l)), (proj1 (Hf l')), !Hst1. exact Hll'.
  - rewrite (proj1 (Hf l')), Hst1.
    pose proof (proj2 (proj2 (Hf l))). pose proof (clip_clipped h l l' rest Hl).
    fold h1 in H0. lia.
  - apply IH.
    + unfold allocated, h1. rewrite clip_length. exact Hal'.
    + now apply nondecreasing_starts with (h := h).
Qed.

Lemma intervals_overlap_fields self h intervals l :
  start (deref (snd (intervals_overlap self h intervals)) l) = start (deref h l) /\
  i_queue_depth (deref (snd (intervals_overlap self h intervals)) l)
    = i_queue_depth (deref h l) /\
  end_ (deref (snd (intervals_overlap self h intervals)) l) <= end_ (deref h l).
Proof. unfold intervals_overlap. apply overlap_loop_fields. Qed.

Lemma intervals_overlap_length self h intervals :
  length (snd (intervals_overlap self h intervals)) = length h.
Proof. unfold intervals_overlap. apply overlap_loop_length. Qed.

(** After one call the sorted list is clipped, whatever it was before. *)
Lemma intervals_overlap_clips self h intervals :
  allocated h intervals ->
  sorted_clipped (snd (intervals_overlap self h intervals))
    (sorted (fun l => start (deref h l)) intervals).
Proof.
  intros Hal. unfold intervals_overlap. apply overlap_loop_clips.
  - unfold allocated in *. rewrite Forall_forall in *. intros l Hl.
    apply Hal. now rewrite <- (sorted_perm (fun l => start (deref h l)) intervals).
  - apply sorted_nondecreasing.
Qed.

(** C9. On an interval list that is sorted by start and clipped, the
    clipping pass of [intervals_overlap] changes no interval: the store after
    the call is the store before it, a second run of the pass gives what the
    first gave, and the overlap computed for any event is what it is on the
    list the pass started from. *)
Theorem clipping_pass_idempotent (self self' : EventKey) (h : store)
    (intervals : list loc) :
  sorted_clipped h intervals ->
  snd (intervals_overlap self h intervals) = h /\
  intervals_overlap self (snd (intervals_overlap self h intervals)) intervals
    = intervals_overlap self h intervals /\
  fst (intervals_overlap self' (snd (intervals_overlap self h intervals)) intervals)
    = fst (intervals_overlap self' h intervals).
Proof.
  intros Hsc.
  assert (Hh : snd (intervals_overlap self h intervals) = h).
  { unfold intervals_overlap.
    rewrite (sorted_id _ _ (sorted_clipped_nondecreasing _ _ Hsc)).
    now apply overlap_loop_noop. }
  rewrite Hh. auto.
Qed.

Lemma clipping_pass_idempotent_witness :
  let self := mkEventKey (mkEvent 1 "op" 0 200 200 []) in
  let h := [Interval2 0 50; Interval2 50 150; Interval2 170 180] in
  let intervals := [0; 1; 2]%nat in
  snd (intervals_overlap self h intervals) = h /\
  intervals_overlap self (snd (intervals_overlap self h intervals)) intervals
    = intervals_overlap self h intervals /\
  fst (intervals_overlap self (snd (intervals_overlap self h intervals)) intervals)
    = fst (intervals_overlap self h intervals).
Proof.
  apply clipping_pass_idempotent. simpl. unfold deref. simpl. lia.
Defined.

Lemma deref_clip_other h l rest l' : l' <> l -> deref (clip h l rest) l' = deref h l'.
Proof.
  intros Hne. unfold clip. destruct rest as [|next rest]; [reflexivity|].
  destruct (_ >? _); [|reflexivity].
  rewrite deref_insert. case_decide as Hd; [|reflexivity].
  destruct Hd as [Hd _]. congruence.
Qed.

Lemma deref_clip_self h l rest :
  (l < length h)%nat ->
  start (deref (clip h l rest) l) = start (deref h l) /\
  end_ (deref (clip h l rest) l)
  = match rest with
    | next :: _ => Z.min (end_ (deref h l)) (start (deref h next))
    | [] => end_ (deref h l)
    end.
Proof.
  intros Hl. split; [apply clip_fields|].
  unfold clip. destruct rest as [|next rest]; [reflexivity|].
  destruct (Z.gtb_spec (end_ (deref h l)) (start (deref h next))) as [Hgt|Hle]; [|lia].
  rewrite deref_insert. case_decide as Hd; [simpl; lia|].
  exfalso. apply Hd. split; [reflexivity|assumption].
Qed.

(** The ends the pass leaves on a list of different objects: every interval
    is cut at the start of the one that follows it in the list. *)
Lemma overlap_loop_ends e intervals :
  forall h acc,
    NoDup intervals ->
    allocated h intervals ->
    forall i l, intervals !! i = Some l ->
      end_ (deref (snd (overlap_loop e h intervals acc)) l)
      = match intervals !! S i with
        | Some next => Z.min (end_ (deref h l)) (start (deref h next))
        | None => end_ (deref h l)
        end.
Proof.
  induction intervals as [|l0 rest IH]; intros h acc Hnd Hal i l Hl;
    [now rewrite lookup_nil in Hl|].
  apply NoDup_cons in Hnd as [Hl0 Hnd]. rewrite list_elem_of_In in Hl0.
  inversion Hal as [|? ? Hlt Hal']; subst.
  change (overlap_loop e h (l0 :: rest) acc)
    with (overlap_loop e (clip h l0 rest) rest
            (add_overlap e (deref (clip h l0 rest) l0) acc)).
  set (h1 := clip h l0 rest).
  set (acc1 := add_overlap e (deref h1 l0) acc).
  assert (Hal1 : allocated h1 rest).
  { unfold allocated, h1. now rewrite clip_length. }
  destruct i as [|i].
  - injection Hl as <-. cbn [lookup list_lookup].
    assert (Hsame : deref (snd (overlap_loop e h1 rest acc1)) l0 = deref h1 l0).
    { pose proof (overlap_loop_other e rest h1 acc1 l0 Hl0) as Hsame.
      assert (H1 : (l0 < length h1)%nat) by (unfold h1; now rewrite clip_length).
      assert (H' : (l0 < length (snd (overlap_loop e h1 rest acc1)))%nat)
        by now rewrite overlap_loop_length.
      pose proof (eq_trans (eq_sym (list_lookup_lookup_total_lt _ l0 H'))
                    (eq_trans Hsame (list_lookup_lookup_total_lt h1 l0 H1))) as Heq.
      now injection Heq. }
    rewrite Hsame. destruct (deref_clip_self h l0 rest Hlt) as [_ He].
    fold h1 in He. rewrite He. now destruct rest.
  - cbn [lookup list_lookup] in Hl |- *.
    change (rest !! i = Some l) in Hl.
    rewrite (IH h1 acc1 Hnd Hal1 i l Hl).
    assert (Hne : l <> l0).
    { intros ->. apply Hl0. rewrite <- list_elem_of_In.
      eapply list_elem_of_lookup_2. exact Hl. }
    assert (Hd : deref h1 l = deref h l) by (apply deref_clip_other; exact Hne).
    rewrite Hd.
    change ((l0 :: rest) !! S (S i)) with (rest !! S i).
    destruct (rest !! S i) as [next|]; [|reflexivity].
    pose proof (clip_fields h l0 rest next) as (Hs & _). fold h1 in Hs. now rewrite Hs.
Qed.

(** C4, as the code has it. [intervals_overlap] sorts a new list of the same
    [Interval] objects and clips them in place: after a call every interval
    keeps its start and its queue depth, no end has grown, the intervals that
    are not in the argument are untouched, and a further call on the same
    list, for any event, writes nothing more. When the intervals of the
    list are different objects, the end of an interval that exceeded the
    start of its successor in start order is that start after the call, and
    every other end, the one of the last interval included, is what it
    was. *)
Theorem intervals_overlap_clips_in_place (self : EventKey) (h : store)
    (intervals : list loc) :
  allocated h intervals ->
  let h' := snd (intervals_overlap self h intervals) in
  let order := sorted (fun l => start (deref h l)) intervals in
  length h' = length h /\
  (forall l, start (deref h' l) = start (deref h l) /\
             i_queue_depth (deref h' l) = i_queue_depth (deref h l) /\
             end_ (deref h' l) <= end_ (deref h l)) /\
  (forall l, ~ In l intervals -> h' !! l = h !! l) /\
  (forall self', snd (intervals_overlap self' h' intervals) = h') /\
  (NoDup intervals ->
   forall i l, order !! i = Some l ->
     end_ (deref h' l)
     = match order !! S i with
       | Some next =>
           if end_ (deref h l) >? start (deref h next)
           then start (deref h next) else end_ (deref h l)
       | None => end_ (deref h l)
       end).
Proof.
  intros Hal h' order. split; [apply intervals_overlap_length|].
  split; [intros l; apply intervals_overlap_fields|]. split; [|split].
  - intros l Hl. unfold h', intervals_overlap. apply overlap_loop_other.
    intros Hin. apply Hl. eapply Permutation_in; [apply sorted_perm|exact Hin].
  - intros self'.
    pose proof (intervals_overlap_clips self h intervals Hal) as Hsc. fold h' in Hsc.
    assert (Hkeys : sorted (fun l => start (deref h' l)) intervals
                    = sorted (fun l => start (deref h l)) intervals).
    { apply sorted_ext. intros l _. apply intervals_overlap_fields. }
    unfold intervals_overlap at 1. rewrite Hkeys. now apply overlap_loop_noop.
  - intros Hnd i l Hl.
    assert (Hnd' : NoDup order).
    { unfold order. rewrite (sorted_perm (fun l => start (deref h l)) intervals) at 1.
      exact Hnd. }
    assert (Hal' : allocated h order).
    { unfold allocated in *. rewrite Forall_forall in *. intros x Hx. apply Hal.
      unfold order in Hx.
      now rewrite (sorted_perm (fun l => start (deref h l)) intervals) in Hx. }
    unfold h', intervals_overlap. fold order.
    rewrite (overlap_loop_ends (event self) order h 0 Hnd' Hal' i l Hl).
    destruct (order !! S i) as [next|]; [|reflexivity].
    destruct (Z.gtb_spec (end_ (deref h l)) (start (deref h next))); lia.
Qed.

Lemma intervals_overlap_clips_in_place_witness :
  let self := mkEventKey (mkEvent 1 "op" 0 200 200 []) in
  let h := [Interval2 50 150; Interval2 0 100; Interval2 160 170] in
  let intervals := [0; 1; 2]%nat in
  let h' := snd (intervals_overlap self h intervals) in
  length h' = length h /\
  (forall l, start (deref h' l) = start (deref h l) /\
             i_queue_depth (deref h' l) = i_queue_depth (deref h l) /\
             end_ (deref h' l) <= end_ (deref h l)) /\
  (forall l, ~ In l intervals -> h' !! l = h !! l) /\
  (forall self', snd (intervals_overlap self' h' intervals) = h') /\
  end_ (deref h' 1%nat) = 50 /\
  end_ (deref h' 0%nat) = 150 /\
  end_ (deref h' 2%nat) = 170.
Proof.
  cbv zeta.
  destruct (intervals_overlap_clips_in_place
              (mkEventKey (mkEvent 1 "op" 0 200 200 []))
              [Interval2 50 150; Interval2 0 100; Interval2 160 170]
              [0; 1; 2]%nat ltac:(repeat constructor))
    as (H1 & H2 & H3 & H4 & H5).
  assert (Hnd : NoDup [0; 1; 2]%nat)
    by (repeat constructor; rewrite list_elem_of_In; simpl; intuition discriminate).
  split; [exact H1|]. split; [exact H2|]. split; [exact H3|]. split; [exact H4|].
  split; [exact (H5 Hnd 0%nat 1%nat eq_refl)|].
  split; [exact (H5 Hnd 1%nat 0%nat eq_refl)|exact (H5 Hnd 2%nat 2%nat eq_refl)].
Defined.

(** The two overlapping intervals [0, 100) and [50, 150): the call lowers
    the end of the first one, an object of the caller's list, to 50. *)
Lemma intervals_overlap_mutates_argument :
  let self := mkEventKey (mkEvent 1 "op" 0 200 200 []) in
  let h := [Interval2 0 100; Interval2 50 150] in
  let intervals := [0; 1]%nat in
  allocated h intervals /\
  In 0%nat intervals /\
  end_ (deref h 0%nat) = 100 /\
  end_ (deref (snd (intervals_overlap self h intervals)) 0%nat) = 50 /\
  snd (intervals_overlap self h intervals) = [Interval2 0 50; Interval2 50 150].
Proof.
  cbv zeta. split; [repeat constructor|]. split; [now left|].
  repeat split.
Qed.

(** ** The boundary idle intervals *)

Lemma idle_scan_app queue_depth_list :
  forall idle idle_start acc,
    idle_scan queue_depth_list idle idle_start acc
    = acc ++ idle_scan queue_depth_list idle idle_start [].
Proof.
  induction queue_depth_list as [|dp rest IH]; intros idle idle_start acc; simpl.
  - now rewrite app_nil_r.
  - destruct ((i_queue_depth dp =? 0) && negb idle);
      destruct (i_queue_depth dp >? 0); simpl;
      try destruct idle; simpl; rewrite IH; try reflexivity;
      rewrite (IH _ _ [_]); now rewrite <- app_assoc.
Qed.


(** ** The drain-pattern scan *)

(** C2 on the trace of five launches followed by their five kernels. The
    reversed depths are 0 1 2 3 4 5 4 3 2 1. The window from index 0 is
    matched with its end at index 9 and the code assigns 9 to [i]; the next
    turn of the [for] loop still runs with index 1, inside that window, and
    appends a second decrease interval. A scan that skips the consumed
    window finds the first interval only. *)
Theorem scan_does_not_skip_consumed_window :
  let timeline := queue_depth_list (evaluation burst_profile) in
  let reversed := rev timeline in
  let qd_values := qd_values_of reversed in
  qd_values = [0; 1; 2; 3; 4; 5; 4; 3; 2; 1] /\
  scan_turn reversed qd_values [] 0 = ([Interval2 4000 14000], 9%nat) /\
  scan_turn reversed qd_values [Interval2 4000 14000] 1
    = ([Interval2 4000 14000; Interval2 4000 13000], 9%nat) /\
  decrease_interval_of timeline = [Interval2 4000 14000; Interval2 4000 13000] /\
  decrease_interval_skipping timeline = [Interval2 4000 14000].
Proof. vm_compute. repeat split. Qed.

(** In that run [rank_events] hands the two decrease intervals to
    [intervals_overlap]: the first call lowers the end of the first one to
    the start of the second. *)
Lemma rank_events_clips_decrease_intervals :
  let be := evaluation burst_profile in
  let h := decrease_interval_of (queue_depth_list be) in
  h = [Interval2 4000 14000; Interval2 4000 13000] /\
  snd (intervals_overlap (mkEventKey (ev 3 20000 21000 [])) h (seq 0 (length h)))
    = [Interval2 4000 4000; Interval2 4000 13000].
Proof. vm_compute. split; reflexivity. Qed.

(** ** Truncation of the ranking *)

Lemma insert_lt_length {A} (lt : A -> A -> bool) x l :
  length (insert_lt lt x l) = S (length l).
Proof.
  induction l as [|y l IH]; simpl; [reflexivity|].
  destruct (lt y x); simpl; congruence.
Qed.

Lemma sorted_reverse_length {A} (lt : A -> A -> bool) l :
  length (sorted_reverse lt l) = length l.
Proof.
  unfold sorted_reverse. rewrite length_rev, <- (length_rev l).
  induction (rev l) as [|x r IH]; simpl; [reflexivity|].
  now rewrite insert_lt_length, IH.
Qed.

Lemma heuristic_score_list_length be event_list :
  length (heuristic_score_list be event_list) = length event_list.
Proof.
  unfold heuristic_score_list, F32.add_tensors, F32.normalized, F32.tensor.
  rewrite length_map, length_combine, !length_map. lia.
Qed.

Lemma ranked_length be : length (ranked be) = length (survivors be).
Proof.
  unfold ranked. rewrite length_map, sorted_reverse_length, length_combine.
  rewrite heuristic_score_list_length. lia.
Qed.

Lemma rank_events_0 be : rank_events be 0 = [].
Proof. unfold rank_events. now destruct (survivors be). Qed.

(** C7. With [length = 0], [get_optimizable_events] returns the empty list
    without an error, whatever the survivor set is, and prints nothing: the
    text that says that there is no event to optimize is appended to the
    local [output], and the function returns before the only [print]. For
    no [length] is that text in what is printed. So the indicator is
    printed or returned only when the survivor set is empty, and a non-empty
    survivor set that the truncation empties gives the empty list silently,
    without the indicator. *)
Theorem get_optimizable_events_length_0 (be : BasicEvaluation)
    (print_enable : bool) :
  let report := get_optimizable_events be 0 print_enable in
  returned report = [] /\
  printed report = None /\
  (forall text, printed report = Some text ->
     In (Text ("No events to optimize" ++ nl)) text -> survivors be = []) /\
  (survivors be <> [] -> returned report = [] /\ printed report = None) /\
  (forall length print_enable' text,
     printed (get_optimizable_events be length print_enable') = Some text ->
     ~ In (Text ("No events to optimize" ++ nl)) text).
Proof.
  intros report.
  assert (H : returned report = [] /\ printed report = None).
  { unfold report, get_optimizable_events. rewrite rank_events_0. simpl. auto. }
  destruct H as [Hr Hp]. split; [exact Hr|]. split; [exact Hp|]. split; [|split].
  - intros text Ht. rewrite Hp in Ht. discriminate.
  - intros _. auto.
  - intros n pe text. unfold get_optimizable_events.
    destruct (rank_events be n) as [|k ks]; simpl; [discriminate|].
    destruct pe; [|discriminate]. intros [= <-] [H|H]; [discriminate|].
    change (EventBlock k :: map EventBlock ks) with (map EventBlock (k :: ks)) in H.
    apply in_map_iff in H as (x & Hx & _). discriminate.
Qed.

(** Two host events survive the filter; with [length = 0] nothing is
    returned and nothing is printed. *)
Lemma silent_with_survivors :
  map (fun k => id (event k)) (survivors (evaluation burst_profile)) = [1; 2] /\
  returned (get_optimizable_events (evaluation burst_profile) 0 true) = [] /\
  printed (get_optimizable_events (evaluation burst_profile) 0 true) = None.
Proof. vm_compute. repeat split. Qed.

(** C10. For a negative [length] whose absolute value is less than the
    number of survivors, [rank_events] returns the ranked survivors without
    their last [|length|] entries, which is not the empty list, and
    [get_optimizable_events] returns and reports these events as
    optimizable. *)
Theorem rank_events_negative_length (be : BasicEvaluation) (n : Z)
    (print_enable : bool) :
  n < 0 ->
  Z.abs n < Z.of_nat (length (survivors be)) ->
  rank_events be n
    = take (length (survivors be) - Z.to_nat (Z.abs n)) (ranked be) /\
  length (rank_events be n) = (length (survivors be) - Z.to_nat (Z.abs n))%nat /\
  rank_events be n <> [] /\
  returned (get_optimizable_events be n print_enable) = rank_events be n /\
  output (get_optimizable_events be n print_enable)
    = Text ("Optimizable events:" ++ nl) :: map EventBlock (rank_events be n).
Proof.
  intros Hneg Hlt.
  assert (Hr : rank_events be n
               = take (length (survivors be) - Z.to_nat (Z.abs n)) (ranked be)).
  { unfold rank_events. pose proof (ranked_length be) as Hlen.
    destruct (survivors be) as [|k ks] eqn:Hs; [simpl in Hlt; lia|].
    unfold slice_to. destruct (Z.ltb_spec n 0) as [_|Hge]; [|lia].
    f_equal. rewrite Hlen. lia. }
  assert (Hlen : length (rank_events be n)
                 = (length (survivors be) - Z.to_nat (Z.abs n))%nat).
  { rewrite Hr, length_take, ranked_length. lia. }
  assert (Hne : rank_events be n <> []).
  { intros E. rewrite E in Hlen. simpl in Hlen. lia. }
  repeat split; try assumption.
  - unfold get_optimizable_events.
    destruct (rank_events be n); [contradiction|reflexivity].
  - unfold get_optimizable_events.
    destruct (rank_events be n); [contradiction|reflexivity].
Qed.

Lemma rank_events_negative_length_witness :
  rank_events (evaluation burst_profile) (-1)
    = take (length (survivors (evaluation burst_profile)) - Z.to_nat (Z.abs (-1)))
        (ranked (evaluation burst_profile)) /\
  length (rank_events (evaluation burst_profile) (-1))
    = (length (survivors (evaluation burst_profile)) - Z.to_nat (Z.abs (-1)))%nat /\
  rank_events (evaluation burst_profile) (-1) <> [] /\
  returned (get_optimizable_events (evaluation burst_profile) (-1) true)
    = rank_events (evaluation burst_profile) (-1) /\
  output (get_optimizable_events (evaluation burst_profile) (-1) true)
    = Text ("Optimizable events:" ++ nl)
      :: map EventBlock (rank_events (evaluation burst_profile) (-1)).
Proof.
  apply rank_events_negative_length; [lia|].
  vm_compute. reflexivity.
Defined.

(** ** The correlation mapping *)

Lemma first_match_from_Some {A} (predicate : A -> bool) (l : list A) :
  forall i k,
    first_match_from predicate l i = Some k ->
    (i <= k)%nat /\ exists x, l !! (k - i)%nat = Some x /\ predicate x = true.
Proof.
  induction l as [|y l IH]; intros i k; simpl; [discriminate|].
  destruct (predicate y) eqn:Hy.
  - intros [= <-]. split; [lia|]. exists y. now rewrite Nat.sub_diag.
  - intros H. apply IH in H as (Hle & x & Hx & Hp). split; [lia|].
    exists x. split; [|exact Hp].
    replace (k - i)%nat with (S (k - S i)) by lia. exact Hx.
Qed.

Lemma index_of_first_match_Some {A} (seq : list A) (predicate : A -> bool)
    (start k : nat) :
  index_of_first_match seq predicate start None = Some k ->
  (start <= k)%nat /\ exists x, seq !! k = Some x /\ predicate x = true.
Proof.
  unfold index_of_first_match. rewrite firstn_all. intros H.
  apply first_match_from_Some in H as (Hle & x & Hx & Hp).
  split; [exact Hle|]. exists x. split; [|exact Hp].
  rewrite lookup_drop in Hx. now replace (start + (k - start))%nat with k in Hx by lia.
Qed.

(** Every kernel index in the mapping was put there for a launch with the
    correlation identifier of that kernel. *)
Lemma map_kernels_sound (launches kernels : list KinetoEvent) :
  forall (km : gmap nat (option nat)) (last_mapped : nat) (o k : nat),
    map_kernels launches kernels km last_mapped !! o = Some (Some k) ->
    km !! o = Some (Some k) \/
    exists l, In l launches /\ oid l = o /\
      exists x, kernels !! k = Some x /\
        linked_correlation_id x = linked_correlation_id l.
Proof.
  induction launches as [|l rest IH]; intros km last_mapped o k; simpl; [auto|].
  intros H. apply IH in H as [H|(l' & Hin & Ho & Hx)].
  - destruct (decide (oid l = o)) as [Ho|Ho].
    + subst o. rewrite lookup_insert_eq in H. injection H as H.
      apply index_of_first_match_Some in H as (_ & x & Hx & Hp).
      right. exists l. split; [now left|]. split; [reflexivity|].
      exists x. split; [exact Hx|]. now apply Z.eqb_eq.
    + rewrite lookup_insert_ne in H by exact Ho. now left.
  - right. exists l'. split; [now right|]. auto.
Qed.

Lemma kineto_events_oids prof :
  map oid (kineto_events prof) = seq 0 (length (events prof)).
Proof.
  unfold kineto_events.
  change (map oid ?l) with (oid <$> l). rewrite fmap_imap.
  transitivity ((fun i : nat => i) <$> seq 0 (length (events prof)));
    [|exact (list_fmap_id _)].
  rewrite <- (imap_seq_0 (events prof) (fun i => i)).
  apply imap_ext. intros i [[[[n d] s] du] c] _. reflexivity.
Qed.

Lemma NoDup_oid_filter (p : KinetoEvent -> bool) (l : list KinetoEvent) :
  NoDup (map oid l) -> NoDup (map oid (List.filter p l)).
Proof.
  induction l as [|x l IH]; simpl; [trivial|].
  rewrite NoDup_cons. intros [Hx Hl].
  destruct (p x); simpl; [|auto].
  apply NoDup_cons. split; [|auto].
  intros Hin. apply Hx. rewrite list_elem_of_In in *.
  apply in_map_iff in Hin as (y & Hy & Hin). apply in_map_iff.
  exists y. split; [exact Hy|]. apply filter_In in Hin. tauto.
Qed.

Lemma cuda_launch_events_oids prof : NoDup (map oid (cuda_launch_events prof)).
Proof.
  unfold cuda_launch_events.
  rewrite (Permutation_map oid (sorted_perm start_us _)).
  apply NoDup_oid_filter. rewrite kineto_events_oids. apply NoDup_seq.
Qed.

Lemma NoDup_map_eq {A B} (f : A -> B) (l : list A) (a b : A) :
  NoDup (map f l) -> In a l -> In b l -> f a = f b -> a = b.
Proof.
  induction l as [|x l IH]; simpl; [contradiction|].
  rewrite NoDup_cons, list_elem_of_In. intros [Hx Hl] [->|Ha] [->|Hb] E; auto.
  - exfalso. apply Hx. rewrite E. now apply in_map.
  - exfalso. apply Hx. rewrite <- E. now apply in_map.
Qed.

(** Two launches share the correlation identifier 7: both are mapped to the
    kernel at index 0. *)
Lemma launches_share_a_kernel :
  let prof := shared_correlation_profile in
  map oid (cuda_launch_events prof) = [0; 1]%nat /\
  map linked_correlation_id (cuda_launch_events prof) = [7; 7] /\
  kernel_mapping prof !! 0%nat = Some (Some 0%nat) /\
  kernel_mapping prof !! 1%nat = Some (Some 0%nat).
Proof. vm_compute. repeat split. Qed.

(** ** Idle time and duration *)

Lemma add_overlap_bound e i acc bound :
  end_ i <= bound ->
  add_overlap e i acc
    <= acc + Z.max 0 (Z.min (end_time_ns e) bound - Z.max (start_time_ns e) (start i)).
Proof.
  intros Hb. unfold add_overlap.
  destruct (Z.ltb_spec (Z.max (start_time_ns e) (start i))
                       (Z.min (end_time_ns e) (end_ i))); lia.
Qed.

(** What the loop adds to [overlap_time] fits in the part of the event's
    span that lies after the start of the first interval: the clipped
    intervals do not overlap. *)
Lemma overlap_loop_bound e intervals :
  forall h acc,
    allocated h intervals ->
    nondecreasing (fun l => start (deref h l)) intervals ->
    fst (overlap_loop e h intervals acc)
    <= acc + match intervals with
             | [] => 0
             | l :: _ =>
                 Z.max 0 (end_time_ns e - Z.max (start_time_ns e) (start (deref h l)))
             end.
Proof.
  induction intervals as [|l rest IH]; intros h acc Hal Hnd; [simpl; lia|].
  inversion Hal as [|? ? Hl Hal']; subst.
  change (overlap_loop e h (l :: rest) acc)
    with (overlap_loop e (clip h l rest) rest
            (add_overlap e (deref (clip h l rest) l) acc)).
  set (h1 := clip h l rest).
  assert (Hst1 : forall x, start (deref h1 x) = start (deref h x)).
  { intros x. apply clip_fields. }
  assert (Hal1 : allocated h1 rest).
  { unfold allocated, h1. rewrite clip_length. exact Hal'. }
  destruct rest as [|l' rest].
  - simpl.
    pose proof (add_overlap_bound e (deref h1 l) acc (end_ (deref h1 l)) (Z.le_refl _)).
    rewrite Hst1 in H. lia.
  - destruct Hnd as [Hll' Hnd].
    specialize (IH h1 (add_overlap e (deref h1 l) acc) Hal1
                  (nondecreasing_starts h h1 _ Hst1 Hnd)).
    cbv beta iota in IH. rewrite Hst1 in IH.
    pose proof (clip_clipped h l l' rest Hl) as Hclip. fold h1 in Hclip.
    pose proof (add_overlap_bound e (deref h1 l) acc _ Hclip) as Hadd.
    rewrite Hst1 in Hadd. lia.
Qed.

Lemma allocated_seq (h : store) : allocated h (seq 0 (length h)).
Proof.
  unfold allocated. apply Forall_forall. intros l Hl.
  rewrite list_elem_of_In in Hl. apply in_seq in Hl. lia.
Qed.

(** The idle time of an event whose span is not reversed is at most the
    length of the span. *)
Lemma intervals_overlap_bound self h intervals :
  allocated h intervals ->
  start_time_ns (event self) <= end_time_ns (event self) ->
  fst (intervals_overlap self h intervals)
    <= end_time_ns (event self) - start_time_ns (event self).
Proof.
  intros Hal Hse. unfold intervals_overlap.
  pose proof (overlap_loop_bound (event self) (sorted (fun l => start (deref h l)) intervals) h 0) as Hb.
  assert (Hal' : allocated h (sorted (fun l => start (deref h l)) intervals)).
  { unfold allocated in *. rewrite Forall_forall in *. intros l Hl.
    apply Hal. now rewrite <- (sorted_perm (fun l => start (deref h l)) intervals). }
  specialize (Hb Hal' (sorted_nondecreasing _ _)).
  destruct (sorted _ intervals); lia.
Qed.

(** *** The metrics through [compute_queue_depth] and [compute_idle_time] *)

Lemma Dict_update_Forall (P : EventKey * EventMetrics -> Prop) d k f :
  Forall P d ->
  (forall k' r, In (k', r) d -> id (event k') = id (event k) ->
                P (k', r) -> P (k', f r)) ->
  Forall P (Dict.update d k f).
Proof.
  induction d as [|[k' v'] d IH]; simpl; intros Hd Hf; [constructor|].
  inversion Hd as [|? ? Hkv Hd']; subst.
  destruct (EventKey_eqb_spec k' k) as [E|E].
  - constructor; [|exact Hd']. apply Hf; auto.
  - constructor; [exact Hkv|]. apply IH; [exact Hd'|].
    intros k2 r Hin. apply Hf. now right.
Qed.

Lemma sweep_step_metrics (Q : Dict.t -> Prop) kernels km st ev :
  (forall d k v, Q d -> Q (Dict.update d k (set_queue_depth v))) ->
  Q (sw_metrics st) -> Q (sw_metrics (sweep_step kernels km st ev)).
Proof.
  intros HQ Hst. unfold sweep_step.
  destruct ev as [e|e]; simpl; [exact Hst|]. now apply HQ.
Qed.

(** A property of the dictionary that no write of a queue depth breaks
    holds after [compute_queue_depth]. *)
Lemma compute_queue_depth_metrics (Q : Dict.t -> Prop) prof events metrics :
  (forall d k v, Q d -> Q (Dict.update d k (set_queue_depth v))) ->
  Q metrics -> Q (snd (compute_queue_depth prof events metrics)).
Proof.
  intros HQ Hm. unfold compute_queue_depth. cbv zeta. simpl snd.
  generalize (sorted new_old_event_comparator
                (map Kineto (cuda_launch_events prof)
                 ++ map Kineto (cuda_kernel_events prof) ++ map Profiler events)).
  intros all_events.
  assert (H : Q (sw_metrics (mkSweep 0 (-1) [] metrics))) by exact Hm.
  revert H. generalize (mkSweep 0 (-1) [] metrics).
  induction all_events as [|ev rest IH]; intros st Hst; simpl; [exact Hst|].
  apply IH. now apply sweep_step_metrics.
Qed.

Lemma key_ids_update d k f : key_ids (Dict.update d k f) = key_ids d.
Proof. unfold key_ids. now rewrite Dict_keys_update. Qed.

Lemma idle_loop_bounded event_list :
  forall h intervals metrics,
    allocated h intervals ->
    NoDup (key_ids metrics) ->
    (forall e, In e event_list -> In (mkEventKey e) (Dict.keys metrics)) ->
    Forall bounded_entry metrics ->
    Dict.keys (fst (idle_loop event_list h intervals metrics)) = Dict.keys metrics /\
    Forall bounded_entry (fst (idle_loop event_list h intervals metrics)).
Proof.
  induction event_list as [|e rest IH]; intros h intervals metrics Hal Hnd Hin Hb;
    [split; [reflexivity|exact Hb]|].
  simpl. destruct (intervals_overlap (mkEventKey e) h intervals) as [overlap h'] eqn:Hio.
  assert (Hov : overlap = fst (intervals_overlap (mkEventKey e) h intervals))
    by now rewrite Hio.
  assert (Hh' : h' = snd (intervals_overlap (mkEventKey e) h intervals))
    by now rewrite Hio.
  set (m' := Dict.update metrics (mkEventKey e) (set_idle_time_ns overlap)).
  destruct (IH h' intervals m') as [Hkeys Hfin].
  - unfold allocated. rewrite Hh', intervals_overlap_length. exact Hal.
  - unfold m'. now rewrite key_ids_update.
  - intros x Hx. unfold m'. rewrite Dict_keys_update. apply Hin. now right.
  - unfold m'. apply Dict_update_Forall; [exact Hb|].
    intros k' r Hk' Hid [Hdur _]. simpl in *.
    assert (Hke : k' = mkEventKey e).
    { apply (NoDup_map_eq (fun k => id (event k)) (Dict.keys metrics)).
      - exact Hnd.
      - unfold Dict.keys. apply in_map_iff. now exists (k', r).
      - apply Hin. now left.
      - exact Hid. }
    subst k'. split; [exact Hdur|]. simpl. intros [Hd Hse].
    simpl in Hdur. rewrite Hov, Hdur, Hd.
    now apply (intervals_overlap_bound (mkEventKey e)).
  - split; [|exact Hfin]. rewrite Hkeys. unfold m'. apply Dict_keys_update.
Qed.

Lemma fresh_entry_bounded kr : fresh_entry kr -> bounded_entry kr.
Proof.
  intros [Hd Hi]. split; [exact Hd|]. intros [Hw Hse]. rewrite Hi, Hd, Hw. lia.
Qed.

Lemma entries_fresh order : Forall fresh_entry (map entry order).
Proof.
  apply Forall_forall. intros kr Hkr. rewrite list_elem_of_In in Hkr.
  apply in_map_iff in Hkr as (e & <- & _). split; reflexivity.
Qed.

(** C8. On a trace whose host events have pairwise different identifiers,
    [BasicEvaluation] is built, and every host event whose duration is the
    length of its span, the span not being reversed, has an idle time that
    is at most its duration: the clipped idle intervals do not overlap, so
    their intersections with the span of the event fit in it. *)
Theorem idle_time_at_most_duration (prof : profile) :
  NoDup (map id (forest_nodes (experimental_event_tree prof))) ->
  exists be,
    BasicEvaluation_init prof = Ok be /\
    forall e, In e (forest_nodes (experimental_event_tree prof)) ->
      well_timed e ->
      exists r,
        Dict.get (metrics be) (mkEventKey e) = Some r /\
        m_duration_time_ns r = duration_time_ns e /\
        idle_time_ns r <= m_duration_time_ns r.
Proof.
  intros Hnd.
  destruct (compute_self_time_shape _ Hnd) as (order & Horder & Hrun).
  unfold BasicEvaluation_init. rewrite Hrun.
  set (metrics0 := map entry order).
  set (events := map event (sorted _ (Dict.keys metrics0))).
  pose proof (compute_queue_depth_metrics
                (fun d => Dict.keys d = Dict.keys metrics0 /\ Forall fresh_entry d)
                prof events metrics0) as Hq.
  destruct (compute_queue_depth prof events metrics0) as [qdl metrics1].
  simpl snd in Hq.
  destruct Hq as [Hkeys1 Hfresh1].
  { intros d k v [Hk Hf]. split; [now rewrite Dict_keys_update|].
    apply Dict_update_Forall; [exact Hf|]. intros k' r _ _ [H1 H2]. now split. }
  { split; [reflexivity|apply entries_fresh]. }
  assert (Hnd1 : NoDup (key_ids metrics1)).
  { unfold key_ids. rewrite Hkeys1. fold (key_ids metrics0).
    unfold metrics0. rewrite key_ids_entries, (Permutation_map id Horder). exact Hnd. }
  unfold compute_idle_time. cbv zeta.
  destruct (idle_loop_bounded (map event (Dict.keys metrics1))
              (idle_intervals qdl events)
              (seq 0 (length (idle_intervals qdl events))) metrics1)
    as [Hkeysf Hboundf].
  - apply allocated_seq.
  - exact Hnd1.
  - intros e He. apply in_map_iff in He as ([x] & <- & Hx). exact Hx.
  - eapply Forall_impl; [exact Hfresh1|]. intros kr. apply fresh_entry_bounded.
  - eexists. split; [reflexivity|]. cbn [metrics].
    set (metricsf := fst (idle_loop _ _ _ metrics1)) in *.
    intros e He Hw.
    assert (Hin : In (mkEventKey e) (Dict.keys metricsf)).
    { rewrite Hkeysf, Hkeys1. unfold metrics0, Dict.keys. rewrite map_map.
      apply in_map_iff. exists e. split; [reflexivity|].
      eapply Permutation_in; [symmetry; exact Horder|exact He]. }
    unfold Dict.keys in Hin. apply in_map_iff in Hin as ([k r] & Hk & Hin).
    simpl in Hk. subst k. exists r. split.
    + apply Dict_get_In; [|exact Hin]. unfold key_ids. now rewrite Hkeysf.
    + rewrite Forall_forall in Hboundf.
      destruct (Hboundf (mkEventKey e, r)) as [Hd Hb].
      { now rewrite list_elem_of_In. }
      simpl in *. split; [exact Hd|]. now apply Hb.
Qed.

Lemma idle_time_at_most_duration_witness :
  exists be,
    BasicEvaluation_init burst_profile = Ok be /\
    exists r,
      Dict.get (metrics be) (mkEventKey (ev 3 20000 21000 [])) = Some r /\
      m_duration_time_ns r = duration_time_ns (ev 3 20000 21000 []) /\
      idle_time_ns r <= m_duration_time_ns r.
Proof.
  destruct (idle_time_at_most_duration burst_profile) as (be & Hbe & H).
  - vm_compute. repeat constructor; rewrite list_elem_of_In; simpl; intuition discriminate.
  - exists be. split; [exact Hbe|]. apply H.
    + vm_compute. auto.
    + unfold well_timed. simpl. lia.
Defined.

(** ** Standard scores without variance *)

Lemma F32_sub_self x : zero_or_nan (F32.sub x x) = true.
Proof.
  destruct x as [[]|[]| |s m e]; try reflexivity.
  unfold F32.sub, SFsub. rewrite Z.sub_diag. reflexivity.
Qed.

Lemma F32_mul_zero_or_nan x y :
  zero_or_nan x = true -> zero_or_nan y = true -> zero_or_nan (F32.mul x y) = true.
Proof. destruct x, y; simpl; try discriminate; reflexivity. Qed.

Lemma F32_add_zero_or_nan x y :
  zero_or_nan x = true -> zero_or_nan y = true -> zero_or_nan (F32.add x y) = true.
Proof.
  destruct x as [[]| | |], y as [[]| | |]; simpl; try discriminate; reflexivity.
Qed.

Lemma F32_sum_zero_or_nan l :
  Forall (fun x => zero_or_nan x = true) l -> zero_or_nan (F32.sum l) = true.
Proof.
  unfold F32.sum. assert (H0 : zero_or_nan F32.zero = true) by reflexivity.
  revert H0. generalize F32.zero.
  induction l as [|x l IH]; intros acc Hacc Hl; simpl; [exact Hacc|].
  inversion Hl; subst. apply IH; [|assumption].
  now apply F32_add_zero_or_nan.
Qed.

Lemma F32_div_zero_or_nan x y :
  zero_or_nan x = true -> zero_or_nan (F32.div x y) = true.
Proof. destruct x, y; simpl; try discriminate; reflexivity. Qed.

Lemma F32_sqrt_zero_or_nan x :
  zero_or_nan x = true -> zero_or_nan (F32.sqrt x) = true.
Proof. destruct x; simpl; try discriminate; reflexivity. Qed.

(** Zero over zero, and anything of the two over NaN, is NaN. *)
Lemma F32_div_is_nan x y :
  zero_or_nan x = true -> zero_or_nan y = true -> F32.is_nan (F32.div x y) = true.
Proof. destruct x, y; simpl; try discriminate; reflexivity. Qed.

Lemma F32_add_nan_l x y : F32.is_nan x = true -> F32.is_nan (F32.add x y) = true.
Proof. destruct x; simpl; try discriminate. reflexivity. Qed.

Lemma F32_add_nan_r x y : F32.is_nan y = true -> F32.is_nan (F32.add x y) = true.
Proof. destruct y; simpl; try discriminate. now destruct x. Qed.

Lemma Forall_map_constant {A B} (P : B -> Prop) (f : A -> B) (m : A) (l : list A) :
  Forall (fun v => v = m) l -> P (f m) -> Forall P (map f l).
Proof.
  intros Hl Hm. induction Hl as [|v l Hv Hl IH]; simpl; [constructor|].
  constructor; [now rewrite Hv|exact IH].
Qed.

(** The standard scores of a tensor whose elements are all the mean. *)
Lemma normalized_constant (x : list F32.t) :
  Forall (fun v => v = F32.mean x) x ->
  Forall (fun z => F32.is_nan z = true) (F32.normalized x).
Proof.
  intros Hx. unfold F32.normalized.
  assert (Hstd : zero_or_nan (F32.std x) = true).
  { unfold F32.std. apply F32_sqrt_zero_or_nan, F32_div_zero_or_nan.
    apply F32_sum_zero_or_nan.
    apply (Forall_map_constant _ _ (F32.mean x)); [exact Hx|].
    apply F32_mul_zero_or_nan; apply F32_sub_self. }
  apply (Forall_map_constant _ _ (F32.mean x)); [exact Hx|].
  apply F32_div_is_nan; [apply F32_sub_self|exact Hstd].
Qed.

Lemma tensor_constant (l : list Z) (v : Z) :
  Forall (fun x => x = v) l ->
  F32.mean (F32.tensor l) = F32.of_Z v ->
  Forall (fun f => f = F32.mean (F32.tensor l)) (F32.tensor l).
Proof.
  intros Hl ->. unfold F32.tensor.
  induction Hl as [|x l Hx Hl IH]; simpl; [constructor|].
  constructor; [now rewrite Hx|exact IH].
Qed.

Lemma add_tensors_nan_l a b :
  Forall (fun z => F32.is_nan z = true) a ->
  Forall (fun z => F32.is_nan z = true) (F32.add_tensors a b).
Proof.
  unfold F32.add_tensors. intros Ha. revert b.
  induction Ha as [|x a Hx Ha IH]; intros [|y b]; simpl; try constructor.
  - now apply F32_add_nan_l.
  - apply IH.
Qed.

Lemma add_tensors_nan_r a b :
  Forall (fun z => F32.is_nan z = true) b ->
  Forall (fun z => F32.is_nan z = true) (F32.add_tensors a b).
Proof.
  unfold F32.add_tensors. intros Hb. revert a.
  induction Hb as [|y b Hy Hb IH]; intros [|x a]; simpl; try constructor.
  - now apply F32_add_nan_r.
  - apply IH.
Qed.

(** C6, as the code has it. [rank_events] divides by the standard deviation
    without a guard. When the idle times of the survivors all coincide (or
    their self times do) and the float32 mean of the tensor is that value,
    the standard-score term is NaN for every survivor, not 0, and so is every
    combined score that the sort is given; no error is raised. *)
Theorem zero_variance_scores_are_nan (be : BasicEvaluation) (v : Z) :
  (Forall (fun x => x = v) (idle_times be) /\
   F32.mean (F32.tensor (idle_times be)) = F32.of_Z v) \/
  (Forall (fun x => x = v) (self_times be) /\
   F32.mean (F32.tensor (self_times be)) = F32.of_Z v) ->
  (Forall (fun z => F32.is_nan z = true) (F32.normalized (F32.tensor (idle_times be))) \/
   Forall (fun z => F32.is_nan z = true) (F32.normalized (F32.tensor (self_times be)))) /\
  Forall (fun z => F32.is_nan z = true) (heuristic_score_list be (survivors be)) /\
  length (heuristic_score_list be (survivors be)) = length (survivors be).
Proof.
  intros H. split; [|split; [|apply heuristic_score_list_length]].
  - destruct H as [[Hv Hm]|[Hv Hm]]; [left|right];
      apply normalized_constant, (tensor_constant _ v); assumption.
  - unfold heuristic_score_list. fold (idle_times be) (self_times be). cbv zeta.
    destruct H as [[Hv Hm]|[Hv Hm]].
    + apply add_tensors_nan_l, normalized_constant, (tensor_constant _ v); assumption.
    + apply add_tensors_nan_r, normalized_constant, (tensor_constant _ v); assumption.
Qed.

Lemma zero_variance_scores_are_nan_witness :
  let be := evaluation equal_idle_profile in
  (Forall (fun z => F32.is_nan z = true) (F32.normalized (F32.tensor (idle_times be))) \/
   Forall (fun z => F32.is_nan z = true) (F32.normalized (F32.tensor (self_times be)))) /\
  Forall (fun z => F32.is_nan z = true) (heuristic_score_list be (survivors be)) /\
  length (heuristic_score_list be (survivors be)) = length (survivors be).
Proof.
  apply (zero_variance_scores_are_nan (evaluation equal_idle_profile) 0).
  left. split.
  - vm_compute. repeat constructor.
  - vm_compute. reflexivity.
Defined.

(** Two survivors with the idle time 0: the idle term is NaN for both, and
    so are the scores. *)
Lemma zero_variance_term_is_not_zero :
  let be := evaluation equal_idle_profile in
  map (fun k => id (event k)) (survivors be) = [1; 2] /\
  idle_times be = [0; 0] /\
  F32.normalized (F32.tensor (idle_times be)) = [F32.nan; F32.nan] /\
  heuristic_score_list be (survivors be) = [F32.nan; F32.nan].
Proof. vm_compute. repeat split. Qed.

(** * Further properties of the analysis *)

(** ** The duplicate-id assertion *)

(** A run of the loop that ends without the assertion went through events
    with pairwise different identifiers, none of them recorded before. *)
Lemma self_time_loop_Ok_distinct (n : nat) :
  forall stack metrics metrics',
    (forest_size stack <= n)%nat ->
    self_time_loop stack metrics = Ok metrics' ->
    NoDup (map id (forest_nodes stack)) /\
    forall e, In e (forest_nodes stack) -> ~ In (id e) (key_ids metrics).
Proof.
  induction n as [|n IH]; intros stack metrics metrics' Hn Hrun.
  - destruct stack as [|[i nm s t d cs] stack];
      [|unfold forest_size in Hn; simpl in Hn; lia].
    split; [constructor|intros e []].
  - destruct stack as [|curr stack]; [split; [constructor|intros e []]|].
    simp self_time_loop in Hrun. cbv zeta in Hrun. unfold Dict.contains in Hrun.
    destruct (Dict.get metrics (mkEventKey curr)) as [r|] eqn:Hcurr; [discriminate|].
    rewrite (Dict_set_fresh _ _ _ Hcurr), (Dict_update_fresh _ _ _ _ Hcurr) in Hrun.
    apply IH in Hrun as [Hnd Hfresh].
    2:{ rewrite forest_size_app, forest_size_rev.
        unfold forest_size in *. destruct curr; simpl in *. lia. }
    assert (Hperm : Permutation (forest_nodes (curr :: stack))
                      (curr :: forest_nodes (rev (children curr) ++ stack))).
    { unfold forest_nodes at 1. simpl flat_map.
      destruct curr as [i nm s t d cs]; simpl.
      constructor. unfold forest_nodes. rewrite flat_map_app.
      apply Permutation_app_tail. symmetry. apply forest_nodes_rev_perm. }
    assert (Hkeys : forall x, In x (key_ids (metrics ++ [(mkEventKey curr,
              set_duration_time_ns (duration_time_ns curr)
                (mkEventMetrics 0 (self_time_of curr) 0 0))]))
              <-> In x (key_ids metrics) \/ x = id curr).
    { intros x. unfold key_ids, Dict.keys. rewrite !map_app, in_app_iff. simpl.
      intuition. }
    split.
    + rewrite (Permutation_map id Hperm). simpl. apply NoDup_cons. split; [|exact Hnd].
      rewrite list_elem_of_In. intros Hin.
      apply in_map_iff in Hin as (e & He & Hin).
      apply (Hfresh e Hin). apply Hkeys. now right.
    + intros e He. eapply Permutation_in in He; [|exact Hperm].
      destruct He as [<-|He].
      * intros Hin. clear -Hcurr Hin.
        unfold key_ids, Dict.keys in Hin.
        induction metrics as [|[k' v'] m IHm]; simpl in *; [contradiction|].
        destruct (EventKey_eqb_spec k' (mkEventKey curr)) as [E|E]; [discriminate|].
        destruct Hin as [Hin|Hin]; [now apply E|]. now apply IHm.
      * intros Hin. apply (Hfresh e He). apply Hkeys. now left.
Qed.

(** The run of [compute_self_time] ends in the assertion exactly when two
    events of the forest have one identifier. When it does not, the
    dictionary holds one record for every event of the forest and nothing
    else: its keys are the events of the forest, each once. *)
Theorem compute_self_time_succeeds_iff (event_tree : list Event) :
  (NoDup (map id (forest_nodes event_tree)) <->
   exists metrics, compute_self_time event_tree = Ok metrics) /\
  (~ NoDup (map id (forest_nodes event_tree)) <->
   exists msg, compute_self_time event_tree = AssertionError msg) /\
  (forall metrics,
     compute_self_time event_tree = Ok metrics ->
     Permutation (map event (Dict.keys metrics)) (forest_nodes event_tree) /\
     length metrics = length (forest_nodes event_tree)).
Proof.
  assert (Hok : forall metrics, compute_self_time event_tree = Ok metrics ->
                  NoDup (map id (forest_nodes event_tree))).
  { intros metrics Hrun. unfold compute_self_time in Hrun.
    apply (self_time_loop_Ok_distinct _ _ _ _ (le_n _)) in Hrun as [Hnd _].
    now rewrite (Permutation_map id (forest_nodes_rev_perm event_tree)) in Hnd. }
  split; [|split].
  - split.
    + intros Hnd. destruct (compute_self_time_shape _ Hnd) as (order & _ & Hrun).
      eauto.
    + intros [metrics Hrun]. eauto.
  - split.
    + intros Hdup. destruct (compute_self_time event_tree) as [metrics|msg] eqn:Hrun.
      * exfalso. eauto.
      * eauto.
    + intros [msg Hrun] Hnd.
      destruct (compute_self_time_shape _ Hnd) as (order & _ & Hrun').
      congruence.
  - intros metrics Hrun.
    destruct (compute_self_time_shape _ (Hok _ Hrun)) as (order & Horder & Hrun').
    rewrite Hrun in Hrun'. injection Hrun' as ->.
    unfold Dict.keys. rewrite !map_map, length_map. simpl.
    rewrite map_id. split; [exact Horder|]. now apply Permutation_length.
Qed.

(** ** [index_of_first_match] and [argmax] *)

Lemma first_match_from_spec {A} (predicate : A -> bool) (l : list A) :
  forall i,
    match first_match_from predicate l i with
    | Some k =>
        (i <= k < i + length l)%nat /\
        (exists x, l !! (k - i)%nat = Some x /\ predicate x = true) /\
        (forall j y, (j < k - i)%nat -> l !! j = Some y -> predicate y = false)
    | None => forall j y, l !! j = Some y -> predicate y = false
    end.
Proof.
  induction l as [|x l IH]; intros i; simpl.
  - intros j y H. now rewrite lookup_nil in H.
  - destruct (predicate x) eqn:Hx.
    + split; [lia|]. split.
      * exists x. now rewrite Nat.sub_diag.
      * intros j y Hj. lia.
    + specialize (IH (S i)). destruct (first_match_from predicate l (S i)) as [k|].
      * destruct IH as (Hk & (y & Hy & Hp) & Hbefore). split; [lia|]. split.
        -- exists y. replace (k - i)%nat with (S (k - S i)) by lia. now split.
        -- intros [|j] z Hj Hz; simpl in Hz; [congruence|].
           apply (Hbefore j z); [lia|exact Hz].
      * intros [|j] z Hz; simpl in Hz; [congruence|]. now apply (IH j z).
Qed.

Lemma lookup_slice {A} (seq : list A) (start stop j : nat) :
  (stop <= length seq)%nat ->
  drop start (take stop seq) !! j =
  if (start + j <? stop)%nat then seq !! (start + j)%nat else None.
Proof.
  intros Hstop. rewrite lookup_drop.
  destruct (Nat.ltb_spec (start + j) stop) as [Hlt|Hge].
  - now apply lookup_take_lt.
  - apply lookup_ge_None. rewrite length_take. lia.
Qed.

Lemma length_slice {A} (seq : list A) (start stop : nat) :
  (stop <= length seq)%nat ->
  length (drop start (take stop seq)) = (stop - start)%nat.
Proof. intros H. rewrite length_drop, length_take. lia. Qed.

Lemma index_of_first_match_spec {A} (seq : list A) (predicate : A -> bool)
    (start : nat) (end_ : option nat) :
  let stop :=
    match end_ with
    | None => length seq
    | Some n => Nat.min n (length seq)
    end in
  match index_of_first_match seq predicate start end_ with
  | Some k =>
      (start <= k < stop)%nat /\
      (exists x, seq !! k = Some x /\ predicate x = true) /\
      (forall j y, (start <= j < k)%nat -> seq !! j = Some y -> predicate y = false)
  | None =>
      forall j y, (start <= j < stop)%nat -> seq !! j = Some y -> predicate y = false
  end.
Proof.
  intros stop. unfold index_of_first_match.
  set (stop' := match end_ with
                | None => length seq
                | Some n => if (length seq <=? n)%nat then length seq else n
                end).
  assert (Hs : stop' = stop).
  { unfold stop', stop. destruct end_ as [n|]; [|reflexivity].
    destruct (Nat.leb_spec (length seq) n); lia. }
  rewrite Hs. clear stop' Hs.
  assert (Hlen : (stop <= length seq)%nat).
  { unfold stop. destruct end_; lia. }
  pose proof (first_match_from_spec predicate (drop start (take stop seq)) start) as H.
  destruct (first_match_from predicate (drop start (take stop seq)) start) as [k|].
  - destruct H as (Hk & (x & Hx & Hp) & Hbefore).
    rewrite length_slice in Hk by exact Hlen.
    rewrite lookup_slice in Hx by exact Hlen.
    replace (start + (k - start))%nat with k in Hx by lia.
    destruct (Nat.ltb_spec k stop) as [Hlt|Hge]; [|discriminate].
    split; [lia|]. split; [eauto|].
    intros j y Hj Hy. apply (Hbefore (j - start)%nat y); [lia|].
    rewrite lookup_slice by exact Hlen.
    replace (start + (j - start))%nat with j by lia.
    destruct (Nat.ltb_spec j stop); [exact Hy|lia].
  - intros j y Hj Hy. apply (H (j - start)%nat y).
    rewrite lookup_slice by exact Hlen.
    replace (start + (j - start))%nat with j by lia.
    destruct (Nat.ltb_spec j stop); [exact Hy|lia].
Qed.

(** [index_of_first_match] returns the least index of [range(start, end)]
    whose element satisfies the predicate, and [None] when no element of the
    range does; an [end] past the list is the length of the list, as
    [end=None] is. *)
Theorem index_of_first_match_least {A} (seq : list A) (predicate : A -> bool)
    (start : nat) (end_ : option nat) :
  let stop :=
    match end_ with
    | None => length seq
    | Some n => Nat.min n (length seq)
    end in
  match index_of_first_match seq predicate start end_ with
  | Some k =>
      (start <= k < stop)%nat /\
      (exists x, seq !! k = Some x /\ predicate x = true) /\
      (forall j y, (start <= j < k)%nat -> seq !! j = Some y -> predicate y = false)
  | None =>
      forall j y, (start <= j < stop)%nat -> seq !! j = Some y -> predicate y = false
  end /\
  (forall n, (length seq <= n)%nat ->
     index_of_first_match seq predicate start (Some n)
     = index_of_first_match seq predicate start None).
Proof.
  intros stop. split; [exact (index_of_first_match_spec seq predicate start end_)|].
  intros n Hn. unfold index_of_first_match.
  now destruct (Nat.leb_spec (length seq) n); [|lia].
Qed.

Lemma py_max_spec (l : list Z) :
  forall x, (forall y, In y (x :: l) -> y <= py_max x l) /\ In (py_max x l) (x :: l).
Proof.
  unfold py_max. induction l as [|y l IH]; intros x; simpl.
  - split; [intros z [<-|[]]; lia|now left].
  - destruct (IH (if x <? y then y else x)) as [Hle Hin]. split.
    + intros z Hz.
      pose proof (Hle (if x <? y then y else x) (or_introl eq_refl)) as Hxy.
      destruct Hz as [Hz|[Hz|Hz]].
      * subst z. destruct (Z.ltb_spec x y); lia.
      * subst z. destruct (Z.ltb_spec x y); lia.
      * apply Hle. now right.
    + destruct Hin as [Hin|Hin]; [|now right; right].
      rewrite <- Hin. destruct (x <? y); [right; now left|now left].
Qed.

Lemma py_index_spec (v : Z) (l : list Z) :
  In v l ->
  l !! py_index v l = Some v /\
  forall j w, (j < py_index v l)%nat -> l !! j = Some w -> w <> v.
Proof.
  induction l as [|x l IH]; simpl; [contradiction|]. intros Hin.
  destruct (Z.eqb_spec x v) as [->|Hne].
  - split; [reflexivity|]. intros j w Hj. lia.
  - destruct Hin as [Hin|Hin]; [contradiction|]. destruct (IH Hin) as [Hv Hbefore].
    split; [exact Hv|]. intros [|j] w Hj Hw; simpl in Hw; [congruence|].
    apply (Hbefore j w); [lia|exact Hw].
Qed.

Lemma argmax_spec (seq : list Z) (start : nat) (end_ : option nat) :
  let stop :=
    match end_ with
    | None => length seq
    | Some n => Nat.min n (length seq)
    end in
  match argmax seq start end_ with
  | Some k =>
      (start <= k < stop)%nat /\
      exists v, seq !! k = Some v /\
        (forall j w, (start <= j < stop)%nat -> seq !! j = Some w -> w <= v) /\
        (forall j w, (start <= j < k)%nat -> seq !! j = Some w -> w < v)
  | None => (stop <= start)%nat
  end.
Proof.
  intros stop. unfold argmax.
  assert (Hslice : match end_ with
                   | Some n => drop start (take n seq)
                   | None => drop start seq
                   end = drop start (take stop seq)).
  { unfold stop. destruct end_ as [n|].
    - destruct (Nat.le_gt_cases n (length seq)) as [H|H].
      + now rewrite Nat.min_l.
      + rewrite Nat.min_r by lia. now rewrite !take_ge by lia.
    - now rewrite firstn_all. }
  rewrite Hslice. clear Hslice.
  assert (Hlen : (stop <= length seq)%nat).
  { unfold stop. destruct end_; lia. }
  pose proof (length_slice seq start stop Hlen) as Hl.
  pose proof (fun j => lookup_slice seq start stop j Hlen) as Hlook.
  destruct (drop start (take stop seq)) as [|x l] eqn:Hs; [simpl in Hl; lia|].
  destruct (py_max_spec l x) as [Hmax Hin].
  destruct (py_index_spec (py_max x l) (x :: l) Hin) as [Hat Hbefore].
  set (v := py_max x l) in *. set (i := py_index v (x :: l)) in *.
  assert (Hi : (i < length (x :: l))%nat) by (eapply lookup_lt_Some; exact Hat).
  rewrite Hl in Hi.
  assert (Hget : forall j w, (start <= j < stop)%nat -> seq !! j = Some w ->
                   (x :: l) !! (j - start)%nat = Some w).
  { intros j w Hj Hw. rewrite Hlook.
    replace (start + (j - start))%nat with j by lia.
    destruct (Nat.ltb_spec j stop); [exact Hw|lia]. }
  split; [lia|]. exists v. split; [|split].
  - rewrite Hlook in Hat. replace (i + start)%nat with (start + i)%nat by lia.
    destruct (Nat.ltb_spec (start + i) stop); [exact Hat|discriminate].
  - intros j w Hj Hw. apply Hmax. rewrite <- list_elem_of_In.
    eapply list_elem_of_lookup_2. now apply Hget.
  - intros j w Hj Hw.
    assert (Hjw : (x :: l) !! (j - start)%nat = Some w) by (apply Hget; [lia|exact Hw]).
    assert (w <= v).
    { apply Hmax. rewrite <- list_elem_of_In. eapply list_elem_of_lookup_2. exact Hjw. }
    assert (w <> v) by (apply (Hbefore (j - start)%nat); [lia|exact Hjw]).
    lia.
Qed.

(** [argmax] returns [None] exactly on an empty slice; otherwise the index,
    in the whole list, of the first of the largest elements of
    [seq[start:end]]. An [end] past the list gives what [end=None] gives. *)
Theorem argmax_first_largest (seq : list Z) (start : nat) (end_ : option nat) :
  let stop :=
    match end_ with
    | None => length seq
    | Some n => Nat.min n (length seq)
    end in
  match argmax seq start end_ with
  | Some k =>
      (start <= k < stop)%nat /\
      exists v, seq !! k = Some v /\
        (forall j w, (start <= j < stop)%nat -> seq !! j = Some w -> w <= v) /\
        (forall j w, (start <= j < k)%nat -> seq !! j = Some w -> w < v)
  | None => (stop <= start)%nat
  end /\
  (forall n, (length seq <= n)%nat ->
     argmax seq start (Some n) = argmax seq start None).
Proof.
  intros stop. split; [exact (argmax_spec seq start end_)|].
  intros n Hn. unfold argmax. now rewrite take_ge.
Qed.

(** ** The cursor of the correlation mapping *)

Lemma map_kernels_other (launches kernels : list KinetoEvent) :
  forall (km : gmap nat (option nat)) (last_mapped o : nat),
    ~ In o (map oid launches) ->
    map_kernels launches kernels km last_mapped !! o = km !! o.
Proof.
  induction launches as [|l rest IH]; intros km last_mapped o Ho; simpl; [reflexivity|].
  rewrite IH by (intros H; apply Ho; now right).
  apply lookup_insert_ne. intros E. apply Ho. now left.
Qed.

(** With launches that are different objects, the mapping holds for every
    launch the index computed at its turn. *)
Lemma map_kernels_trace (launches kernels : list KinetoEvent) :
  forall (km : gmap nat (option nat)) (last_mapped i : nat) (l : KinetoEvent),
    NoDup (map oid launches) ->
    launches !! i = Some l ->
    Some (map_kernels launches kernels km last_mapped !! oid l)
    = Some (mapping_trace launches kernels last_mapped !! i).
Proof.
  induction launches as [|l0 rest IH]; intros km last_mapped i l Hnd Hl;
    [now rewrite lookup_nil in Hl|].
  simpl in Hnd. apply NoDup_cons in Hnd as [Hl0 Hnd]. rewrite list_elem_of_In in Hl0.
  destruct i as [|i]; simpl in *.
  - injection Hl as ->. rewrite map_kernels_other by exact Hl0.
    now rewrite lookup_insert_eq.
  - now apply IH.
Qed.

Lemma mapping_trace_monotone (kernels : list KinetoEvent) (launches : list KinetoEvent) :
  forall (last_mapped i j ki kj : nat),
    (i <= j)%nat ->
    mapping_trace launches kernels last_mapped !! i = Some (Some ki) ->
    mapping_trace launches kernels last_mapped !! j = Some (Some kj) ->
    (last_mapped <= ki)%nat /\ (ki <= kj)%nat /\ (kj < length kernels)%nat.
Proof.
  induction launches as [|l rest IH]; intros last_mapped i j ki kj Hij Hi Hj;
    [simpl in Hi; now rewrite lookup_nil in Hi|].
  simpl in Hi, Hj.
  pose proof (index_of_first_match_spec kernels
                (fun x => linked_correlation_id x =? linked_correlation_id l)
                last_mapped None) as Hspec.
  cbv zeta in Hspec.
  destruct (index_of_first_match kernels _ last_mapped None) as [k|] eqn:Hk.
  - destruct Hspec as (Hrange & _).
    destruct i as [|i], j as [|j]; simpl in Hi, Hj; try lia.
    + injection Hi as <-. injection Hj as <-. lia.
    + injection Hi as <-.
      destruct (IH k j j kj kj (le_n _) Hj Hj) as (H1 & _ & H3). lia.
    + destruct (IH k i j ki kj ltac:(lia) Hi Hj) as (H1 & H2 & H3). lia.
  - destruct i as [|i]; simpl in Hi; [discriminate|].
    destruct j as [|j]; simpl in Hj; [discriminate|].
    apply (IH last_mapped i j ki kj); [lia|assumption|assumption].
Qed.

Lemma mapping_trace_nearest (kernels : list KinetoEvent) (launches : list KinetoEvent) :
  forall (last_mapped i k' : nat) (li x : KinetoEvent) (r : option nat),
    launches !! i = Some li ->
    mapping_trace launches kernels last_mapped !! i = Some r ->
    kernels !! k' = Some x ->
    linked_correlation_id x = linked_correlation_id li ->
    (last_mapped <= k')%nat ->
    (forall j kj, (j < i)%nat ->
       mapping_trace launches kernels last_mapped !! j = Some (Some kj) ->
       (kj <= k')%nat) ->
    exists ki, r = Some ki /\ (ki <= k')%nat.
Proof.
  induction launches as [|l rest IH]; intros last_mapped i k' li x r Hli Hr Hx Hc Hlast Hprev;
    [now rewrite lookup_nil in Hli|].
  simpl in Hr, Hprev.
  pose proof (index_of_first_match_spec kernels
                (fun y => linked_correlation_id y =? linked_correlation_id l)
                last_mapped None) as Hspec.
  cbv zeta in Hspec.
  assert (Hk' : (k' < length kernels)%nat) by (eapply lookup_lt_Some; exact Hx).
  destruct i as [|i]; simpl in Hli, Hr.
  - injection Hli as ->. injection Hr as <-.
    destruct (index_of_first_match kernels _ last_mapped None) as [k|].
    + destruct Hspec as (Hrange & _ & Hbefore). exists k. split; [reflexivity|].
      destruct (Nat.le_gt_cases k k') as [Hle|Hgt]; [exact Hle|].
      specialize (Hbefore k' x ltac:(lia) Hx). simpl in Hbefore.
      rewrite Hc, Z.eqb_refl in Hbefore. discriminate.
    + specialize (Hspec k' x ltac:(lia) Hx). simpl in Hspec.
      rewrite Hc, Z.eqb_refl in Hspec. discriminate.
  - apply (IH _ i k' li x r Hli Hr Hx Hc).
    + destruct (index_of_first_match kernels _ last_mapped None) as [k|]; [|exact Hlast].
      apply (Hprev 0%nat k); [lia|reflexivity].
    + intros j kj Hj Hkj. apply (Hprev (S j) kj); [lia|exact Hkj].
Qed.

Lemma mapping_trace_length (launches kernels : list KinetoEvent) :
  forall last_mapped,
    length (mapping_trace launches kernels last_mapped) = length launches.
Proof.
  induction launches as [|l rest IH]; intros c; simpl; [reflexivity|]. now rewrite IH.
Qed.

Lemma kernel_mapping_trace prof i l :
  cuda_launch_events prof !! i = Some l ->
  kernel_mapping prof !! oid l
  = mapping_trace (cuda_launch_events prof) (cuda_kernel_events prof) 0 !! i.
Proof.
  intros Hl. unfold kernel_mapping.
  pose proof (map_kernels_trace (cuda_launch_events prof) (cuda_kernel_events prof)
                ∅ 0 i l (cuda_launch_events_oids prof) Hl) as H.
  now injection H.
Qed.

(** *** The scan for a launch *)

Lemma mapping_trace_lookup (kernels : list KinetoEvent) (launches : list KinetoEvent) :
  forall (last_mapped i : nat) (li : KinetoEvent),
    launches !! i = Some li ->
    mapping_trace launches kernels last_mapped !! i
    = Some (index_of_first_match kernels
              (fun x => linked_correlation_id x =? linked_correlation_id li)
              (fold_left (fun cursor r => match r with Some k => k | None => cursor end)
                 (take i (mapping_trace launches kernels last_mapped)) last_mapped)
              None).
Proof.
  induction launches as [|l rest IH]; intros last_mapped i li Hli;
    [now rewrite lookup_nil in Hli|].
  destruct i as [|i]; simpl in *.
  - now injection Hli as ->.
  - now apply IH.
Qed.

Lemma last_matched_trace (prof : profile) (i : nat) :
  last_matched (kernel_mapping prof) (take i (cuda_launch_events prof))
  = fold_left (fun cursor r => match r with Some k => k | None => cursor end)
      (take i (mapping_trace (cuda_launch_events prof) (cuda_kernel_events prof) 0))
      0%nat.
Proof.
  unfold last_matched.
  assert (H : Forall2 (fun l r => kernel_mapping prof !! oid l = Some r)
                (cuda_launch_events prof)
                (mapping_trace (cuda_launch_events prof) (cuda_kernel_events prof) 0)).
  { apply Forall2_same_length_lookup_2.
    - symmetry. apply mapping_trace_length.
    - intros j x y Hx Hy. now rewrite (kernel_mapping_trace prof j x Hx). }
  apply (Forall2_take _ _ _ i) in H. revert H.
  generalize (take i (cuda_launch_events prof)).
  generalize (take i (mapping_trace (cuda_launch_events prof)
                        (cuda_kernel_events prof) 0)).
  generalize 0%nat.
  intros c T L H. revert c. induction H as [|l r L T Hlr H IH]; intros c; simpl;
    [reflexivity|].
  rewrite Hlr. apply IH.
Qed.

(** The entry of a launch is what the scan from the cursor finds. *)
Lemma kernel_mapping_scan (prof : profile) (i : nat) (li : KinetoEvent) :
  cuda_launch_events prof !! i = Some li ->
  let kernels := cuda_kernel_events prof in
  let cursor := last_matched (kernel_mapping prof) (take i (cuda_launch_events prof)) in
  match kernel_mapping prof !! oid li with
  | Some (Some k) =>
      (cursor <= k)%nat /\
      (exists x, kernels !! k = Some x /\
                 linked_correlation_id x = linked_correlation_id li) /\
      (forall j y, (cursor <= j < k)%nat -> kernels !! j = Some y ->
                   linked_correlation_id y <> linked_correlation_id li)
  | Some None =>
      forall j y, (cursor <= j)%nat -> kernels !! j = Some y ->
                  linked_correlation_id y <> linked_correlation_id li
  | None => False
  end.
Proof.
  intros Hli kernels cursor.
  rewrite (kernel_mapping_trace prof i li Hli).
  rewrite (mapping_trace_lookup _ _ 0 i li Hli).
  rewrite <- last_matched_trace. fold cursor. fold kernels.
  pose proof (index_of_first_match_spec kernels
                (fun x => linked_correlation_id x =? linked_correlation_id li)
                cursor None) as Hspec.
  cbv zeta in Hspec.
  destruct (index_of_first_match kernels _ cursor None) as [k|].
  - destruct Hspec as (Hrange & (x & Hx & Hp) & Hbefore).
    split; [lia|]. split.
    + exists x. split; [exact Hx|]. now apply Z.eqb_eq.
    + intros j y Hj Hy. apply Z.eqb_neq. now apply (Hbefore j y).
  - intros j y Hj Hy. apply Z.eqb_neq. apply (Hspec j y); [|exact Hy].
    apply lookup_lt_Some in Hy. lia.
Qed.

(** C3, as the code has it. The launches are taken in the order of their
    starts and the kernels are scanned in the order of their starts. Every
    launch gets an entry: the first kernel with the correlation identifier
    of the launch at or after the cursor, which is the kernel matched last
    (that kernel included, the first kernel when none was matched), or
    [None] when no kernel from the cursor on has the identifier. So a
    mapped kernel has the correlation identifier of its launch, and two
    launches with different correlation identifiers that both map to a
    kernel map to different kernels. *)
Theorem kernel_mapping_first_from_cursor (prof : profile) (i : nat)
    (li : KinetoEvent) :
  cuda_launch_events prof !! i = Some li ->
  let kernels := cuda_kernel_events prof in
  let cursor := last_matched (kernel_mapping prof) (take i (cuda_launch_events prof)) in
  nondecreasing start_us (cuda_launch_events prof) /\
  nondecreasing start_us kernels /\
  match kernel_mapping prof !! oid li with
  | Some (Some k) =>
      (cursor <= k)%nat /\
      (exists x, kernels !! k = Some x /\
                 linked_correlation_id x = linked_correlation_id li) /\
      (forall j y, (cursor <= j < k)%nat -> kernels !! j = Some y ->
                   linked_correlation_id y <> linked_correlation_id li)
  | Some None =>
      forall j y, (cursor <= j)%nat -> kernels !! j = Some y ->
                  linked_correlation_id y <> linked_correlation_id li
  | None => False
  end /\
  (forall j lj k kj,
     cuda_launch_events prof !! j = Some lj ->
     linked_correlation_id li <> linked_correlation_id lj ->
     kernel_mapping prof !! oid li = Some (Some k) ->
     kernel_mapping prof !! oid lj = Some (Some kj) ->
     k <> kj).
Proof.
  intros Hli kernels cursor.
  split; [apply sorted_nondecreasing|]. split; [apply sorted_nondecreasing|].
  split; [exact (kernel_mapping_scan prof i li Hli)|].
  intros j lj k kj Hlj Hne Hk Hkj ->.
  pose proof (kernel_mapping_scan prof i li Hli) as Hi.
  pose proof (kernel_mapping_scan prof j lj Hlj) as Hj.
  cbv zeta in Hi, Hj. rewrite Hk in Hi. rewrite Hkj in Hj.
  destruct Hi as (_ & (x & Hx & Hcx) & _). destruct Hj as (_ & (y & Hy & Hcy) & _).
  rewrite Hx in Hy. injection Hy as <-. congruence.
Qed.

Lemma kernel_mapping_first_from_cursor_witness :
  let prof :=
    mkProfile [] [launch 0 5; launch 1 7; launch 2 7;
                  kernel 5 5; kernel 6 7; kernel 7 7] in
  let li := mkKinetoEvent 2 "cudaLaunchKernel" CPU 2 1 7 in
  last_matched (kernel_mapping prof) (take 2 (cuda_launch_events prof)) = 1%nat /\
  kernel_mapping prof !! oid li = Some (Some 1%nat) /\
  (exists x, cuda_kernel_events prof !! 1%nat = Some x /\
             linked_correlation_id x = linked_correlation_id li) /\
  (forall j y, (1 <= j < 1)%nat -> cuda_kernel_events prof !! j = Some y ->
               linked_correlation_id y <> linked_correlation_id li).
Proof.
  cbv zeta.
  set (prof := mkProfile [] [launch 0 5; launch 1 7; launch 2 7;
                             kernel 5 5; kernel 6 7; kernel 7 7]).
  set (li := mkKinetoEvent 2 "cudaLaunchKernel" CPU 2 1 7).
  pose proof (kernel_mapping_first_from_cursor prof 2 li eq_refl) as H.
  cbv zeta in H. destruct H as (_ & _ & H & _).
  assert (Hc : last_matched (kernel_mapping prof) (take 2 (cuda_launch_events prof))
               = 1%nat) by (vm_compute; reflexivity).
  assert (Hk : kernel_mapping prof !! oid li = Some (Some 1%nat))
    by (vm_compute; reflexivity).
  rewrite Hk, Hc in H. destruct H as (_ & Hx & Hbefore).
  split; [exact Hc|]. split; [exact Hk|]. split; [exact Hx|exact Hbefore].
Defined.

(** The cursor never moves back: the kernels that launches are matched to
    follow the order of the launches, and each is a kernel of the list. *)
Theorem kernel_mapping_monotone (prof : profile) (i j : nat)
    (li lj : KinetoEvent) (ki kj : nat) :
  (i <= j)%nat ->
  cuda_launch_events prof !! i = Some li ->
  cuda_launch_events prof !! j = Some lj ->
  kernel_mapping prof !! oid li = Some (Some ki) ->
  kernel_mapping prof !! oid lj = Some (Some kj) ->
  (ki <= kj)%nat /\ (kj < length (cuda_kernel_events prof))%nat.
Proof.
  intros Hij Hli Hlj Hki Hkj.
  rewrite (kernel_mapping_trace prof i li Hli) in Hki.
  rewrite (kernel_mapping_trace prof j lj Hlj) in Hkj.
  destruct (mapping_trace_monotone _ _ _ _ _ _ _ Hij Hki Hkj) as (_ & H2 & H3).
  now split.
Qed.

Lemma kernel_mapping_monotone_witness :
  (1 <= 3)%nat /\ (3 < length (cuda_kernel_events burst_profile))%nat.
Proof.
  apply (kernel_mapping_monotone burst_profile 1 3
           (mkKinetoEvent 1 "cudaLaunchKernel" CPU 1 1 2)
           (mkKinetoEvent 3 "cudaLaunchKernel" CPU 3 1 4) 1 3);
    try (vm_compute; reflexivity). lia.
Defined.

(** A launch for which a kernel with its correlation identifier lies at or
    after every kernel matched to an earlier launch is matched, and to a
    kernel that is not after that one: the scan starts at the cursor and
    stops at the first kernel with the identifier. *)
Theorem kernel_mapping_nearest (prof : profile) (i k' : nat) (li x : KinetoEvent) :
  cuda_launch_events prof !! i = Some li ->
  cuda_kernel_events prof !! k' = Some x ->
  linked_correlation_id x = linked_correlation_id li ->
  (forall j lj kj, (j < i)%nat ->
     cuda_launch_events prof !! j = Some lj ->
     kernel_mapping prof !! oid lj = Some (Some kj) ->
     (kj <= k')%nat) ->
  exists ki, kernel_mapping prof !! oid li = Some (Some ki) /\ (ki <= k')%nat.
Proof.
  intros Hli Hx Hc Hprev.
  rewrite (kernel_mapping_trace prof i li Hli).
  pose proof (mapping_trace_length (cuda_launch_events prof)
                (cuda_kernel_events prof) 0) as Hlen.
  destruct (mapping_trace (cuda_launch_events prof) (cuda_kernel_events prof) 0 !! i)
    as [r|] eqn:Hr.
  2:{ apply lookup_ge_None in Hr. apply lookup_lt_Some in Hli. lia. }
  destruct (mapping_trace_nearest _ _ 0 i k' li x r Hli Hr Hx Hc) as (ki & -> & Hle).
  - lia.
  - intros j kj Hj Hkj.
    assert (Hjl : (j < length (cuda_launch_events prof))%nat).
    { apply lookup_lt_Some in Hli. lia. }
    destruct (lookup_lt_is_Some_2 _ _ Hjl) as [lj Hlj].
    apply (Hprev j lj kj Hj Hlj). now rewrite (kernel_mapping_trace prof j lj Hlj).
  - exists ki. split; [reflexivity|exact Hle].
Qed.

Lemma kernel_mapping_nearest_witness :
  exists ki,
    kernel_mapping burst_profile
      !! oid (mkKinetoEvent 2 "cudaLaunchKernel" CPU 2 1 3) = Some (Some ki) /\
    (ki <= 2)%nat.
Proof.
  apply (kernel_mapping_nearest burst_profile 2 2
           (mkKinetoEvent 2 "cudaLaunchKernel" CPU 2 1 3)
           (mkKinetoEvent 7 "volta_sgemm" CUDA 12 2 3));
    try (vm_compute; reflexivity).
  intros j lj kj Hj Hlj Hkj.
  destruct j as [|[|j]]; [| |lia]; vm_compute in Hlj; injection Hlj as <-;
    vm_compute in Hkj; injection Hkj as <-; lia.
Defined.

(** ** The value of [intervals_overlap] *)

Lemma add_overlap_span e i acc :
  add_overlap e i acc = acc + span_overlap e (start i) (end_ i).
Proof.
  unfold add_overlap, span_overlap.
  destruct (Z.ltb_spec (Z.max (start_time_ns e) (start i))
                       (Z.min (end_time_ns e) (end_ i))); lia.
Qed.

Lemma overlap_loop_value e intervals :
  forall h acc,
    NoDup intervals ->
    allocated h intervals ->
    fst (overlap_loop e h intervals acc)
    = acc + clipped_overlap e (map (deref h) intervals).
Proof.
  induction intervals as [|l rest IH]; intros h acc Hnd Hal; [simpl; lia|].
  apply NoDup_cons in Hnd as [Hl Hnd]. rewrite list_elem_of_In in Hl.
  inversion Hal as [|? ? Hlt Hal']; subst.
  change (overlap_loop e h (l :: rest) acc)
    with (overlap_loop e (clip h l rest) rest
            (add_overlap e (deref (clip h l rest) l) acc)).
  rewrite IH; [|exact Hnd|unfold allocated; now rewrite clip_length].
  assert (Hrest : map (deref (clip h l rest)) rest = map (deref h) rest).
  { apply map_ext_in. intros l' Hl'. apply deref_clip_other. intros ->. contradiction. }
  rewrite Hrest, add_overlap_span.
  destruct (deref_clip_self h l rest Hlt) as [Hs He]. rewrite Hs, He.
  simpl. destruct rest as [|next rest]; simpl; lia.
Qed.

Lemma span_overlap_nonneg e s t : 0 <= span_overlap e s t.
Proof. unfold span_overlap. lia. Qed.

Lemma clipped_overlap_nonneg e l : 0 <= clipped_overlap e l.
Proof.
  induction l as [|i rest IH]; simpl; [lia|].
  pose proof (span_overlap_nonneg e (start i)
                (match rest with i' :: _ => Z.min (end_ i) (start i') | [] => end_ i end)).
  lia.
Qed.

(** On intervals that are different objects, [intervals_overlap] returns the
    overlap of the event's span with the intervals taken in start order,
    each cut at the start of the next: a sum of lengths, none negative. *)
Theorem intervals_overlap_value (self : EventKey) (h : store) (intervals : list loc) :
  NoDup intervals ->
  allocated h intervals ->
  fst (intervals_overlap self h intervals)
  = clipped_overlap (event self)
      (map (deref h) (sorted (fun l => start (deref h l)) intervals)) /\
  0 <= fst (intervals_overlap self h intervals).
Proof.
  intros Hnd Hal.
  assert (H : fst (intervals_overlap self h intervals)
              = clipped_overlap (event self)
                  (map (deref h) (sorted (fun l => start (deref h l)) intervals))).
  { unfold intervals_overlap. rewrite overlap_loop_value; [lia| |].
    - now rewrite (sorted_perm (fun l => start (deref h l)) intervals).
    - unfold allocated in *. rewrite Forall_forall in *. intros l Hl.
      apply Hal. now rewrite <- (sorted_perm (fun l => start (deref h l)) intervals). }
  split; [exact H|]. rewrite H. apply clipped_overlap_nonneg.
Qed.

Lemma intervals_overlap_value_witness :
  let self := mkEventKey (ev 1 10 120 []) in
  let h := [Interval2 50 150; Interval2 0 100] in
  fst (intervals_overlap self h [0; 1]%nat)
  = clipped_overlap (event self)
      (map (deref h) (sorted (fun l => start (deref h l)) [0; 1]%nat)) /\
  0 <= fst (intervals_overlap self h [0; 1]%nat).
Proof.
  apply intervals_overlap_value.
  - repeat constructor; rewrite list_elem_of_In; simpl; intuition discriminate.
  - repeat constructor.
Defined.

(** Whatever the list holds, the overlap is not negative. *)
Lemma overlap_loop_nonneg e intervals :
  forall h acc, acc <= fst (overlap_loop e h intervals acc).
Proof.
  induction intervals as [|l rest IH]; intros h acc; simpl; [lia|].
  etransitivity; [|apply IH]. rewrite add_overlap_span.
  pose proof (span_overlap_nonneg e (start (deref (clip h l rest) l))
                (end_ (deref (clip h l rest) l))). lia.
Qed.

Lemma intervals_overlap_nonneg self h intervals :
  0 <= fst (intervals_overlap self h intervals).
Proof. unfold intervals_overlap. apply overlap_loop_nonneg. Qed.

(** ** The metrics at the end of [__init__] *)

(** The run of [__init__] on a forest with pairwise different identifiers,
    stage by stage. *)
Lemma BasicEvaluation_init_stages (prof : profile) :
  NoDup (map id (forest_nodes (experimental_event_tree prof))) ->
  exists order,
    Permutation order (forest_nodes (experimental_event_tree prof)) /\
    let metrics0 := map entry order in
    let event_keys := sorted (fun x => start_time_ns (event x)) (Dict.keys metrics0) in
    let events := map event event_keys in
    let qd := compute_queue_depth prof events metrics0 in
    BasicEvaluation_init prof
    = Ok (mkBasicEvaluation prof (compute_idle_time (fst qd) events (snd qd))
            event_keys events
            (sorted start_us (cuda_launch_events prof ++ cuda_kernel_events prof))
            (fst qd)).
Proof.
  intros Hnd.
  destruct (compute_self_time_shape _ Hnd) as (order & Horder & Hrun).
  exists order. split; [exact Horder|]. cbv zeta.
  unfold BasicEvaluation_init. rewrite Hrun.
  now destruct (compute_queue_depth prof _ (map entry order)).
Qed.

Lemma idle_loop_Forall (P : EventKey * EventMetrics -> Prop) (V : Z -> Prop)
    event_list intervals :
  (forall k h, V (fst (intervals_overlap k h intervals))) ->
  (forall k r v, V v -> P (k, r) -> P (k, set_idle_time_ns v r)) ->
  forall h metrics,
    Forall P metrics ->
    Dict.keys (fst (idle_loop event_list h intervals metrics)) = Dict.keys metrics /\
    Forall P (fst (idle_loop event_list h intervals metrics)).
Proof.
  intros HV HP. induction event_list as [|e rest IH]; intros h metrics Hm;
    [split; [reflexivity|exact Hm]|].
  simpl. pose proof (HV (mkEventKey e) h) as Hov.
  destruct (intervals_overlap (mkEventKey e) h intervals) as [overlap h'].
  simpl in Hov.
  destruct (IH h' (Dict.update metrics (mkEventKey e) (set_idle_time_ns overlap)))
    as [Hkeys Hfin].
  - apply Dict_update_Forall; [exact Hm|]. intros k' r _ _. now apply HP.
  - split; [|exact Hfin]. rewrite Hkeys. apply Dict_keys_update.
Qed.

(** The keys and the records at the end of [__init__]. *)
Lemma BasicEvaluation_init_keys (prof : profile) :
  NoDup (map id (forest_nodes (experimental_event_tree prof))) ->
  exists order be,
    Permutation order (forest_nodes (experimental_event_tree prof)) /\
    BasicEvaluation_init prof = Ok be /\
    Dict.keys (metrics be) = map mkEventKey order /\
    event_keys be = sorted (fun x => start_time_ns (event x)) (map mkEventKey order) /\
    be_events be = map event (event_keys be) /\
    Forall settled_entry (metrics be).
Proof.
  intros Hnd.
  destruct (BasicEvaluation_init_stages prof Hnd) as (order & Horder & Hrun).
  cbv zeta in Hrun. exists order. eexists. split; [exact Horder|].
  split; [exact Hrun|]. cbn [metrics event_keys be_events].
  assert (Hk0 : Dict.keys (map entry order) = map mkEventKey order).
  { unfold Dict.keys. now rewrite map_map. }
  rewrite Hk0.
  set (metrics0 := map entry order) in *.
  set (events := map event (sorted _ (map mkEventKey order))) in *.
  pose proof (compute_queue_depth_metrics
                (fun d => Dict.keys d = Dict.keys metrics0 /\ Forall settled_entry d)
                prof events metrics0) as Hq.
  destruct Hq as [Hkeys1 Hset1].
  { intros d k v [Hk Hf]. split; [now rewrite Dict_keys_update|].
    apply Dict_update_Forall; [exact Hf|]. intros k' r _ _ H. exact H. }
  { split; [reflexivity|]. apply Forall_forall. intros kr Hkr.
    rewrite list_elem_of_In in Hkr. apply in_map_iff in Hkr as (e & <- & _).
    repeat split. simpl. lia. }
  set (qd := compute_queue_depth prof events metrics0) in *.
  unfold compute_idle_time. cbv zeta.
  destruct (idle_loop_Forall settled_entry (fun v => 0 <= v)
              (map event (Dict.keys (snd qd)))
              (seq 0 (length (idle_intervals (fst qd) events)))
              ltac:(intros k h; apply intervals_overlap_nonneg)
              ltac:(intros k r v Hv (H1 & H2 & H3); repeat split; assumption)
              (idle_intervals (fst qd) events) (snd qd) Hset1)
    as [Hkeysf Hsetf].
  split; [|split; [reflexivity|split; [reflexivity|exact Hsetf]]].
  now rewrite Hkeysf, Hkeys1.
Qed.

(** [compute_queue_depth] and [compute_idle_time] add no key to the metrics
    and remove none, and they write the queue depth and the idle time only:
    at the end of [__init__] every event of the forest has the duration and
    the self time that [compute_self_time] recorded, and an idle time that
    is not negative. *)
Theorem final_metrics_keep_self_time (prof : profile) :
  NoDup (map id (forest_nodes (experimental_event_tree prof))) ->
  exists be,
    BasicEvaluation_init prof = Ok be /\
    Permutation (map event (Dict.keys (metrics be)))
                (forest_nodes (experimental_event_tree prof)) /\
    forall e, In e (forest_nodes (experimental_event_tree prof)) ->
      exists r,
        Dict.get (metrics be) (mkEventKey e) = Some r /\
        m_duration_time_ns r = duration_time_ns e /\
        self_time_ns r
          = duration_time_ns e - sum_Z (map duration_time_ns (children e)) /\
        0 <= idle_time_ns r.
Proof.
  intros Hnd.
  destruct (BasicEvaluation_init_keys prof Hnd)
    as (order & be & Horder & Hrun & Hk & _ & _ & Hset).
  exists be. split; [exact Hrun|]. split.
  - rewrite Hk, map_map. simpl. now rewrite map_id.
  - intros e He.
    assert (Hin : In (mkEventKey e) (Dict.keys (metrics be))).
    { rewrite Hk. apply in_map. eapply Permutation_in; [symmetry; exact Horder|exact He]. }
    unfold Dict.keys in Hin. apply in_map_iff in Hin as ([k r] & Heq & Hin).
    simpl in Heq. subst k. exists r. split.
    + apply Dict_get_In; [|exact Hin]. unfold key_ids. rewrite Hk, map_map. simpl.
      rewrite (Permutation_map id Horder). exact Hnd.
    + rewrite Forall_forall in Hset.
      destruct (Hset (mkEventKey e, r)) as (H1 & H2 & H3).
      { now rewrite list_elem_of_In. }
      simpl in *. rewrite <- self_time_of_sum. auto.
Qed.

Lemma final_metrics_keep_self_time_witness :
  exists be,
    BasicEvaluation_init burst_profile = Ok be /\
    Permutation (map event (Dict.keys (metrics be)))
                (forest_nodes (experimental_event_tree burst_profile)) /\
    forall e, In e (forest_nodes (experimental_event_tree burst_profile)) ->
      exists r,
        Dict.get (metrics be) (mkEventKey e) = Some r /\
        m_duration_time_ns r = duration_time_ns e /\
        self_time_ns r
          = duration_time_ns e - sum_Z (map duration_time_ns (children e)) /\
        0 <= idle_time_ns r.
Proof.
  apply final_metrics_keep_self_time.
  vm_compute. repeat constructor; rewrite list_elem_of_In; simpl; intuition discriminate.
Defined.

Lemma nondecreasing_map {A B} (key : B -> Z) (f : A -> B) (l : list A) :
  nondecreasing (fun x => key (f x)) l -> nondecreasing key (map f l).
Proof.
  induction l as [|x l IH]; [trivial|]. destruct l as [|y l]; [trivial|].
  intros [Hxy Hl]. split; [exact Hxy|]. now apply IH.
Qed.

(** [self.events] holds the events of the forest, each once, in the order of
    their start times; [self.event_keys] are their keys, which are the keys
    of the metrics. *)
Theorem events_sorted_by_start (prof : profile) :
  NoDup (map id (forest_nodes (experimental_event_tree prof))) ->
  exists be,
    BasicEvaluation_init prof = Ok be /\
    be_events be = map event (event_keys be) /\
    Permutation (event_keys be) (Dict.keys (metrics be)) /\
    Permutation (be_events be) (forest_nodes (experimental_event_tree prof)) /\
    nondecreasing start_time_ns (be_events be).
Proof.
  intros Hnd.
  destruct (BasicEvaluation_init_keys prof Hnd)
    as (order & be & Horder & Hrun & Hk & Hek & Hev & _).
  exists be. split; [exact Hrun|]. split; [exact Hev|].
  rewrite Hev, Hek, Hk. split; [apply sorted_perm|]. split.
  - rewrite (Permutation_map event (sorted_perm _ _)), map_map. simpl.
    now rewrite map_id.
  - apply nondecreasing_map. apply sorted_nondecreasing.
Qed.

Lemma events_sorted_by_start_witness :
  exists be,
    BasicEvaluation_init burst_profile = Ok be /\
    be_events be = map event (event_keys be) /\
    Permutation (event_keys be) (Dict.keys (metrics be)) /\
    Permutation (be_events be) (forest_nodes (experimental_event_tree burst_profile)) /\
    nondecreasing start_time_ns (be_events be).
Proof.
  apply events_sorted_by_start.
  vm_compute. repeat constructor; rewrite list_elem_of_In; simpl; intuition discriminate.
Defined.

(** ** Timelines without a drain pattern *)

Lemma lookup_total_In (l : list Z) (i : nat) : (i < length l)%nat -> In (l !!! i) l.
Proof.
  intros Hi. rewrite <- list_elem_of_In. eapply list_elem_of_lookup_2.
  now apply list_lookup_lookup_total_lt.
Qed.

Lemma find_window_flat queue_depth_list qd_values i js :
  (i < length qd_values)%nat ->
  (forall a b, In a qd_values -> In b qd_values -> a - b <= 3) ->
  find_window queue_depth_list qd_values i js = None.
Proof.
  intros Hi Hflat. induction js as [|j js IH]; simpl; [reflexivity|].
  destruct (qd_values !!! j <=? 1); [|exact IH].
  pose proof (argmax_spec qd_values (i + 1) (Some j)) as Hspec.
  cbv zeta in Hspec.
  destruct (argmax qd_values (i + 1) (Some j)) as [peak_idx|]; [|exact IH].
  destruct Hspec as (Hrange & _).
  assert (Hp : (peak_idx < length qd_values)%nat) by lia.
  pose proof (Hflat _ _ (lookup_total_In _ _ Hp) (lookup_total_In _ _ Hi)) as Hle.
  destruct (Z.gtb_spec (qd_values !!! peak_idx - qd_values !!! i) 3); [lia|exact IH].
Qed.

Lemma decrease_interval_flat (queue_depth_list : list Interval) :
  (forall a b, In a queue_depth_list -> In b queue_depth_list ->
               i_queue_depth a - i_queue_depth b <= 3) ->
  decrease_interval_of queue_depth_list = [].
Proof.
  intros Hflat. unfold decrease_interval_of. cbv zeta.
  set (qdl := rev queue_depth_list). set (qd := qd_values_of qdl).
  assert (Hqd : forall a b, In a qd -> In b qd -> a - b <= 3).
  { intros a b Ha Hb. unfold qd, qd_values_of, qdl in *.
    apply in_map_iff in Ha as (x & <- & Hx). apply in_map_iff in Hb as (y & <- & Hy).
    apply Hflat; now apply in_rev. }
  assert (Hturn : forall i, In i (seq 0 (length qd - 1)) ->
            forall d, fst (scan_turn qdl qd d i) = d).
  { intros i Hin d. apply in_seq in Hin. unfold scan_turn.
    rewrite find_window_flat; [|lia|exact Hqd]. now destruct (_ <=? _). }
  revert Hturn. generalize (seq 0 (length qd - 1)). intros l Hl.
  induction l as [|i l IH]; simpl; [reflexivity|].
  rewrite Hl by now left. apply IH. intros j Hj. apply Hl. now right.
Qed.


Lemma filter_overlapping_nil keys : forall h, fst (filter_overlapping keys h []) = [].
Proof.
  induction keys as [|k keys IH]; intros h; simpl; [reflexivity|].
  specialize (IH h). destruct (filter_overlapping keys h []) as [kept h'].
  simpl in *. exact IH.
Qed.

Lemma flat_timeline_no_survivors (be : BasicEvaluation) :
  (forall a b, In a (queue_depth_list be) -> In b (queue_depth_list be) ->
               i_queue_depth a - i_queue_depth b <= 3) ->
  survivors be = [].
Proof.
  intros Hflat. unfold survivors. rewrite (decrease_interval_flat _ Hflat).
  simpl. apply filter_overlapping_nil.
Qed.

(** The threshold of the scan: when no two depths of the timeline differ by
    more than 3 (in particular when the timeline is empty), there is no
    decrease interval, no event survives the filter, and [rank_events] and
    [get_optimizable_events] return the empty list for every [length]. *)
Theorem no_drain_no_candidates (be : BasicEvaluation) :
  (forall a b, In a (queue_depth_list be) -> In b (queue_depth_list be) ->
               i_queue_depth a - i_queue_depth b <= 3) ->
  decrease_interval_of (queue_depth_list be) = [] /\
  survivors be = [] /\
  forall length print_enable,
    rank_events be length = [] /\
    returned (get_optimizable_events be length print_enable) = [].
Proof.
  intros Hflat. pose proof (decrease_interval_flat _ Hflat) as Hd.
  pose proof (flat_timeline_no_survivors be Hflat) as Hs.
  split; [exact Hd|]. split; [exact Hs|]. intros n pe.
  assert (Hr : rank_events be n = []) by (unfold rank_events; now rewrite Hs).
  split; [exact Hr|]. unfold get_optimizable_events. now rewrite Hr.
Qed.

Lemma no_drain_no_candidates_witness :
  let be := evaluation device_only_profile in
  decrease_interval_of (queue_depth_list be) = [] /\
  survivors be = [] /\
  forall length print_enable,
    rank_events be length = [] /\
    returned (get_optimizable_events be length print_enable) = [].
Proof.
  apply no_drain_no_candidates.
  intros a b Ha Hb. vm_compute in Ha. vm_compute in Hb.
  destruct Ha as [<-|[<-|[]]], Hb as [<-|[<-|[]]]; simpl; lia.
Defined.

(** ** Traces without device events *)

Lemma sweep_host_only (P : EventKey * EventMetrics -> Prop) km evs :
  (forall k r, P (k, r) -> P (k, set_queue_depth 0 r)) ->
  Forall (fun ev => exists e, ev = Profiler e) evs ->
  forall st,
    current_kernel_index st = 0%nat ->
    spawned_kernel_index st = -1 ->
    Forall P (sw_metrics st) ->
    let st' := fold_left (sweep_step [] km) evs st in
    sw_queue_depth_list st' = sw_queue_depth_list st /\
    Dict.keys (sw_metrics st') = Dict.keys (sw_metrics st) /\
    Forall P (sw_metrics st').
Proof.
  intros HP Hevs. induction Hevs as [|ev evs [e ->] _ IH]; intros st Hc Hs Hm;
    [simpl; auto|].
  cbn [fold_left]. cbv zeta in IH.
  set (st1 := sweep_step [] km st (Profiler e)).
  assert (H1 : st1 = mkSweep 0 (-1) (sw_queue_depth_list st)
                 (Dict.update (sw_metrics st) (mkEventKey e) (set_queue_depth 0))).
  { unfold st1, sweep_step. rewrite Hc, Hs. reflexivity. }
  destruct (IH st1) as (Hq & Hk & Hf).
  - now rewrite H1.
  - now rewrite H1.
  - rewrite H1. simpl. apply Dict_update_Forall; [exact Hm|].
    intros k' r _ _. apply HP.
  - fold st1. rewrite Hq, Hk. split; [|split; [|exact Hf]];
      rewrite H1; simpl; [reflexivity|apply Dict_keys_update].
Qed.

(** With no launch and no kernel among the events of the profiler, the
    queue-depth timeline is empty, every host event has the queue depth 0
    and the idle time 0, and no event is reported for optimization. *)
Theorem no_device_events (prof : profile) :
  NoDup (map id (forest_nodes (experimental_event_tree prof))) ->
  cuda_launch_events prof = [] ->
  cuda_kernel_events prof = [] ->
  exists be,
    BasicEvaluation_init prof = Ok be /\
    queue_depth_list be = [] /\
    (forall e, In e (forest_nodes (experimental_event_tree prof)) ->
       exists r,
         Dict.get (metrics be) (mkEventKey e) = Some r /\
         queue_depth r = 0 /\ idle_time_ns r = 0) /\
    forall length print_enable,
      returned (get_optimizable_events be length print_enable) = [].
Proof.
  intros Hnd Hl Hk.
  destruct (BasicEvaluation_init_keys prof Hnd)
    as (order & be & Horder & Hrun & Hkeys & _ & _ & _).
  destruct (BasicEvaluation_init_stages prof Hnd) as (order' & _ & Hrun').
  cbv zeta in Hrun'.
  set (metrics0 := map entry order') in *.
  set (events := map event (sorted _ (Dict.keys metrics0))) in *.
  assert (Hsweep : fst (compute_queue_depth prof events metrics0) = [] /\
                   Forall quiet_entry (snd (compute_queue_depth prof events metrics0))).
  { unfold compute_queue_depth. cbv zeta. rewrite Hl, Hk. simpl app.
    destruct (sweep_host_only quiet_entry (kernel_mapping prof)
                (sorted new_old_event_comparator (map Profiler events))
                ltac:(intros k r [_ H]; split; [reflexivity|exact H]))
      with (st := mkSweep 0 (-1) [] metrics0) as (Hq & _ & Hf).
    - apply Forall_forall. intros ev Hev. rewrite list_elem_of_In in Hev.
      eapply Permutation_in in Hev; [|apply sorted_perm].
      apply in_map_iff in Hev as (e & <- & _). eauto.
    - reflexivity.
    - reflexivity.
    - apply Forall_forall. intros kr Hkr. rewrite list_elem_of_In in Hkr.
      apply in_map_iff in Hkr as (e & <- & _). split; reflexivity.
    - simpl. split; [exact Hq|exact Hf]. }
  destruct Hsweep as [Hqdl Hquiet].
  remember (compute_queue_depth prof events metrics0) as qd eqn:Hqd.
  rewrite Hrun in Hrun'.
  assert (Hq : queue_depth_list be = fst qd).
  { apply (f_equal (fun r => match r with Ok b => queue_depth_list b | _ => [] end)) in Hrun'.
    exact Hrun'. }
  assert (Hmb : metrics be = compute_idle_time (fst qd) events (snd qd)).
  { apply (f_equal (fun r => match r with Ok b => metrics b | _ => [] end)) in Hrun'.
    exact Hrun'. }
  rewrite Hqdl in Hq.
  assert (Hm : Forall quiet_entry (metrics be)).
  { rewrite Hmb. unfold compute_idle_time. cbv zeta.
    rewrite Hqdl. change (idle_intervals [] events) with (@nil Interval). simpl seq.
    apply (idle_loop_Forall quiet_entry (fun v => v = 0)); [reflexivity| |exact Hquiet].
    intros k r v -> [H _]. split; [exact H|reflexivity]. }
  exists be. split; [exact Hrun|]. split; [exact Hq|]. split.
  - intros e He.
    assert (Hin : In (mkEventKey e) (Dict.keys (metrics be))).
    { rewrite Hkeys. apply in_map. eapply Permutation_in; [symmetry; exact Horder|exact He]. }
    unfold Dict.keys in Hin. apply in_map_iff in Hin as ([k r] & Heq & Hin).
    simpl in Heq. subst k. exists r. split.
    + apply Dict_get_In; [|exact Hin]. unfold key_ids. rewrite Hkeys, map_map. simpl.
      rewrite (Permutation_map id Horder). exact Hnd.
    + rewrite Forall_forall in Hm. apply (Hm (mkEventKey e, r)).
      now rewrite list_elem_of_In.
  - intros n pe.
    assert (Hs : survivors be = [])
      by (apply flat_timeline_no_survivors; rewrite Hq; intros a b []).
    unfold get_optimizable_events, rank_events. now rewrite Hs.
Qed.

Lemma no_device_events_witness :
  let prof := mkProfile [ev 1 0 100 [ev 2 10 20 []]] [("aten::add"%string, CPU, 0, 5, 0)] in
  exists be,
    BasicEvaluation_init prof = Ok be /\
    queue_depth_list be = [] /\
    (forall e, In e (forest_nodes (experimental_event_tree prof)) ->
       exists r,
         Dict.get (metrics be) (mkEventKey e) = Some r /\
         queue_depth r = 0 /\ idle_time_ns r = 0) /\
    forall length print_enable,
      returned (get_optimizable_events be length print_enable) = [].
Proof.
  apply no_device_events.
  - vm_compute. repeat constructor; rewrite list_elem_of_In; simpl; intuition discriminate.
  - reflexivity.
  - reflexivity.
Defined.

(** ** The queue-depth timeline *)

Section OrderedFacts.
Context {A : Type} (key : A -> Z).

Lemma insert_by_Forall (P : A -> Prop) x l :
  P x -> Forall P l -> Forall P (insert_by key x l).
Proof.
  intros Hx Hl. induction Hl as [|y l Hy Hl IH]; simpl; [now constructor|].
  destruct (key x <=? key y); constructor; auto.
Qed.

Lemma insert_by_ordered x l : ordered key l -> ordered key (insert_by key x l).
Proof.
  induction l as [|y l IH]; simpl; [intros _; split; [constructor|exact I]|].
  intros [Hy Hl]. destruct (Z.leb_spec (key x) (key y)) as [Hxy|Hxy]; simpl.
  - split; [|split; assumption]. constructor; [exact Hxy|].
    eapply Forall_impl; [exact Hy|]. intros z Hz. simpl in Hz. lia.
  - split; [|now apply IH]. apply insert_by_Forall; [lia|exact Hy].
Qed.

Lemma sorted_ordered l : ordered key (sorted key l).
Proof.
  induction l as [|x l IH]; simpl; [exact I|]. now apply insert_by_ordered.
Qed.

Lemma insert_by_head x l :
  Forall (fun y => key x <= key y) l -> insert_by key x l = x :: l.
Proof.
  intros H. destruct H as [|y l' Hy Hl]; simpl; [reflexivity|].
  destruct (Z.leb_spec (key x) (key y)); [reflexivity|lia].
Qed.

Lemma Forall_list_filter (P : A -> Prop) (p : A -> bool) l :
  Forall P l -> Forall P (List.filter p l).
Proof.
  intros H. induction H as [|z l' Hz Hl' IH']; simpl; [constructor|].
  destruct (p z); [constructor|]; assumption.
Qed.

Lemma filter_insert_by (p : A -> bool) x l :
  ordered key l ->
  List.filter p (insert_by key x l)
  = if p x then insert_by key x (List.filter p l) else List.filter p l.
Proof.
  induction l as [|y l IH]; simpl; [now destruct (p x)|]. intros [Hy Hl].
  destruct (Z.leb_spec (key x) (key y)) as [Hxy|Hxy]; simpl.
  - destruct (p x) eqn:Hpx; [|reflexivity].
    symmetry. apply insert_by_head.
    assert (Hall : Forall (fun z => key x <= key z) (y :: l)).
    { constructor; [exact Hxy|]. eapply Forall_impl; [exact Hy|].
      intros z Hz. simpl in Hz. lia. }
    change (Forall (fun z => key x <= key z) (List.filter p (y :: l))).
    now apply Forall_list_filter.
  - rewrite (IH Hl). destruct (p y) eqn:Hpy, (p x) eqn:Hpx; simpl; try reflexivity.
    destruct (Z.leb_spec (key x) (key y)); [lia|reflexivity].
Qed.

(** Filtering a sorted list gives the sorted filtered list: the sort is
    stable. *)
Lemma filter_sorted (p : A -> bool) l :
  List.filter p (sorted key l) = sorted key (List.filter p l).
Proof.
  induction l as [|x l IH]; simpl; [reflexivity|].
  rewrite filter_insert_by by apply sorted_ordered.
  rewrite IH. now destruct (p x).
Qed.

End OrderedFacts.

Lemma sorted_length {A} (key : A -> Z) (l : list A) :
  length (sorted key l) = length l.
Proof. apply Permutation_length, sorted_perm. Qed.

Lemma sorted_map {A B} (key : B -> Z) (f : A -> B) (l : list A) :
  sorted key (map f l) = map f (sorted (fun x => key (f x)) l).
Proof.
  induction l as [|x l IH]; simpl; [reflexivity|]. rewrite IH.
  generalize (sorted (fun x => key (f x)) l). intros s.
  induction s as [|y s IHs]; simpl; [reflexivity|].
  destruct (key (f x) <=? key (f y)); simpl; [reflexivity|]. now rewrite IHs.
Qed.

Lemma sorted_same_order {A} (key1 key2 : A -> Z) (l : list A) :
  (forall x y, (key1 x <=? key1 y) = (key2 x <=? key2 y)) ->
  sorted key1 l = sorted key2 l.
Proof.
  intros H. induction l as [|x l IH]; simpl; [reflexivity|]. rewrite IH.
  generalize (sorted key2 l). intros s.
  induction s as [|y s IHs]; simpl; [reflexivity|]. now rewrite H, IHs.
Qed.

(** *** The kernel cursor *)

Lemma advance_rest (rest : list KinetoEvent) :
  forall c t1 t2,
    t1 <= t2 ->
    (c <= advance rest c t1)%nat /\
    (advance rest c t1 - c <= length rest)%nat /\
    advance (drop (advance rest c t1 - c) rest) (advance rest c t1) t2
    = advance rest c t2.
Proof.
  induction rest as [|k rest IH]; intros c t1 t2 Ht; simpl.
  - rewrite Nat.sub_diag. simpl. repeat split; lia.
  - destruct (Z.leb_spec (start_us k * 1000) t1) as [H1|H1].
    + destruct (IH (S c) t1 t2 Ht) as (Hc & Hl & Hadv).
      split; [lia|]. split; [lia|].
      replace (advance rest (S c) t1 - c)%nat
        with (S (advance rest (S c) t1 - S c)) by lia.
      simpl. rewrite Hadv.
      destruct (Z.leb_spec (start_us k * 1000) t2); [reflexivity|lia].
    + rewrite Nat.sub_diag. simpl. repeat split; lia.
Qed.

(** Moving the cursor to a time and then to a later one is moving it to the
    later one. *)
Lemma advance_compose (kernels : list KinetoEvent) (c : nat) (t1 t2 : Z) :
  t1 <= t2 ->
  let c' := advance (drop c kernels) c t1 in
  advance (drop c' kernels) c' t2 = advance (drop c kernels) c t2.
Proof.
  intros Ht c'. destruct (advance_rest (drop c kernels) c t1 t2 Ht) as (Hc & _ & Hadv).
  fold c' in Hc, Hadv. rewrite drop_drop in Hadv.
  now replace (c + (c' - c))%nat with c' in Hadv by lia.
Qed.

Lemma sweep_step_Profiler kernels km st e :
  sweep_step kernels km st (Profiler e)
  = mkSweep
      (advance (drop (current_kernel_index st) kernels) (current_kernel_index st)
         (start_time_ns e))
      (spawned_kernel_index st) (sw_queue_depth_list st)
      (Dict.update (sw_metrics st) (mkEventKey e)
         (set_queue_depth
            (spawned_kernel_index st
             - Z.of_nat (advance (drop (current_kernel_index st) kernels)
                           (current_kernel_index st) (start_time_ns e)) + 1))).
Proof. reflexivity. Qed.

Lemma sweep_step_Kineto kernels km st e :
  let spawned :=
    match km !! oid e with
    | Some (Some i) => Z.of_nat i
    | _ => spawned_kernel_index st
    end in
  let current :=
    advance (drop (current_kernel_index st) kernels) (current_kernel_index st)
      (start_us e * 1000) in
  sweep_step kernels km st (Kineto e)
  = mkSweep current spawned
      (sw_queue_depth_list st
       ++ [mkInterval (start_us e * 1000) ((start_us e + duration_us e) * 1000)
             (spawned - Z.of_nat current + 1)])
      (sw_metrics st).
Proof. reflexivity. Qed.

(** The host events of the merged timeline move the kernel cursor only to
    where the next device event would move it anyway: the sweep over the
    whole timeline and the sweep over its device events make the same
    intervals. *)
Lemma sweep_skips_hosts kernels km (evs : list AnyEvent) :
  nondecreasing new_old_event_comparator evs ->
  forall st st',
    spawned_kernel_index st = spawned_kernel_index st' ->
    sw_queue_depth_list st = sw_queue_depth_list st' ->
    (current_kernel_index st = current_kernel_index st' \/
     exists t,
       match evs with ev :: _ => t <= new_old_event_comparator ev | [] => True end /\
       current_kernel_index st
       = advance (drop (current_kernel_index st') kernels) (current_kernel_index st') t) ->
    sw_queue_depth_list (fold_left (sweep_step kernels km) evs st)
    = sw_queue_depth_list
        (fold_left (sweep_step kernels km) (List.filter is_kineto evs) st').
Proof.
  induction evs as [|ev evs IH]; intros Hnd st st' Hsp Hq Hc; [exact Hq|].
  assert (Hnd' : nondecreasing new_old_event_comparator evs).
  { destruct evs as [|ev' evs]; [exact I|]. apply Hnd. }
  assert (Hnext : match evs with
                  | ev' :: _ => new_old_event_comparator ev <= new_old_event_comparator ev'
                  | [] => True
                  end).
  { destruct evs as [|ev' evs]; [exact I|]. apply Hnd. }
  assert (Hcur : forall t, t = new_old_event_comparator ev ->
            advance (drop (current_kernel_index st) kernels) (current_kernel_index st) t
            = advance (drop (current_kernel_index st') kernels)
                (current_kernel_index st') t).
  { intros t ->. destruct Hc as [->|(t0 & Ht0 & ->)]; [reflexivity|].
    now apply advance_compose. }
  destruct ev as [e|e]; cbn [List.filter is_kineto fold_left].
  - pose proof (Hcur (start_us e * 1000) eq_refl) as Hcur'.
    apply IH; [exact Hnd'| | |].
    + rewrite !sweep_step_Kineto. cbn [spawned_kernel_index]. now rewrite Hsp.
    + rewrite !sweep_step_Kineto. cbn [sw_queue_depth_list].
      rewrite Hsp, Hq, Hcur'. reflexivity.
    + left. rewrite !sweep_step_Kineto. cbn [current_kernel_index].
      exact Hcur'.
  - pose proof (Hcur (start_time_ns e) eq_refl) as Hcur'.
    apply IH; [exact Hnd'| | |].
    + rewrite sweep_step_Profiler. exact Hsp.
    + rewrite sweep_step_Profiler. exact Hq.
    + right. exists (start_time_ns e). split; [exact Hnext|].
      rewrite sweep_step_Profiler. cbn [current_kernel_index].
      exact Hcur'.
Qed.


Lemma filter_is_kineto_all (l : list KinetoEvent) :
  List.filter is_kineto (map Kineto l) = map Kineto l.
Proof. induction l as [|x l IH]; simpl; [reflexivity|]. now rewrite IH. Qed.

Lemma filter_is_kineto_none (l : list Event) :
  List.filter is_kineto (map Profiler l) = [].
Proof. induction l as [|x l IH]; simpl; [reflexivity|]. exact IH. Qed.

Lemma timeline_of_devices (prof : profile)
    (events : list Event) (metrics : Dict.t) :
  fst (compute_queue_depth prof events metrics)
  = fst (compute_queue_depth prof [] []).
Proof.
  unfold compute_queue_depth. cbv zeta. cbn [fst].
  set (devices := map Kineto (cuda_launch_events prof)
                  ++ map Kineto (cuda_kernel_events prof)).
  rewrite app_assoc. fold devices. simpl map. rewrite app_nil_r.
  rewrite (sweep_skips_hosts _ _ _ (sorted_nondecreasing _ _)
             (mkSweep 0 (-1) [] metrics) (mkSweep 0 (-1) [] []));
    [|reflexivity|reflexivity|now left].
  rewrite filter_sorted, List.filter_app, filter_is_kineto_none, app_nil_r.
  unfold devices. now rewrite List.filter_app, !filter_is_kineto_all.
Qed.

(** The queue-depth timeline depends on the device events only: host events
    are annotated with a queue depth, they add no interval and change none.
    Whatever the host events and the metrics are, the timeline is the one of
    a trace without host events. *)
Theorem queue_depth_list_ignores_host_events (prof : profile)
    (events events' : list Event) (metrics metrics' : Dict.t) :
  fst (compute_queue_depth prof events metrics)
  = fst (compute_queue_depth prof events' metrics') /\
  fst (compute_queue_depth prof events metrics)
  = fst (compute_queue_depth prof [] []).
Proof.
  split; [|apply timeline_of_devices].
  rewrite (timeline_of_devices prof events metrics).
  symmetry. apply timeline_of_devices.
Qed.

Lemma sweep_kineto_spans kernels km (devs : list KinetoEvent) :
  forall st,
    map interval_span
      (sw_queue_depth_list (fold_left (sweep_step kernels km) (map Kineto devs) st))
    = map interval_span (sw_queue_depth_list st) ++ map device_span devs.
Proof.
  induction devs as [|d devs IH]; intros st; simpl; [now rewrite app_nil_r|].
  rewrite IH, sweep_step_Kineto. cbn [sw_queue_depth_list].
  rewrite map_app. simpl. now rewrite <- app_assoc.
Qed.

Lemma device_timeline prof :
  sorted new_old_event_comparator
    (map Kineto (cuda_launch_events prof) ++ map Kineto (cuda_kernel_events prof)
     ++ map Profiler [])
  = map Kineto (sorted start_us (cuda_launch_events prof ++ cuda_kernel_events prof)).
Proof.
  simpl map. rewrite app_nil_r, <- map_app, sorted_map. f_equal.
  apply sorted_same_order. intros x y. simpl.
  destruct (Z.leb_spec (start_us x * 1000) (start_us y * 1000)),
           (Z.leb_spec (start_us x) (start_us y)); try reflexivity; lia.
Qed.

Lemma nondecreasing_unmap {A B} (key : B -> Z) (f : A -> B) (l : list A) :
  nondecreasing key (map f l) -> nondecreasing (fun x => key (f x)) l.
Proof.
  induction l as [|x l IH]; [trivial|]. destruct l as [|y l]; [trivial|].
  intros [Hxy Hl]. split; [exact Hxy|]. now apply IH.
Qed.

Lemma nondecreasing_scaled {A} (key : A -> Z) (l : list A) :
  nondecreasing key l -> nondecreasing (fun x => key x * 1000) l.
Proof.
  induction l as [|x l IH]; [trivial|]. destruct l as [|y l]; [trivial|].
  intros [Hxy Hl]. split; [lia|]. now apply IH.
Qed.

(** The queue-depth timeline has one interval for every launch and every
    kernel, in the order of [self.cuda_events]: the i-th interval spans the
    i-th device event, so the intervals are in the order of their starts,
    and none is reversed when no device event has a negative duration. *)
Theorem queue_depth_list_spans (prof : profile) (events : list Event)
    (metrics : Dict.t) :
  let timeline := fst (compute_queue_depth prof events metrics) in
  let devices :=
    sorted start_us (cuda_launch_events prof ++ cuda_kernel_events prof) in
  map interval_span timeline = map device_span devices /\
  length timeline
  = (length (cuda_launch_events prof) + length (cuda_kernel_events prof))%nat /\
  nondecreasing start timeline /\
  (Forall (fun d => 0 <= duration_us d) devices ->
   Forall (fun i => start i <= end_ i) timeline).
Proof.
  intros timeline devices.
  assert (Hspans : map interval_span timeline = map device_span devices).
  { unfold timeline. rewrite timeline_of_devices.
    unfold compute_queue_depth. cbv zeta. cbn [fst].
    rewrite device_timeline, sweep_kineto_spans. reflexivity. }
  split; [exact Hspans|]. split; [|split].
  - apply (f_equal (@length _)) in Hspans. rewrite !length_map in Hspans.
    rewrite Hspans. unfold devices. now rewrite sorted_length, length_app.
  - apply (nondecreasing_unmap fst interval_span).
    rewrite Hspans. apply (nondecreasing_map fst device_span).
    apply nondecreasing_scaled, sorted_nondecreasing.
  - intros Hdur.
    assert (H : Forall (fun p => fst p <= snd p) (map interval_span timeline)).
    { rewrite Hspans. clear -Hdur.
      induction Hdur as [|d l Hd Hl IH]; simpl; constructor; [simpl; lia|exact IH]. }
    clear -H. induction timeline as [|i l IH]; [constructor|].
    inversion H; subst. constructor; [assumption|now apply IH].
Qed.

Lemma queue_depth_list_spans_witness :
  let timeline :=
    fst (compute_queue_depth burst_profile [] []) in
  Forall (fun i => start i <= end_ i) timeline.
Proof.
  apply (queue_depth_list_spans burst_profile [] []).
  vm_compute. repeat constructor; discriminate.
Defined.

(** *** Bounds of the queue depth *)

Lemma advance_le_length (kernels : list KinetoEvent) (c : nat) (t : Z) :
  (c <= length kernels)%nat ->
  (advance (drop c kernels) c t <= length kernels)%nat.
Proof.
  intros Hc. destruct (advance_rest (drop c kernels) c t t (Z.le_refl _)) as (_ & Hl & _).
  rewrite length_drop in Hl. lia.
Qed.

Lemma kernel_mapping_valid prof o k :
  kernel_mapping prof !! o = Some (Some k) ->
  (k < length (cuda_kernel_events prof))%nat.
Proof.
  intros H. unfold kernel_mapping in H.
  apply map_kernels_sound in H as [H|(l & _ & _ & x & Hx & _)].
  - rewrite lookup_empty in H. discriminate.
  - eapply lookup_lt_Some. exact Hx.
Qed.

Lemma sweep_depths_bounded kernels km (evs : list AnyEvent) :
  (forall o k, km !! o = Some (Some k) -> (k < length kernels)%nat) ->
  forall st,
    (current_kernel_index st <= length kernels)%nat ->
    -1 <= spawned_kernel_index st < Z.of_nat (length kernels) ->
    Forall (fun i => depth_within (Z.of_nat (length kernels)) (i_queue_depth i))
      (sw_queue_depth_list st) ->
    Forall (fun kr => depth_within (Z.of_nat (length kernels)) (queue_depth (snd kr)))
      (sw_metrics st) ->
    let st' := fold_left (sweep_step kernels km) evs st in
    Forall (fun i => depth_within (Z.of_nat (length kernels)) (i_queue_depth i))
      (sw_queue_depth_list st') /\
    Forall (fun kr => depth_within (Z.of_nat (length kernels)) (queue_depth (snd kr)))
      (sw_metrics st').
Proof.
  intros Hkm. induction evs as [|ev evs IH]; intros st Hc Hs Hq Hm; [simpl; auto|].
  cbn [fold_left]. cbv zeta in IH. destruct ev as [e|e].
  - pose proof (advance_le_length kernels (current_kernel_index st)
                  (start_us e * 1000) Hc) as Hadv.
    assert (Hsp : -1 <= match km !! oid e with
                        | Some (Some i) => Z.of_nat i
                        | _ => spawned_kernel_index st
                        end < Z.of_nat (length kernels)).
    { destruct (km !! oid e) as [[k|]|] eqn:Hk; try exact Hs.
      apply Hkm in Hk. lia. }
    apply IH; rewrite sweep_step_Kineto; cbn [current_kernel_index
      spawned_kernel_index sw_queue_depth_list sw_metrics]; try assumption.
    apply Forall_app. split; [exact Hq|]. constructor; [|constructor].
    unfold depth_within. simpl. lia.
  - pose proof (advance_le_length kernels (current_kernel_index st)
                  (start_time_ns e) Hc) as Hadv.
    apply IH; rewrite sweep_step_Profiler; cbn [current_kernel_index
      spawned_kernel_index sw_queue_depth_list sw_metrics]; try assumption.
    apply Dict_update_Forall; [exact Hm|]. intros k' r _ _ _.
    unfold depth_within. simpl. lia.
Qed.

(** A queue depth is at most the number of kernels and at least its
    opposite, in the timeline and in the records of the host events. *)
Theorem queue_depth_bounded (prof : profile) (events : list Event) (metrics : Dict.t) :
  let n := Z.of_nat (length (cuda_kernel_events prof)) in
  Forall (fun kr => - n <= queue_depth (snd kr) <= n) metrics ->
  Forall (fun i => - n <= i_queue_depth i <= n)
    (fst (compute_queue_depth prof events metrics)) /\
  Forall (fun kr => - n <= queue_depth (snd kr) <= n)
    (snd (compute_queue_depth prof events metrics)).
Proof.
  intros n Hm. unfold compute_queue_depth. cbv zeta. cbn [fst snd].
  apply (sweep_depths_bounded (cuda_kernel_events prof) (kernel_mapping prof));
    simpl; try lia.
  - apply kernel_mapping_valid.
  - constructor.
  - exact Hm.
Qed.

Lemma queue_depth_bounded_witness :
  Forall (fun i => - 5 <= i_queue_depth i <= 5)
    (fst (compute_queue_depth burst_profile [] [])) /\
  Forall (fun kr => - 5 <= queue_depth (snd kr) <= 5)
    (snd (compute_queue_depth burst_profile [] [])).
Proof.
  apply (queue_depth_bounded burst_profile [] []). constructor.
Defined.

(** ** The idle intervals of the scan *)

Lemma idle_scan_gaps (full : list Interval) (rest : list Interval) :
  forall (pre : list Interval) (idle : bool) (idle_start : Z) (acc : list Interval),
    full = pre ++ rest ->
    (idle = true ->
     exists l1 p l2, pre = l1 ++ p :: l2 /\ i_queue_depth p = 0 /\ idle_start = end_ p) ->
    Forall (idle_gap full) acc ->
    Forall (idle_gap full) (idle_scan rest idle idle_start acc).
Proof.
  induction rest as [|dp rest IH]; intros pre idle idle_start acc Hfull Hidle Hacc;
    [exact Hacc|].
  assert (Hfull' : full = (pre ++ [dp]) ++ rest) by now rewrite <- app_assoc.
  cbn [idle_scan].
  destruct (Z.eqb_spec (i_queue_depth dp) 0) as [Hz|Hz];
    destruct (Z.gtb_spec (i_queue_depth dp) 0) as [Hp|Hp]; try lia;
    destruct idle; cbn [andb negb].
  - apply (IH (pre ++ [dp])); [exact Hfull'| |exact Hacc].
    intros _. destruct (Hidle eq_refl) as (l1 & p & l2 & -> & H0 & ->).
    exists l1, p, (l2 ++ [dp]). now rewrite <- app_assoc.
  - apply (IH (pre ++ [dp])); [exact Hfull'| |exact Hacc].
    intros _. exists pre, dp, []. auto.
  - apply (IH (pre ++ [dp])); [exact Hfull'|discriminate|].
    apply Forall_app. split; [exact Hacc|]. constructor; [|constructor].
    destruct (Hidle eq_refl) as (l1 & p & l2 & -> & H0 & ->).
    exists l1, p, l2, dp, rest. rewrite Hfull, <- app_assoc. simpl.
    repeat split; [exact H0|lia].
  - apply (IH (pre ++ [dp])); [exact Hfull'|discriminate|exact Hacc].
  - apply (IH (pre ++ [dp])); [exact Hfull'| |exact Hacc].
    intros _. destruct (Hidle eq_refl) as (l1 & p & l2 & -> & H0 & ->).
    exists l1, p, (l2 ++ [dp]). now rewrite <- app_assoc.
  - apply (IH (pre ++ [dp])); [exact Hfull'|discriminate|exact Hacc].
Qed.

(** Apart from the two boundary intervals, every idle interval of
    [compute_idle_time] runs from the end of a data point of depth zero to
    the start of a later data point of positive depth; a timeline without a
    depth of zero, or without a positive depth, has none. *)
Theorem idle_intervals_are_gaps (queue_depth_list : list Interval)
    (events : list Event) :
  idle_intervals queue_depth_list events
  = boundary_intervals queue_depth_list events
    ++ idle_scan queue_depth_list false 0 [] /\
  Forall (idle_gap queue_depth_list) (idle_scan queue_depth_list false 0 []) /\
  ((Forall (fun dp => i_queue_depth dp <> 0) queue_depth_list \/
    Forall (fun dp => i_queue_depth dp <= 0) queue_depth_list) ->
   idle_scan queue_depth_list false 0 [] = []).
Proof.
  split; [|split].
  - unfold idle_intervals. apply idle_scan_app.
  - apply (idle_scan_gaps queue_depth_list queue_depth_list []);
      [reflexivity|discriminate|constructor].
  - intros Hnone.
    pose proof (idle_scan_gaps queue_depth_list queue_depth_list [] false 0 []
                  eq_refl ltac:(discriminate) ltac:(constructor)) as Hg.
    destruct (idle_scan queue_depth_list false 0 []) as [|i l]; [reflexivity|].
    inversion Hg as [|? ? (l1 & p & l2 & q & l3 & Hq & Hp0 & Hq0 & _) _]; subst.
    exfalso. destruct Hnone as [Hn|Hn]; rewrite Forall_forall in Hn.
    + apply (Hn p); [|exact Hp0]. rewrite list_elem_of_In, in_app_iff. right. now left.
    + specialize (Hn q). rewrite list_elem_of_In in Hn.
      assert (i_queue_depth q <= 0); [|lia]. apply Hn.
      rewrite in_app_iff. right. right. rewrite in_app_iff. right. now left.
Qed.

(** ** The ranking *)

Lemma insert_lt_perm {A} (lt : A -> A -> bool) x l :
  Permutation (insert_lt lt x l) (x :: l).
Proof.
  induction l as [|y l IH]; simpl; [reflexivity|].
  destruct (lt y x); [|reflexivity]. rewrite IH. apply perm_swap.
Qed.

Lemma sorted_reverse_perm {A} (lt : A -> A -> bool) l :
  Permutation (sorted_reverse lt l) l.
Proof.
  unfold sorted_reverse. rewrite <- Permutation_rev.
  rewrite (Permutation_rev l) at 2.
  induction (rev l) as [|x r IH]; simpl; [reflexivity|].
  now rewrite insert_lt_perm, IH.
Qed.

Lemma map_snd_combine {A B} (a : list A) (b : list B) :
  length a = length b -> map snd (combine a b) = b.
Proof.
  revert b. induction a as [|x a IH]; intros [|y b] H; simpl in *;
    try discriminate; [reflexivity|]. f_equal. apply IH. lia.
Qed.

Lemma ranked_perm be : Permutation (ranked be) (survivors be).
Proof.
  unfold ranked. cbv zeta. rewrite (Permutation_map snd (sorted_reverse_perm _ _)).
  rewrite map_snd_combine; [reflexivity|apply heuristic_score_list_length].
Qed.

Lemma filter_overlapping_sublist keys :
  forall h intervals, sublist (fst (filter_overlapping keys h intervals)) keys.
Proof.
  induction keys as [|k keys IH]; intros h intervals; simpl; [constructor|].
  destruct (intervals_overlap k h intervals) as [overlap h'].
  specialize (IH h' intervals).
  destruct (filter_overlapping keys h' intervals) as [kept h''].
  simpl in *. destruct (overlap =? 0); now constructor.
Qed.

(** The ranking reorders the survivors: it drops none and repeats none, and
    the survivors are keys of the metrics, in the order of the dictionary.
    For a [length] that is not negative [rank_events] returns the first
    [length] events of the ranking, all of them when there are fewer. *)
Theorem rank_events_prefix (be : BasicEvaluation) :
  Permutation (ranked be) (survivors be) /\
  sublist (survivors be) (Dict.keys (metrics be)) /\
  (forall n k, In k (rank_events be n) -> In k (survivors be)) /\
  (forall n, 0 <= n ->
     rank_events be n = take (Z.to_nat n) (ranked be) /\
     length (rank_events be n) = Nat.min (Z.to_nat n) (length (survivors be))).
Proof.
  assert (Hslice : forall n, exists m, rank_events be n = take m (ranked be)).
  { intros n. unfold rank_events. pose proof (ranked_length be) as Hlen.
    destruct (survivors be) as [|k ks].
    - exists 0%nat. now rewrite take_0.
    - unfold slice_to. destruct (n <? 0); eauto. }
  split; [apply ranked_perm|]. split; [apply filter_overlapping_sublist|]. split.
  - intros n k Hk. destruct (Hslice n) as [m Hm]. rewrite Hm in Hk.
    eapply Permutation_in; [apply ranked_perm|].
    rewrite <- list_elem_of_In in *. eapply subseteq_take. exact Hk.
  - intros n Hn.
    assert (Hr : rank_events be n = take (Z.to_nat n) (ranked be)).
    { unfold rank_events. pose proof (ranked_length be) as Hlen.
      destruct (survivors be) as [|k ks] eqn:Hs.
      - destruct (ranked be); [now rewrite take_nil|discriminate].
      - unfold slice_to. destruct (Z.ltb_spec n 0); [lia|reflexivity]. }
    split; [exact Hr|]. rewrite Hr, length_take, ranked_length. reflexivity.
Qed.

(** ** The idle time of an event *)

Lemma deref_seq (h : store) : map (deref h) (seq 0 (length h)) = h.
Proof.
  induction h as [|x h IH]; [reflexivity|].
  simpl length. rewrite <- cons_seq, <- seq_shift. simpl map at 1.
  rewrite map_map. f_equal. exact IH.
Qed.

(** The clipping that one call leaves behind does not change what a later
    call computes, for any event: an end is lowered to the start of the next
    interval, where the later call would cut it anyway. *)
Lemma overlap_loop_keeps_value e e' intervals :
  forall h acc,
    NoDup intervals ->
    allocated h intervals ->
    clipped_overlap e (map (deref (snd (overlap_loop e' h intervals acc))) intervals)
    = clipped_overlap e (map (deref h) intervals).
Proof.
  induction intervals as [|l rest IH]; intros h acc Hnd Hal; [reflexivity|].
  apply NoDup_cons in Hnd as [Hl Hnd]. rewrite list_elem_of_In in Hl.
  inversion Hal as [|? ? Hlt Hal']; subst.
  change (overlap_loop e' h (l :: rest) acc)
    with (overlap_loop e' (clip h l rest) rest
            (add_overlap e' (deref (clip h l rest) l) acc)).
  set (h1 := clip h l rest).
  set (acc1 := add_overlap e' (deref h1 l) acc).
  set (h' := snd (overlap_loop e' h1 rest acc1)).
  assert (Hal1 : allocated h1 rest).
  { unfold allocated, h1. now rewrite clip_length. }
  assert (Hrest : map (deref h1) rest = map (deref h) rest).
  { apply map_ext_in. intros l' Hl'. apply deref_clip_other. intros ->. contradiction. }
  assert (Hl' : deref h' l = deref h1 l).
  { pose proof (overlap_loop_other e' rest h1 acc1 l Hl) as Hsame. fold h' in Hsame.
    assert (H1 : (l < length h1)%nat) by (unfold h1; now rewrite clip_length).
    assert (H' : (l < length h')%nat) by (unfold h'; now rewrite overlap_loop_length).
    pose proof (eq_trans (eq_sym (list_lookup_lookup_total_lt h' l H'))
                  (eq_trans Hsame (list_lookup_lookup_total_lt h1 l H1))) as Heq.
    now injection Heq. }
  pose proof (IH h1 acc1 Hnd Hal1) as Hrec. fold h' in Hrec. rewrite Hrest in Hrec.
  destruct (deref_clip_self h l rest Hlt) as [Hs He]. fold h1 in Hs, He.
  cbn [map clipped_overlap]. rewrite Hrec, Hl', Hs, He. f_equal.
  destruct rest as [|next rest]; [reflexivity|]. cbn [map].
  pose proof (overlap_loop_fields e' (next :: rest) h1 acc1 next) as (Hf & _).
  fold h' in Hf. rewrite Hf.
  pose proof (clip_fields h l (next :: rest) next) as (Hc & _). fold h1 in Hc.
  rewrite Hc. f_equal. lia.
Qed.

(** One step of the loop over the events: the value it writes and the store
    it leaves. *)
Lemma intervals_overlap_stable (h0 h : store) (intervals : list loc) (self : EventKey) :
  NoDup intervals ->
  allocated h intervals ->
  (forall l, start (deref h l) = start (deref h0 l)) ->
  let order := sorted (fun l => start (deref h0 l)) intervals in
  fst (intervals_overlap self h intervals)
  = clipped_overlap (event self) (map (deref h) order) /\
  (forall l, start (deref (snd (intervals_overlap self h intervals)) l)
             = start (deref h0 l)) /\
  forall e, clipped_overlap e (map (deref (snd (intervals_overlap self h intervals))) order)
            = clipped_overlap e (map (deref h) order).
Proof.
  intros Hnd Hal Hst order.
  assert (Horder : sorted (fun l => start (deref h l)) intervals = order).
  { apply sorted_ext. intros l _. apply Hst. }
  split; [|split].
  - unfold intervals_overlap. rewrite Horder, overlap_loop_value; [lia| |].
    + unfold order. rewrite (sorted_perm (fun l => start (deref h0 l)) intervals) at 1.
      exact Hnd.
    + unfold allocated in *. rewrite Forall_forall in *. intros l Hl. apply Hal.
      unfold order in Hl.
      now rewrite (sorted_perm (fun l => start (deref h0 l)) intervals) in Hl.
  - intros l. rewrite <- Hst. apply intervals_overlap_fields.
  - intros e. unfold intervals_overlap. rewrite Horder.
    apply overlap_loop_keeps_value.
    + unfold order. rewrite (sorted_perm (fun l => start (deref h0 l)) intervals) at 1.
      exact Hnd.
    + unfold allocated in *. rewrite Forall_forall in *. intros l Hl. apply Hal.
      unfold order in Hl.
      now rewrite (sorted_perm (fun l => start (deref h0 l)) intervals) in Hl.
Qed.

(** A write under a key of a dictionary without duplicate identifiers
    reaches the entry of that key and no other. *)
Lemma Dict_update_settles (P P' : EventKey * EventMetrics -> Prop) d k f :
  NoDup (key_ids d) ->
  (forall k' r, In (k', r) d -> id (event k') = id (event k) -> P' (k', f r)) ->
  (forall k' r, In (k', r) d -> id (event k') <> id (event k) ->
                P (k', r) -> P' (k', r)) ->
  Forall P d -> Forall P' (Dict.update d k f).
Proof.
  unfold key_ids, Dict.keys.
  induction d as [|[k0 v0] d IH]; simpl; intros Hnd Hhit Hmiss Hd; [constructor|].
  apply NoDup_cons in Hnd as [Hk0 Hnd]. rewrite list_elem_of_In in Hk0.
  inversion Hd as [|? ? Hkv Hd']; subst.
  destruct (EventKey_eqb_spec k0 k) as [E|E].
  - constructor; [apply Hhit; auto|].
    rewrite Forall_forall in *. intros [k' r] Hin. rewrite list_elem_of_In in Hin.
    apply Hmiss; [now right| |apply Hd'; now rewrite list_elem_of_In].
    intros E'. apply Hk0. rewrite E, <- E'.
    rewrite map_map. apply in_map_iff. now exists (k', r).
  - constructor; [apply Hmiss; auto|].
    apply IH; [exact Hnd| | |exact Hd'].
    + intros k' r Hin. apply Hhit. now right.
    + intros k' r Hin. apply Hmiss. now right.
Qed.

(** The loop over the events writes, for every event, the overlap of its
    span with the idle intervals as they were before the first call: what
    the calls clip on the way changes no later value. *)
Lemma idle_loop_values (h0 : store) (intervals : list loc) event_list :
  NoDup intervals ->
  let value e :=
    clipped_overlap e (map (deref h0) (sorted (fun l => start (deref h0 l)) intervals)) in
  forall done h metrics,
    allocated h intervals ->
    (forall l, start (deref h l) = start (deref h0 l)) ->
    (forall e, clipped_overlap e
                 (map (deref h) (sorted (fun l => start (deref h0 l)) intervals))
               = value e) ->
    NoDup (key_ids metrics) ->
    (forall e, In e event_list -> In (mkEventKey e) (Dict.keys metrics)) ->
    Forall (written idle_time_ns value done) metrics ->
    Forall (written idle_time_ns value (done ++ event_list))
      (fst (idle_loop event_list h intervals metrics)).
Proof.
  intros Hnd value.
  induction event_list as [|e rest IH]; intros done h metrics Hal Hst Hval Hids Hin Hm;
    [now rewrite app_nil_r|].
  simpl.
  destruct (intervals_overlap_stable h0 h intervals (mkEventKey e) Hnd Hal Hst)
    as (Hv & Hst' & Hval').
  pose proof (intervals_overlap_length (mkEventKey e) h intervals) as Hlen.
  destruct (intervals_overlap (mkEventKey e) h intervals) as [overlap h'].
  simpl in Hv, Hst', Hval', Hlen.
  replace (done ++ e :: rest) with ((done ++ [e]) ++ rest) by now rewrite <- app_assoc.
  apply IH.
  - unfold allocated in *. now rewrite Hlen.
  - exact Hst'.
  - intros x. now rewrite Hval', Hval.
  - now rewrite key_ids_update.
  - intros x Hx. rewrite Dict_keys_update. apply Hin. now right.
  - apply (Dict_update_settles (written idle_time_ns value done)); [exact Hids| | |exact Hm].
    + intros k' r Hk' Hid _. simpl.
      assert (Hke : k' = mkEventKey e).
      { apply (NoDup_map_eq (fun k => id (event k)) (Dict.keys metrics)).
        - exact Hids.
        - unfold Dict.keys. apply in_map_iff. now exists (k', r).
        - apply Hin. now left.
        - exact Hid. }
      subst k'. exact (eq_trans Hv (Hval e)).
    + intros k' r _ Hid Hset Hdone. apply Hset. simpl in *.
      rewrite map_app in Hdone. apply in_app_or in Hdone as [H|[H|[]]];
        [exact H|]. exfalso. now apply Hid.
Qed.

Lemma compute_idle_time_values queue_depth_list events metrics :
  NoDup (key_ids metrics) ->
  Dict.keys (compute_idle_time queue_depth_list events metrics) = Dict.keys metrics /\
  forall k r, In (k, r) (compute_idle_time queue_depth_list events metrics) ->
    idle_time_ns r
    = clipped_overlap (event k) (sorted start (idle_intervals queue_depth_list events)).
Proof.
  intros Hids. unfold compute_idle_time. cbv zeta.
  set (h0 := idle_intervals queue_depth_list events).
  assert (Hkeys : Dict.keys (fst (idle_loop (map event (Dict.keys metrics)) h0
                                     (seq 0 (length h0)) metrics))
                  = Dict.keys metrics).
  { apply (idle_loop_Forall (fun _ => True) (fun _ => True)); auto.
    apply Forall_forall. auto. }
  split; [exact Hkeys|].
  - assert (Hsorted : map (deref h0)
                        (sorted (fun l => start (deref h0 l)) (seq 0 (length h0)))
                      = sorted start h0).
    { rewrite <- (sorted_map start (deref h0)). now rewrite deref_seq. }
    pose proof (idle_loop_values h0 (seq 0 (length h0)) (map event (Dict.keys metrics))
                  (NoDup_seq 0 (length h0))) as Hloop.
    cbv zeta in Hloop. rewrite Hsorted in Hloop.
    specialize (Hloop [] h0 metrics (allocated_seq h0) (fun _ => eq_refl)
                  (fun e => f_equal (clipped_overlap e) Hsorted) Hids).
    intros k r Hin.
    assert (Hall : Forall (written idle_time_ns
                     (fun e => clipped_overlap e (sorted start h0))
                     ([] ++ map event (Dict.keys metrics)))
                     (fst (idle_loop (map event (Dict.keys metrics)) h0
                             (seq 0 (length h0)) metrics))).
    { apply Hloop.
      - intros e He. apply in_map_iff in He as ([x] & <- & Hx). exact Hx.
      - apply Forall_forall. intros kr _ []. }
    rewrite Forall_forall in Hall.
    apply (Hall (k, r)); [now rewrite list_elem_of_In|]. simpl.
    assert (Hk : In k (Dict.keys metrics)).
    { rewrite <- Hkeys. unfold Dict.keys. apply in_map_iff. now exists (k, r). }
    rewrite map_map. apply in_map_iff. now exists k.
Qed.

(** The run of [__init__] with the timeline, the events and the idle times
    it leaves. *)
Lemma BasicEvaluation_init_idle_time (prof : profile) :
  NoDup (map id (forest_nodes (experimental_event_tree prof))) ->
  exists order be,
    Permutation order (forest_nodes (experimental_event_tree prof)) /\
    BasicEvaluation_init prof = Ok be /\
    be_events be
    = map event (sorted (fun x => start_time_ns (event x)) (map mkEventKey order)) /\
    queue_depth_list be
    = fst (compute_queue_depth prof (be_events be) (map entry order)) /\
    forall e, In e (forest_nodes (experimental_event_tree prof)) ->
      exists r,
        Dict.get (metrics be) (mkEventKey e) = Some r /\
        idle_time_ns r
        = clipped_overlap e
            (sorted start (idle_intervals (queue_depth_list be) (be_events be))).
Proof.
  intros Hnd.
  destruct (BasicEvaluation_init_stages prof Hnd) as (order & Horder & Hrun).
  cbv zeta in Hrun. exists order. eexists. split; [exact Horder|].
  split; [exact Hrun|].
  cbn [metrics queue_depth_list be_events].
  assert (Hk0 : Dict.keys (map entry order) = map mkEventKey order).
  { unfold Dict.keys. now rewrite map_map. }
  rewrite Hk0. split; [reflexivity|]. split; [reflexivity|].
  set (metrics0 := map entry order) in *.
  set (events := map event (sorted _ (map mkEventKey order))) in *.
  pose proof (compute_queue_depth_metrics
                (fun d => Dict.keys d = Dict.keys metrics0)
                prof events metrics0
                ltac:(intros d k v Hk; cbv beta; now rewrite Dict_keys_update) eq_refl) as Hkeys1.
  cbv beta in Hkeys1.
  set (qd := compute_queue_depth prof events metrics0) in *.
  assert (Hids : NoDup (key_ids (snd qd))).
  { unfold key_ids. rewrite Hkeys1. fold (key_ids metrics0).
    unfold metrics0. rewrite key_ids_entries, (Permutation_map id Horder). exact Hnd. }
  destruct (compute_idle_time_values (fst qd) events (snd qd) Hids) as [Hkeysf Hval].
  intros e He.
  assert (Hin : In (mkEventKey e)
                  (Dict.keys (compute_idle_time (fst qd) events (snd qd)))).
  { rewrite Hkeysf, Hkeys1, Hk0. apply in_map.
    eapply Permutation_in; [symmetry; exact Horder|exact He]. }
  unfold Dict.keys in Hin. apply in_map_iff in Hin as ([k r] & Hk & Hin).
  simpl in Hk. subst k. exists r. split.
  - apply Dict_get_In; [|exact Hin]. unfold key_ids. now rewrite Hkeysf.
  - exact (Hval _ _ Hin).
Qed.

(** The idle time that [__init__] records for an event is the overlap of the
    event's span with the idle intervals in start order, each cut at the
    start of the next: it does not depend on the place of the event in the
    loop, although every call of [intervals_overlap] clips the intervals
    that the next call gets. *)
Theorem idle_time_is_clipped_overlap (prof : profile) :
  NoDup (map id (forest_nodes (experimental_event_tree prof))) ->
  exists be,
    BasicEvaluation_init prof = Ok be /\
    forall e, In e (forest_nodes (experimental_event_tree prof)) ->
      exists r,
        Dict.get (metrics be) (mkEventKey e) = Some r /\
        idle_time_ns r
        = clipped_overlap e
            (sorted start (idle_intervals (queue_depth_list be) (be_events be))).
Proof.
  intros Hnd.
  destruct (BasicEvaluation_init_idle_time prof Hnd) as (order & be & _ & Hrun & _ & _ & H).
  exists be. split; [exact Hrun|exact H].
Qed.

Lemma idle_time_is_clipped_overlap_witness :
  exists be,
    BasicEvaluation_init burst_profile = Ok be /\
    forall e, In e (forest_nodes (experimental_event_tree burst_profile)) ->
      exists r,
        Dict.get (metrics be) (mkEventKey e) = Some r /\
        idle_time_ns r
        = clipped_overlap e
            (sorted start (idle_intervals (queue_depth_list be) (be_events be))).
Proof.
  apply idle_time_is_clipped_overlap.
  vm_compute. repeat constructor; rewrite list_elem_of_In; simpl; intuition discriminate.
Defined.

(** ** Host events before the first device event *)

Lemma last_In {A} (l : list A) (d : A) : l <> [] -> In (List.last l d) l.
Proof.
  induction l as [|x l IH]; [congruence|]. intros _.
  destruct l as [|y l]; [now left|].
  right. apply IH. discriminate.
Qed.

Lemma clipped_overlap_after e l :
  Forall (fun i => end_time_ns e <= start i) l -> clipped_overlap e l = 0.
Proof.
  induction 1 as [|i l Hi Hl IH]; [reflexivity|].
  cbn [clipped_overlap]. rewrite IH. unfold span_overlap.
  destruct l; lia.
Qed.

(** The intervals of the timeline have the spans of the device events. *)
Lemma timeline_spans (prof : profile) (events : list Event) (metrics : Dict.t) :
  map interval_span (fst (compute_queue_depth prof events metrics))
  = map device_span
      (sorted start_us (cuda_launch_events prof ++ cuda_kernel_events prof)).
Proof.
  rewrite timeline_of_devices.
  unfold compute_queue_depth. cbv zeta. cbn [fst].
  rewrite device_timeline, sweep_kineto_spans. reflexivity.
Qed.

Lemma Forall_spans (P : Z * Z -> Prop) (timeline : list Interval) :
  forall devices : list KinetoEvent,
    map interval_span timeline = map device_span devices ->
    Forall (fun d => P (device_span d)) devices ->
    Forall (fun i => P (interval_span i)) timeline.
Proof.
  induction timeline as [|i l IH]; intros [|d devices] Heq Hd;
    try discriminate; constructor.
  - assert (Hi : interval_span i = device_span d)
      by exact (f_equal (fun s => hd (0, 0) s) Heq).
    rewrite Hi. now inversion Hd.
  - assert (Hl : map interval_span l = map device_span devices)
      by exact (f_equal (@tl _) Heq).
    apply (IH devices Hl). now inversion Hd.
Qed.

(** When the timeline starts after the event ends, the event's span lies in
    the first boundary interval, which no other idle interval cuts. *)
Lemma leading_idle (queue_depth_list : list Interval) (events : list Event)
    (e e0 : Event) (rest : list Event) :
  events = e0 :: rest ->
  start_time_ns e0 <= start_time_ns e ->
  start_time_ns e <= end_time_ns e ->
  queue_depth_list <> [] ->
  Forall (fun i => end_time_ns e <= start i /\ start i <= end_ i) queue_depth_list ->
  clipped_overlap e (sorted start (idle_intervals queue_depth_list events))
  = end_time_ns e - start_time_ns e.
Proof.
  intros -> He0 Hse Hne Hq.
  destruct queue_depth_list as [|q0 qrest] eqn:Hqdl; [congruence|].
  rewrite <- Hqdl in *.
  assert (Hafter : forall p, In p queue_depth_list -> end_time_ns e <= end_ p).
  { intros p Hp. rewrite Forall_forall in Hq.
    destruct (Hq p) as [H1 H2]; [now rewrite list_elem_of_In|lia]. }
  unfold idle_intervals. rewrite idle_scan_app.
  set (b1 := Interval2 (start_time_ns e0) (start q0)).
  set (b2 := Interval2 (end_ (List.last queue_depth_list q0))
                       (end_time_ns (List.last (e0 :: rest) e0))).
  assert (Hb : boundary_intervals queue_depth_list (e0 :: rest) = [b1; b2]).
  { unfold b1, b2. rewrite Hqdl. reflexivity. }
  rewrite Hb. cbn [app].
  set (others := b2 :: idle_scan queue_depth_list false 0 []).
  assert (Hothers : Forall (fun i => end_time_ns e <= start i) others).
  { constructor.
    - simpl. apply Hafter. apply last_In. rewrite Hqdl. discriminate.
    - pose proof (idle_scan_gaps queue_depth_list queue_depth_list [] false 0 []
                    eq_refl ltac:(discriminate) ltac:(constructor)) as Hg.
      eapply Forall_impl; [exact Hg|].
      intros i (l1 & p & l2 & q & l3 & Hl & _ & _ & ->). simpl.
      apply Hafter. rewrite Hl. apply in_or_app. right. now left. }
  assert (Hsorted : Forall (fun i => end_time_ns e <= start i) (sorted start others)).
  { rewrite Forall_forall in *. intros i Hi. apply Hothers.
    now rewrite (sorted_perm start others) in Hi. }
  change (sorted start (b1 :: others)) with (insert_by start b1 (sorted start others)).
  rewrite insert_by_head.
  - cbn [clipped_overlap]. rewrite (clipped_overlap_after e _ Hsorted).
    assert (Hq0 : end_time_ns e <= start q0).
    { rewrite Forall_forall in Hq. apply (Hq q0). rewrite Hqdl. now left. }
    unfold span_overlap, b1. cbn [start end_ Interval2].
    destruct (sorted start others) as [|i' s']; [lia|].
    inversion Hsorted; subst. lia.
  - eapply Forall_impl; [exact Hsorted|]. intros i Hi. unfold b1. simpl in *. lia.
Qed.

(** A host event that ends before the first launch or kernel starts is idle
    for its whole duration: it lies between the start of the first host
    event and the start of the timeline. *)
Theorem idle_before_device_work (prof : profile) (e : Event) :
  NoDup (map id (forest_nodes (experimental_event_tree prof))) ->
  In e (forest_nodes (experimental_event_tree prof)) ->
  well_timed e ->
  cuda_launch_events prof ++ cuda_kernel_events prof <> [] ->
  Forall (fun d => 0 <= duration_us d /\ end_time_ns e <= start_us d * 1000)
    (cuda_launch_events prof ++ cuda_kernel_events prof) ->
  exists be r,
    BasicEvaluation_init prof = Ok be /\
    Dict.get (metrics be) (mkEventKey e) = Some r /\
    idle_time_ns r = duration_time_ns e.
Proof.
  intros Hnd He [Hdur Hse] Hne Hdev.
  destruct (BasicEvaluation_init_idle_time prof Hnd)
    as (order & be & Horder & Hrun & Hev & Hqdl & Hidle).
  destruct (Hidle e He) as (r & Hget & Hval).
  exists be, r. split; [exact Hrun|]. split; [exact Hget|].
  rewrite Hval, Hdur.
  set (devices := sorted start_us (cuda_launch_events prof ++ cuda_kernel_events prof)).
  pose proof (timeline_spans prof (be_events be) (map entry order)) as Hspans.
  rewrite <- Hqdl in Hspans. fold devices in Hspans.
  assert (Hin : In e (be_events be)).
  { rewrite Hev. apply in_map_iff. exists (mkEventKey e). split; [reflexivity|].
    eapply Permutation_in; [symmetry; apply sorted_perm|].
    apply in_map. eapply Permutation_in; [symmetry; exact Horder|exact He]. }
  pose proof (sorted_ordered (fun x => start_time_ns (event x)) (map mkEventKey order))
    as Hord.
  destruct (sorted (fun x => start_time_ns (event x)) (map mkEventKey order))
    as [|k0 keys] eqn:Hkeys; [rewrite Hev in Hin; contradiction|].
  apply (leading_idle _ _ e (event k0) (map event keys)).
  - exact Hev.
  - rewrite Hev in Hin. simpl in Hin. destruct Hin as [->|Hin]; [lia|].
    apply in_map_iff in Hin as (k & <- & Hk).
    destruct Hord as [Hall _]. rewrite Forall_forall in Hall.
    apply Hall. now rewrite list_elem_of_In.
  - exact Hse.
  - intros Hnil. rewrite Hnil in Hspans. simpl in Hspans.
    symmetry in Hspans. apply map_eq_nil in Hspans.
    apply Hne. apply Permutation_nil.
    rewrite <- Hspans. unfold devices. apply sorted_perm.
  - apply (Forall_spans (fun p => end_time_ns e <= fst p /\ fst p <= snd p)
             _ devices Hspans).
    rewrite Forall_forall in *. intros d Hd.
    unfold devices in Hd. rewrite (sorted_perm start_us _) in Hd.
    destruct (Hdev d Hd). simpl. lia.
Qed.

Lemma idle_before_device_work_witness :
  exists be r,
    BasicEvaluation_init warmup_profile = Ok be /\
    Dict.get (metrics be) (mkEventKey (ev 2 1000 2000 [])) = Some r /\
    idle_time_ns r = duration_time_ns (ev 2 1000 2000 []).
Proof.
  apply idle_before_device_work.
  - vm_compute. repeat constructor; rewrite list_elem_of_In; simpl; intuition discriminate.
  - vm_compute. auto.
  - unfold well_timed. simpl. lia.
  - vm_compute. discriminate.
  - vm_compute. repeat constructor; discriminate.
Defined.

(** ** The events that survive the filter *)

Lemma filter_overlapping_values (h0 : store) (intervals : list loc)
    (keys : list EventKey) :
  NoDup intervals ->
  let order := sorted (fun l => start (deref h0 l)) intervals in
  forall h,
    allocated h intervals ->
    (forall l, start (deref h l) = start (deref h0 l)) ->
    (forall e, clipped_overlap e (map (deref h) order)
               = clipped_overlap e (map (deref h0) order)) ->
    fst (filter_overlapping keys h intervals)
    = List.filter
        (fun k => 0 <? clipped_overlap (event k) (map (deref h0) order)) keys.
Proof.
  intros Hnd order. induction keys as [|k rest IH]; intros h Hal Hst Hval;
    [reflexivity|].
  cbn [filter_overlapping List.filter].
  destruct (intervals_overlap_stable h0 h intervals k Hnd Hal Hst)
    as (Hv & Hst' & Hval').
  pose proof (intervals_overlap_length k h intervals) as Hlen.
  destruct (intervals_overlap k h intervals) as [overlap h'].
  simpl in Hv, Hst', Hval', Hlen.
  fold order in Hv, Hval'.
  specialize (IH h').
  destruct (filter_overlapping rest h' intervals) as [kept h''].
  simpl in IH. cbn [fst].
  rewrite IH.
  - rewrite Hv, Hval.
    pose proof (clipped_overlap_nonneg (event k) (map (deref h0) order)) as Hpos.
    destruct (Z.eqb_spec (clipped_overlap (event k) (map (deref h0) order)) 0) as [E|E];
      destruct (Z.ltb_spec 0 (clipped_overlap (event k) (map (deref h0) order)));
      try reflexivity; lia.
  - unfold allocated in *. now rewrite Hlen.
  - exact Hst'.
  - intros e. now rewrite Hval', Hval.
Qed.

(** The events that survive the filter of [rank_events] are the keys of the
    metrics whose span overlaps the decrease intervals, taken in start order
    and each cut at the start of the next; the clipping that the calls of
    [intervals_overlap] leave on the shared intervals removes no event and
    keeps none. Every event that [rank_events] returns is one of them. *)
Theorem survivors_overlap_decrease (be : BasicEvaluation) :
  let drains := sorted start (decrease_interval_of (queue_depth_list be)) in
  survivors be
  = List.filter (fun k => 0 <? clipped_overlap (event k) drains)
      (Dict.keys (metrics be)) /\
  forall n k, In k (rank_events be n) -> 0 < clipped_overlap (event k) drains.
Proof.
  intros drains.
  assert (Hs : survivors be
               = List.filter (fun k => 0 <? clipped_overlap (event k) drains)
                   (Dict.keys (metrics be))).
  { unfold survivors. cbv zeta.
    set (h0 := decrease_interval_of (queue_depth_list be)).
    rewrite (filter_overlapping_values h0 (seq 0 (length h0)) _ (NoDup_seq 0 _) h0
               (allocated_seq h0) (fun _ => eq_refl) (fun _ => eq_refl)).
    rewrite <- (sorted_map start (deref h0)), deref_seq. reflexivity. }
  split; [exact Hs|]. intros n k Hk.
  assert (Hin : In k (survivors be)).
  { unfold rank_events in Hk. destruct (survivors be) as [|k0 l] eqn:E; [contradiction|].
    rewrite <- E in *. unfold slice_to in Hk.
    assert (Hr : In k (ranked be)).
    { destruct (n <? 0); rewrite <- list_elem_of_In in *;
        eapply subseteq_take; exact Hk. }
    eapply Permutation_in; [apply ranked_perm|exact Hr]. }
  rewrite Hs in Hin. apply filter_In in Hin as [_ Hpos]. now apply Z.ltb_lt.
Qed.

(** ** The decrease intervals *)

Lemma split_at_three {A} (l : list A) (i k j : nat) (x y z : A) :
  (i < k < j)%nat ->
  l !! i = Some x -> l !! k = Some y -> l !! j = Some z ->
  exists a b c d,
    l = a ++ x :: b ++ y :: c ++ z :: d /\
    forall w, In w (b ++ c) -> exists m, (i < m < j)%nat /\ l !! m = Some w.
Proof.
  intros Hikj Hi Hk Hj.
  set (l1 := drop (S i) l).
  set (l2 := drop (S (k - S i)) l1).
  assert (Hk1 : l1 !! (k - S i)%nat = Some y).
  { unfold l1. rewrite lookup_drop. now replace (S i + (k - S i))%nat with k by lia. }
  assert (Hl2 : forall m, l2 !! m = l !! (S k + m)%nat).
  { intros m. unfold l2, l1. rewrite !lookup_drop. f_equal. lia. }
  assert (Hj2 : l2 !! (j - S k)%nat = Some z).
  { rewrite Hl2. now replace (S k + (j - S k))%nat with j by lia. }
  exists (take i l), (take (k - S i) l1), (take (j - S k) l2), (drop (S (j - S k)) l2).
  split.
  - rewrite (take_drop_middle l2 _ z Hj2). unfold l2.
    rewrite (take_drop_middle l1 _ y Hk1). unfold l1.
    now rewrite (take_drop_middle l i x Hi).
  - intros w Hw. apply in_app_or in Hw as [Hw|Hw];
      rewrite <- list_elem_of_In in Hw; apply list_elem_of_lookup in Hw as [m Hm];
      apply lookup_take_Some in Hm as [Hm Hlt].
    + exists (S i + m)%nat. split; [lia|]. unfold l1 in Hm. now rewrite lookup_drop in Hm.
    + exists (S k + m)%nat. split; [lia|]. now rewrite <- Hl2.
Qed.

Lemma find_window_drain (queue_depth_list : list Interval) (i : nat) (js : list nat) :
  let qd_values := qd_values_of queue_depth_list in
  (i < length queue_depth_list)%nat ->
  qd_values !!! i <= 1 ->
  Forall (fun j => (j < length queue_depth_list)%nat) js ->
  forall interval j,
    find_window queue_depth_list qd_values i js = Some (interval, j) ->
    drain (rev queue_depth_list) interval.
Proof.
  intros qd_values Hi Hlow Hjs interval j'.
  assert (Hqd : forall m, (m < length queue_depth_list)%nat ->
            exists x, queue_depth_list !! m = Some x /\
                      queue_depth_list !!! m = x /\
                      qd_values !! m = Some (i_queue_depth x) /\
                      qd_values !!! m = i_queue_depth x).
  { intros m Hm. destruct (lookup_lt_is_Some_2 queue_depth_list m Hm) as [x Hx].
    exists x. split; [exact Hx|].
    assert (Hv : qd_values !! m = Some (i_queue_depth x)).
    { unfold qd_values, qd_values_of.
      change (map i_queue_depth queue_depth_list) with (i_queue_depth <$> queue_depth_list).
      now rewrite list_lookup_fmap, Hx. }
    split; [now apply list_lookup_total_correct|].
    split; [exact Hv|now apply list_lookup_total_correct]. }
  induction Hjs as [|j js Hj Hjs IH]; simpl; [discriminate|].
  destruct (Z.leb_spec (qd_values !!! j) 1) as [Hjlow|]; [|exact IH].
  pose proof (argmax_spec qd_values (i + 1) (Some j)) as Hspec. cbv zeta in Hspec.
  destruct (argmax qd_values (i + 1) (Some j)) as [peak_idx|]; [|exact IH].
  destruct (Z.gtb_spec (qd_values !!! peak_idx - qd_values !!! i) 3) as [Hgt|]; [|exact IH].
  intros [= <- <-].
  destruct Hspec as (Hrange & v & Hv & Hmax & _).
  assert (Hlen : length qd_values = length queue_depth_list).
  { unfold qd_values, qd_values_of. apply length_map. }
  rewrite Hlen in *.
  assert (Hp : (peak_idx < length queue_depth_list)%nat) by lia.
  destruct (Hqd i Hi) as (q & Hq & Hq' & _ & Hqv).
  destruct (Hqd peak_idx Hp) as (p & Hpk & Hpk' & Hpv & Hpv').
  destruct (Hqd j Hj) as (r & Hr & _ & _ & Hrv).
  rewrite Hpv in Hv. injection Hv as <-.
  destruct (split_at_three queue_depth_list i peak_idx j q p r ltac:(lia) Hq Hpk Hr)
    as (a & b & c & d & Hsplit & Hmid).
  exists (rev d), r, (rev c), p, (rev b), q, (rev a).
  split; [|split; [lia|split; [lia|split; [|split]]]].
  - rewrite Hsplit at 1.
    rewrite !rev_app_distr. simpl. rewrite !rev_app_distr. simpl.
    rewrite !rev_app_distr. simpl. now rewrite <- !app_assoc.
  - apply Forall_forall. intros x Hx. rewrite list_elem_of_In in Hx.
    assert (Hbc : In x (b ++ c)).
    { apply in_app_or in Hx as [Hx|Hx]; apply in_rev in Hx; apply in_or_app; auto. }
    destruct (Hmid x Hbc) as (m & Hm & Hmx).
    apply (Hmax m (i_queue_depth x)); [lia|].
    destruct (Hqd m ltac:(lia)) as (x' & Hx' & _ & Hxv & _).
    rewrite Hx' in Hmx. injection Hmx as <-. exact Hxv.
  - lia.
  - now rewrite Hpk', Hq'.
Qed.

(** Every decrease interval of [rank_events] is a drain of the queue: it
    runs from the start of a peak of the timeline to the start of a later
    data point of depth at most 1 that lies more than 3 below the peak. *)
Theorem decrease_intervals_are_drains (queue_depth_list : list Interval) :
  Forall (drain queue_depth_list) (decrease_interval_of queue_depth_list).
Proof.
  unfold decrease_interval_of. cbv zeta.
  set (qdl := rev queue_depth_list).
  assert (Hlen : length (qd_values_of qdl) = length qdl).
  { unfold qd_values_of. apply length_map. }
  assert (Hturn : forall acc i,
            (i < length qdl)%nat ->
            Forall (drain queue_depth_list) acc ->
            Forall (drain queue_depth_list)
              (fst (scan_turn qdl (qd_values_of qdl) acc i))).
  { intros acc i Hi Hacc. unfold scan_turn.
    destruct (Z.leb_spec (qd_values_of qdl !!! i) 1) as [Hlow|]; [|exact Hacc].
    pose proof (find_window_drain qdl i
                  (seq (i + 1) (length (qd_values_of qdl) - (i + 1))) Hi Hlow) as Hw.
    destruct (find_window qdl (qd_values_of qdl) i _) as [[interval j]|]; [|exact Hacc].
    simpl. apply Forall_app. split; [exact Hacc|]. constructor; [|constructor].
    unfold qdl in Hw at 3. rewrite rev_involutive in Hw.
    apply (Hw ltac:(apply Forall_forall; intros m Hm; rewrite list_elem_of_In in Hm;
                    apply in_seq in Hm; lia) interval j eq_refl). }
  assert (Hseq : Forall (fun i => (i < length qdl)%nat)
                   (seq 0 (length (qd_values_of qdl) - 1))).
  { apply Forall_forall. intros i Hi. rewrite list_elem_of_In in Hi.
    apply in_seq in Hi. lia. }
  revert Hseq. generalize (seq 0 (length (qd_values_of qdl) - 1)).
  assert (Hnil : Forall (drain queue_depth_list) []) by constructor.
  revert Hnil. generalize (@nil Interval).
  intros acc Hacc l. revert acc Hacc.
  induction l as [|i l IH]; intros acc Hacc Hl; simpl; [exact Hacc|].
  inversion Hl; subst. apply IH; [|assumption]. now apply Hturn.
Qed.

(** ** The depth of a data point *)

Lemma advance_offset (rest : list KinetoEvent) (t : Z) :
  forall c off, advance rest (c + off) t = (advance rest c t + off)%nat.
Proof.
  induction rest as [|k rest IH]; intros c off; simpl; [reflexivity|].
  destruct (start_us k * 1000 <=? t); [|reflexivity].
  exact (IH (S c) off).
Qed.

Lemma started_none (kernels : list KinetoEvent) (t : Z) :
  Forall (fun k => t < start_us k * 1000) kernels -> started kernels t = 0%nat.
Proof.
  unfold started. induction 1 as [|k l Hk Hl IH]; simpl; [reflexivity|].
  destruct (Z.leb_spec (start_us k * 1000) t); [lia|exact IH].
Qed.

Lemma started_mono (kernels : list KinetoEvent) (t t' : Z) :
  t <= t' -> (started kernels t <= started kernels t')%nat.
Proof.
  intros Ht. unfold started. induction kernels as [|k l IH]; simpl; [lia|].
  destruct (Z.leb_spec (start_us k * 1000) t), (Z.leb_spec (start_us k * 1000) t');
    simpl; lia.
Qed.

(** On kernels in the order of their starts the cursor, wherever it stands
    among the kernels that have started, stops at their number. *)
Lemma advance_started (kernels : list KinetoEvent) (t : Z) :
  ordered start_us kernels ->
  forall c, (c <= started kernels t)%nat ->
    advance (drop c kernels) c t = started kernels t.
Proof.
  induction kernels as [|k rest IH]; intros Hord c Hc.
  - unfold started in *. simpl in *. destruct c; [reflexivity|lia].
  - destruct Hord as [Hk Hord].
    assert (Hcons : started (k :: rest) t
                    = if start_us k * 1000 <=? t then S (started rest t)
                      else started rest t).
    { unfold started. simpl. now destruct (start_us k * 1000 <=? t). }
    destruct (Z.leb_spec (start_us k * 1000) t) as [Hle|Hgt].
    + rewrite Hcons. destruct c as [|c].
      * simpl. destruct (Z.leb_spec (start_us k * 1000) t); [|lia].
        change 1%nat with (0 + 1)%nat. rewrite (advance_offset rest t 0 1).
        pose proof (IH Hord 0%nat ltac:(lia)) as H0. rewrite drop_0 in H0. lia.
      * simpl drop. replace (S c) with (c + 1)%nat by lia.
        rewrite (advance_offset (drop c rest) t c 1).
        rewrite (IH Hord c ltac:(lia)). lia.
    + assert (H0 : started (k :: rest) t = 0%nat).
      { apply started_none. constructor; [exact Hgt|].
        eapply Forall_impl; [exact Hk|]. intros y Hy. simpl in Hy. lia. }
      rewrite H0 in *. assert (c = 0%nat) by lia. subst c. simpl.
      destruct (Z.leb_spec (start_us k * 1000) t); [lia|reflexivity].
Qed.

Lemma sweep_kineto_depths kernels km :
  ordered start_us kernels ->
  forall (devs : list KinetoEvent) st,
    nondecreasing start_us devs ->
    match devs with
    | d :: _ => (current_kernel_index st <= started kernels (start_us d * 1000))%nat
    | [] => True
    end ->
    map i_queue_depth
      (sw_queue_depth_list (fold_left (sweep_step kernels km) (map Kineto devs) st))
    = map i_queue_depth (sw_queue_depth_list st)
      ++ depth_trace kernels km devs (spawned_kernel_index st).
Proof.
  intros Hord. induction devs as [|d devs IH]; intros st Hnd Hcur;
    [simpl; now rewrite app_nil_r|].
  cbn [map fold_left depth_trace]. rewrite sweep_step_Kineto. cbv zeta.
  rewrite (advance_started kernels _ Hord _ Hcur).
  rewrite IH.
  - cbn [sw_queue_depth_list spawned_kernel_index]. rewrite map_app. simpl.
    now rewrite <- app_assoc.
  - destruct devs; [exact I|apply Hnd].
  - cbn [current_kernel_index]. destruct devs as [|d' devs]; [exact I|].
    apply started_mono. destruct Hnd as [H _]. lia.
Qed.

(** The cursor of the sweep counts the kernels that have started: the depth
    of the data point of a device event is the index of the kernel spawned
    last, minus the number of kernels that start no later than the event,
    plus one. *)
Theorem queue_depth_counts_started_kernels (prof : profile) (events : list Event)
    (metrics : Dict.t) :
  map i_queue_depth (fst (compute_queue_depth prof events metrics))
  = depth_trace (cuda_kernel_events prof) (kernel_mapping prof)
      (sorted start_us (cuda_launch_events prof ++ cuda_kernel_events prof)) (-1).
Proof.
  rewrite timeline_of_devices.
  unfold compute_queue_depth. cbv zeta. cbn [fst].
  rewrite device_timeline, sweep_kineto_depths.
  - reflexivity.
  - unfold cuda_kernel_events. apply sorted_ordered.
  - apply sorted_nondecreasing.
  - destruct (sorted start_us _); [exact I|]. simpl. lia.
Qed.

(** ** The queue depth of a host event *)

Lemma kinetos_app l1 l2 : kinetos (l1 ++ l2) = kinetos l1 ++ kinetos l2.
Proof. unfold kinetos. apply flat_map_app. Qed.

Lemma hosts_app l1 l2 : hosts (l1 ++ l2) = hosts l1 ++ hosts l2.
Proof. unfold hosts. apply flat_map_app. Qed.

Lemma kinetos_map_Kineto (l : list KinetoEvent) : kinetos (map Kineto l) = l.
Proof. induction l as [|d l IH]; simpl; [reflexivity|]. now rewrite IH. Qed.

Lemma In_kinetos d l : In d (kinetos l) <-> In (Kineto d) l.
Proof.
  unfold kinetos. rewrite in_flat_map. split.
  - intros ([d'|e] & Hin & Hd); simpl in Hd; [|contradiction].
    destruct Hd as [->|[]]. exact Hin.
  - intros H. exists (Kineto d). split; [exact H|now left].
Qed.

Lemma In_hosts e l : In e (hosts l) <-> In (Profiler e) l.
Proof.
  unfold hosts. rewrite in_flat_map. split.
  - intros ([d|e'] & Hin & He); simpl in He; [contradiction|].
    destruct He as [->|[]]. exact Hin.
  - intros H. exists (Profiler e). split; [exact H|now left].
Qed.

Lemma ordered_app_inv {A} (key : A -> Z) (pre : list A) (x : A) (rest : list A) :
  ordered key (pre ++ x :: rest) ->
  Forall (fun y => key y <= key x) pre /\ ordered key (x :: rest).
Proof.
  induction pre as [|y pre IH]; simpl; [intros H; split; [constructor|exact H]|].
  intros [Hy Hord]. destruct (IH Hord) as [Hpre Hx]. split; [|exact Hx].
  constructor; [|exact Hpre].
  rewrite Forall_forall in Hy. apply Hy. rewrite list_elem_of_In.
  apply in_or_app. right. now left.
Qed.

Lemma hosts_last_app (pre rest : list AnyEvent) :
  hosts_last (pre ++ rest) -> hosts_last rest.
Proof. induction pre as [|x pre IH]; simpl; [trivial|]. intros [_ H]. now apply IH. Qed.

(** The sort is stable, and the device events come first in the list that
    is sorted: a device event with the start time of a host event is before
    it in the timeline. *)
Lemma insert_by_hosts_last (d : KinetoEvent) (l : list AnyEvent) :
  hosts_last l -> hosts_last (insert_by new_old_event_comparator (Kineto d) l).
Proof.
  induction l as [|y l IH]; simpl; [auto|]. intros [Hy Hl].
  destruct (Z.leb_spec (start_us d * 1000) (new_old_event_comparator y)) as [Hle|Hgt].
  - simpl. auto.
  - simpl. split; [|now apply IH].
    destruct y as [d'|e]; [exact I|].
    rewrite Forall_forall in *. intros ev Hev.
    rewrite (insert_by_perm new_old_event_comparator (Kineto d) l) in Hev.
    apply elem_of_cons in Hev as [->|Hev]; [intros _; simpl in *; lia|now apply Hy].
Qed.

Lemma sorted_hosts_last (devices : list KinetoEvent) (events : list Event) :
  hosts_last (sorted new_old_event_comparator
                (map Kineto devices ++ map Profiler events)).
Proof.
  induction devices as [|d devices IH]; simpl.
  - assert (H : forall l : list AnyEvent,
              Forall (fun ev => is_kineto ev = false) l -> hosts_last l).
    { induction 1 as [|x l Hx Hl IHl]; simpl; [exact I|]. split; [|exact IHl].
      destruct x; [exact I|]. eapply Forall_impl; [exact Hl|].
      intros ev Hev. rewrite Hev. discriminate. }
    apply H. apply Forall_forall. intros ev Hev.
    rewrite (sorted_perm new_old_event_comparator (map Profiler events)) in Hev.
    rewrite list_elem_of_In in Hev. apply in_map_iff in Hev as (e & <- & _). reflexivity.
  - now apply insert_by_hosts_last.
Qed.

Lemma spawned_by_app km l1 l2 s :
  spawned_by km (l1 ++ l2) s = spawned_by km l2 (spawned_by km l1 s).
Proof. unfold spawned_by. apply fold_left_app. Qed.

Lemma list_filter_all {A} (p : A -> bool) (l : list A) :
  Forall (fun x => p x = true) l -> List.filter p l = l.
Proof. induction 1 as [|x l Hx Hl IH]; simpl; [reflexivity|]. now rewrite Hx, IH. Qed.

Lemma list_filter_none {A} (p : A -> bool) (l : list A) :
  Forall (fun x => p x = false) l -> List.filter p l = [].
Proof. induction 1 as [|x l Hx Hl IH]; simpl; [reflexivity|]. now rewrite Hx. Qed.

(** The sweep writes for every host event the depth at its start. *)
Lemma sweep_host_depths kernels km (all : list AnyEvent) :
  ordered start_us kernels ->
  ordered new_old_event_comparator all ->
  hosts_last all ->
  let value e := depth_at kernels km (kinetos all) (start_time_ns e) in
  forall rest pre st,
    all = pre ++ rest ->
    spawned_kernel_index st = spawned_by km (kinetos pre) (-1) ->
    match rest with
    | ev :: _ =>
        (current_kernel_index st <= started kernels (new_old_event_comparator ev))%nat
    | [] => True
    end ->
    NoDup (key_ids (sw_metrics st)) ->
    (forall e, In (Profiler e) rest -> In (mkEventKey e) (Dict.keys (sw_metrics st))) ->
    Forall (written queue_depth value (hosts pre)) (sw_metrics st) ->
    Forall (written queue_depth value (hosts all))
      (sw_metrics (fold_left (sweep_step kernels km) rest st)).
Proof.
  intros Hk Hord Hlast value.
  induction rest as [|ev rest IH]; intros pre st Hall Hsp Hcur Hids Hin Hm.
  - rewrite app_nil_r in Hall. subst pre. exact Hm.
  - assert (Hall' : all = (pre ++ [ev]) ++ rest) by now rewrite <- app_assoc.
    assert (Hnext : forall c, c = started kernels (new_old_event_comparator ev) ->
              match rest with
              | ev' :: _ => (c <= started kernels (new_old_event_comparator ev'))%nat
              | [] => True
              end).
    { intros c ->. destruct rest as [|ev' rest]; [exact I|].
      apply started_mono. rewrite Hall in Hord.
      apply ordered_app_inv in Hord as [_ [Hev _]].
      rewrite Forall_forall in Hev. apply Hev. now left. }
    cbn [fold_left]. destruct ev as [d|e].
    + rewrite sweep_step_Kineto. cbv zeta.
      apply (IH (pre ++ [Kineto d])); cbn [spawned_kernel_index current_kernel_index sw_metrics].
      * exact Hall'.
      * rewrite kinetos_app, spawned_by_app, <- Hsp. reflexivity.
      * apply Hnext. now apply advance_started.
      * exact Hids.
      * intros e He. apply Hin. now right.
      * rewrite hosts_app. simpl. now rewrite app_nil_r.
    + rewrite sweep_step_Profiler.
      change (new_old_event_comparator (Profiler e)) with (start_time_ns e) in Hcur.
      rewrite (advance_started kernels _ Hk _ Hcur).
      apply (IH (pre ++ [Profiler e])); cbn [spawned_kernel_index current_kernel_index sw_metrics].
      * exact Hall'.
      * rewrite kinetos_app. simpl. now rewrite app_nil_r.
      * now apply Hnext.
      * now rewrite key_ids_update.
      * intros x Hx. rewrite Dict_keys_update. apply Hin. now right.
      * rewrite hosts_app. simpl.
        apply (Dict_update_settles (written queue_depth value (hosts pre)));
          [exact Hids| | |exact Hm].
        -- intros k' r Hk' Hid _. simpl.
           assert (Hke : k' = mkEventKey e).
           { apply (NoDup_map_eq (fun k => id (event k)) (Dict.keys (sw_metrics st))).
             - exact Hids.
             - unfold Dict.keys. apply in_map_iff. now exists (k', r).
             - apply Hin. now left.
             - exact Hid. }
           subst k'. simpl. unfold value, depth_at. f_equal. f_equal.
           rewrite Hsp. f_equal.
           rewrite Hall, kinetos_app. simpl. rewrite List.filter_app.
           rewrite Hall in Hord. apply ordered_app_inv in Hord as [Hpre _].
           rewrite Hall in Hlast. apply hosts_last_app in Hlast as [Hpost _].
           rewrite list_filter_all, list_filter_none; [now rewrite app_nil_r| |].
           ++ apply Forall_forall. intros d Hd. rewrite list_elem_of_In in Hd.
              apply In_kinetos in Hd. rewrite Forall_forall in Hpost.
              rewrite <- list_elem_of_In in Hd. specialize (Hpost _ Hd eq_refl).
              simpl in Hpost. apply Z.leb_gt. exact Hpost.
           ++ apply Forall_forall. intros d Hd. rewrite list_elem_of_In in Hd.
              apply In_kinetos in Hd. rewrite Forall_forall in Hpre.
              rewrite <- list_elem_of_In in Hd. specialize (Hpre _ Hd).
              simpl in Hpre. apply Z.leb_le. exact Hpre.
        -- intros k' r _ Hid Hset Hdone. apply Hset. simpl in *.
           rewrite map_app in Hdone. apply in_app_or in Hdone as [H|[H|[]]];
             [exact H|]. exfalso. now apply Hid.
Qed.

(** The queue depth that [compute_queue_depth] records for a host event is
    the depth at the start of the event: the index of the kernel spawned
    last by the launches that start no later than the event, minus the
    number of kernels that have started by then, plus one. *)
Theorem host_queue_depth (prof : profile) (events : list Event) (metrics : Dict.t)
    (e : Event) :
  NoDup (key_ids metrics) ->
  (forall x, In x events -> In (mkEventKey x) (Dict.keys metrics)) ->
  In e events ->
  exists r,
    Dict.get (snd (compute_queue_depth prof events metrics)) (mkEventKey e) = Some r /\
    queue_depth r
    = depth_at (cuda_kernel_events prof) (kernel_mapping prof)
        (sorted start_us (cuda_launch_events prof ++ cuda_kernel_events prof))
        (start_time_ns e).
Proof.
  intros Hids Hkeys He.
  pose proof (compute_queue_depth_metrics
                (fun d => Dict.keys d = Dict.keys metrics)
                prof events metrics
                ltac:(intros d k v Hk; cbv beta; now rewrite Dict_keys_update) eq_refl)
    as Hkeys1.
  cbv beta in Hkeys1.
  set (devices := cuda_launch_events prof ++ cuda_kernel_events prof).
  set (all := sorted new_old_event_comparator
                (map Kineto devices ++ map Profiler events)).
  assert (Hrun : snd (compute_queue_depth prof events metrics)
                 = sw_metrics (fold_left (sweep_step (cuda_kernel_events prof)
                                            (kernel_mapping prof))
                                 all (mkSweep 0 (-1) [] metrics))).
  { unfold compute_queue_depth. cbv zeta. cbn [snd]. unfold all, devices.
    now rewrite map_app, <- app_assoc. }
  assert (Hkin : kinetos all = sorted start_us devices).
  { rewrite <- (kinetos_map_Kineto (sorted start_us devices)).
    assert (Hf : List.filter is_kineto all = map Kineto (sorted start_us devices)).
    { unfold all. rewrite filter_sorted, List.filter_app, filter_is_kineto_all,
        filter_is_kineto_none, app_nil_r, sorted_map.
      f_equal. apply sorted_same_order. intros x y. simpl.
      destruct (Z.leb_spec (start_us x * 1000) (start_us y * 1000)),
               (Z.leb_spec (start_us x) (start_us y)); try reflexivity; lia. }
    rewrite <- Hf. clear. induction all as [|[d|x] l IH]; simpl; [reflexivity| |exact IH].
    now rewrite IH. }
  assert (Hhosts : forall x, In x events -> In x (hosts all)).
  { intros x Hx. apply In_hosts. unfold all.
    eapply Permutation_in; [symmetry; apply sorted_perm|].
    apply in_or_app. right. now apply in_map. }
  pose proof (sweep_host_depths (cuda_kernel_events prof) (kernel_mapping prof) all
                ltac:(unfold cuda_kernel_events; apply sorted_ordered)
                ltac:(apply sorted_ordered)
                ltac:(apply sorted_hosts_last)) as Hsweep.
  cbv zeta in Hsweep.
  specialize (Hsweep all [] (mkSweep 0 (-1) [] metrics) eq_refl eq_refl).
  cbn [current_kernel_index sw_metrics] in Hsweep.
  specialize (Hsweep ltac:(destruct all; [exact I|lia]) Hids).
  rewrite <- Hrun, Hkin in Hsweep.
  assert (Hfinal : Forall (written queue_depth
                     (fun x => depth_at (cuda_kernel_events prof) (kernel_mapping prof)
                                 (sorted start_us devices) (start_time_ns x))
                     (hosts all))
                     (snd (compute_queue_depth prof events metrics))).
  { apply Hsweep.
    - intros x Hx. apply Hkeys. unfold all in Hx.
      eapply Permutation_in in Hx; [|apply sorted_perm].
      apply in_app_or in Hx as [Hx|Hx]; apply in_map_iff in Hx as (y & Hy & Hin);
        [discriminate|]. now injection Hy as <-.
    - apply Forall_forall. intros kr _ []. }
  assert (Hin : In (mkEventKey e)
                  (Dict.keys (snd (compute_queue_depth prof events metrics)))).
  { rewrite Hkeys1. now apply Hkeys. }
  unfold Dict.keys in Hin. apply in_map_iff in Hin as ([k r] & Hk & Hin).
  simpl in Hk. subst k. exists r. split.
  - apply Dict_get_In; [|exact Hin]. unfold key_ids. now rewrite Hkeys1.
  - rewrite Forall_forall in Hfinal.
    apply (Hfinal (mkEventKey e, r)); [now rewrite list_elem_of_In|].
    simpl. apply in_map. now apply Hhosts.
Qed.

Lemma host_queue_depth_witness :
  exists r,
    Dict.get (snd (compute_queue_depth burst_profile
                     [ev 1 0 20000 [ev 2 3000 9000 []]; ev 2 3000 9000 []]
                     (map entry [ev 1 0 20000 [ev 2 3000 9000 []]; ev 2 3000 9000 []])))
      (mkEventKey (ev 2 3000 9000 [])) = Some r /\
    queue_depth r
    = depth_at (cuda_kernel_events burst_profile) (kernel_mapping burst_profile)
        (sorted start_us
           (cuda_launch_events burst_profile ++ cuda_kernel_events burst_profile))
        3000.
Proof.
  apply (host_queue_depth burst_profile
           [ev 1 0 20000 [ev 2 3000 9000 []]; ev 2 3000 9000 []]
           (map entry [ev 1 0 20000 [ev 2 3000 9000 []]; ev 2 3000 9000 []])
           (ev 2 3000 9000 [])).
  - vm_compute. repeat constructor; rewrite list_elem_of_In; simpl; intuition discriminate.
  - intros x Hx. simpl in *. destruct Hx as [<-|[<-|[]]]; auto.
  - simpl. auto.
Defined.

(** ** Idle time and the span of an event *)

Lemma clipped_overlap_mono (e e' : Event) (l : list Interval) :
  start_time_ns e' <= start_time_ns e ->
  end_time_ns e <= end_time_ns e' ->
  clipped_overlap e l <= clipped_overlap e' l.
Proof.
  intros Hs He. induction l as [|i l IH]; simpl; [lia|].
  unfold span_overlap in *. destruct l; lia.
Qed.

Lemma clipped_overlap_empty (e : Event) (l : list Interval) :
  end_time_ns e <= start_time_ns e -> clipped_overlap e l = 0.
Proof.
  intros He. induction l as [|i l IH]; simpl; [reflexivity|].
  rewrite IH. unfold span_overlap. destruct l; lia.
Qed.

(** An event whose span lies within the span of another event has at most
    the idle time of that event, and an event whose span is empty or
    reversed has no idle time. *)
Theorem idle_time_by_span (prof : profile) (e e' : Event) :
  NoDup (map id (forest_nodes (experimental_event_tree prof))) ->
  In e (forest_nodes (experimental_event_tree prof)) ->
  In e' (forest_nodes (experimental_event_tree prof)) ->
  start_time_ns e' <= start_time_ns e ->
  end_time_ns e <= end_time_ns e' ->
  exists be r r',
    BasicEvaluation_init prof = Ok be /\
    Dict.get (metrics be) (mkEventKey e) = Some r /\
    Dict.get (metrics be) (mkEventKey e') = Some r' /\
    idle_time_ns r <= idle_time_ns r' /\
    (end_time_ns e <= start_time_ns e -> idle_time_ns r = 0).
Proof.
  intros Hnd He He' Hs Het.
  destruct (BasicEvaluation_init_idle_time prof Hnd)
    as (order & be & _ & Hrun & _ & _ & Hidle).
  destruct (Hidle e He) as (r & Hget & Hval).
  destruct (Hidle e' He') as (r' & Hget' & Hval').
  exists be, r, r'. split; [exact Hrun|]. split; [exact Hget|]. split; [exact Hget'|].
  rewrite Hval, Hval'. split.
  - now apply clipped_overlap_mono.
  - apply clipped_overlap_empty.
Qed.

Lemma idle_time_by_span_witness :
  exists be r r',
    BasicEvaluation_init burst_profile = Ok be /\
    Dict.get (metrics be) (mkEventKey (ev 2 3000 9000 [])) = Some r /\
    Dict.get (metrics be) (mkEventKey (ev 1 0 20000 [ev 2 3000 9000 []])) = Some r' /\
    idle_time_ns r <= idle_time_ns r' /\
    (end_time_ns (ev 2 3000 9000 []) <= start_time_ns (ev 2 3000 9000 []) ->
     idle_time_ns r = 0).
Proof.
  apply idle_time_by_span.
  - vm_compute. repeat constructor; rewrite list_elem_of_In; simpl; intuition discriminate.
  - vm_compute. auto.
  - vm_compute. auto.
  - simpl. lia.
  - simpl. lia.
Defined.

(** ** The boundary idle intervals of a run *)









(** On a trace whose last host event in start order is a child that ends
    before its parent, and before the device events do, the second boundary
    interval ends at the end of the child: it is reversed, and the parent is
    given the idle time of the first boundary interval only. *)
Lemma trailing_boundary_of_nested_events :
  let be := evaluation warmup_profile in
  BasicEvaluation_init warmup_profile = Ok be /\
  map id (be_events be) = [1; 2] /\
  idle_intervals (queue_depth_list be) (be_events be)
  = [Interval2 0 5000; Interval2 12000 2000] /\
  option_map idle_time_ns
    (Dict.get (metrics be) (mkEventKey (ev 1 0 100000 [ev 2 1000 2000 []])))
  = Some 5000.
Proof. vm_compute. repeat split. Qed.
